(** * PyVRP (hgs): time-window segments, Individuals and the Exchange<N, M>
      local-search operators.

    Sources covered:
    - [pyvrp/cpp/educate/Exchange.h]: [containsDepot], [overlap],
      [adjacent], [evalRelocateMove], [evalSwapMove], [evaluate], [apply];
    - [hgs/test/test_Individual.cpp]: the expectations on [Individual].

    Conventions.  C++ [int] values (distances, durations, loads, costs) are
    integers [Z].  The [int] operations of [Exchange.h] are written with
    32-bit two's-complement wrap-around ([wrapInt]): signed overflow is
    undefined behaviour in C++ and wraps on the usual targets, so a
    statement about the exact value of a cost difference carries the bound
    under which no operation overflows.  The quantities computed by code
    that is not among the sources (distances between positions, loads, time
    warps, penalties) are the integers the spec defines.  [size_t] values
    (positions, segment lengths, route sizes) are integers in [0, 2^64) and
    every [size_t] operation is written with its wrap-around ([wrap]).
    Client indices are natural numbers; index 0 is the depot.

    The file first gives the embedding (problem data, time-window segments,
    Individual, the node and route views of the local search, the Exchange
    operator), then the lemmas and theorems about it. *)

From stdpp Require Import base numbers list sets.
From Stdlib Require Import ZArith Lia.

#[local] Open Scope Z_scope.

(** * Part I: the embedding *)

(** ** Problem data *)

Record Client := mkClient {
  demand : Z;
  servDur : Z;
  twEarly : Z;
  twLate : Z
}.

Record ProblemData := mkProblemData {
  nbClients : nat;
  nbVehicles : nat;
  vehicleCapacity : Z;
  clients : list Client;
  distMatrix : list (list Z)
}.

Definition noClient : Client := mkClient 0 0 0 0.

(** [data.clients[i]]; reading outside the table is undefined in the
    program, the model reads [noClient] there. *)
Definition client (data : ProblemData) (i : nat) : Client :=
  default noClient (clients data !! i).

(** [data.dist(i, j)]. *)
Definition dist (data : ProblemData) (i j : nat) : Z :=
  default 0 (distMatrix data !! i ≫= (.!! j)).

(** Variadic [data.dist(i1, i2, ..., ik)]: the sum over consecutive pairs. *)
Fixpoint distPath (data : ProblemData) (path : list nat) : Z :=
  match path with
  | i :: rest =>
      match rest with
      | j :: _ => dist data i j + distPath data rest
      | [] => 0
      end
  | [] => 0
  end.

(** Sum of the demands of a sequence of clients. *)
Fixpoint demandSum (data : ProblemData) (cs : list nat) : Z :=
  match cs with
  | [] => 0
  | c :: cs' => demand (client data c) + demandSum data cs'
  end.

(** ** PenaltyManager *)

Record PenaltyManager := mkPenaltyManager {
  capacityPenalty : Z;
  timeWarpPenalty : Z
}.

(** Modelled from the spec: [PenaltyManager] is not among the sources.
    [loadPenalty(load) = max(load − capacity, 0) · capacityPenalty]. *)
Definition loadPenalty (data : ProblemData) (pm : PenaltyManager) (load : Z) : Z :=
  Z.max (load - vehicleCapacity data) 0 * capacityPenalty pm.

(** Modelled from the spec: [PenaltyManager] is not among the sources.
    [twPenalty(warp) = warp · timeWarpPenalty]. *)
Definition twPenalty (pm : PenaltyManager) (warp : Z) : Z :=
  warp * timeWarpPenalty pm.

(** ** Time-window segments *)

Module TWS.

Record t := mk {
  idxFirst : nat;
  idxLast : nat;
  duration : Z;
  timeWarp : Z;
  earliestStart : Z;
  latestStart : Z
}.

(** Modelled from the spec: [TimeWindowSegment.h] is not among the
    sources.  A singleton segment over client [c] has the client's
    service duration, no time warp and the client's time window. *)
Definition singleton (data : ProblemData) (c : nat) : t :=
  {| idxFirst := c;
     idxLast := c;
     duration := servDur (client data c);
     timeWarp := 0;
     earliestStart := twEarly (client data c);
     latestStart := twLate (client data c) |}.

(** Modelled from the spec: [TimeWindowSegment.h] is not among the
    sources.  Binary [merge]: [delta] is the spec's
    [A.duration − A.timeWarp + dist(A.idxLast, B.idxFirst)]; the extra
    waiting time and the extra time warp are the two [max (…) 0] terms of
    the spec's [waitOrWarp]; the four scalars are combined by the
    recurrence of Vidal et al. for the concatenation of two sequences. *)
Definition merge (data : ProblemData) (A B : t) : t :=
  let distAB := dist data (idxLast A) (idxFirst B) in
  let delta := duration A - timeWarp A + distAB in
  let deltaWaitTime := Z.max (earliestStart B - delta - latestStart A) 0 in
  let deltaTimeWarp := Z.max (earliestStart A + delta - latestStart B) 0 in
  {| idxFirst := idxFirst A;
     idxLast := idxLast B;
     duration := duration A + duration B + distAB + deltaWaitTime;
     timeWarp := timeWarp A + timeWarp B + deltaTimeWarp;
     earliestStart :=
       Z.max (earliestStart B - delta) (earliestStart A) - deltaWaitTime;
     latestStart :=
       Z.min (latestStart B - delta) (latestStart A) + deltaTimeWarp |}.

(** Modelled from the spec: variadic [merge(A, B, C, …)] folds to the
    left. *)
Definition mergeAll (data : ProblemData) (A : t) (rest : list t) : t :=
  foldl (merge data) A rest.

(** Modelled from the spec: [totalTimeWarp()] returns the segment's
    internal time warp. *)
Definition totalTimeWarp (A : t) : Z := timeWarp A.

(** A parenthesization of [merge] over a sequence of clients: the leaves,
    read left to right, are the singleton segments of the sequence. *)
Inductive paren :=
| Leaf (c : nat)
| Merge (l r : paren).

Fixpoint leaves (p : paren) : list nat :=
  match p with
  | Leaf c => [c]
  | Merge l r => leaves l ++ leaves r
  end.

Fixpoint eval (data : ProblemData) (p : paren) : t :=
  match p with
  | Leaf c => singleton data c
  | Merge l r => merge data (eval data l) (eval data r)
  end.

(** The segment of a client sequence, merged left to right.  The segment
    of the empty sequence is never asked for by well-formed calls; the
    model returns the depot's singleton there. *)
Definition ofList (data : ProblemData) (cs : list nat) : t :=
  match cs with
  | [] => singleton data 0
  | c :: rest => mergeAll data (singleton data c) (singleton data <$> rest)
  end.

End TWS.

(** ** Routes as client sequences

    A route is the sequence of the clients it visits; the depot (client 0)
    is implicit at both ends. *)

(** The clients at positions [0 … size()+1] of a route: the depot, the
    clients, the depot. *)
Definition routeNodes (r : list nat) : list nat := 0%nat :: r ++ [0%nat].

(** Modelled from the spec: [Route::distance()], the sum of the distances
    between consecutive nodes of the route, depots included. *)
Definition routeDistance (data : ProblemData) (r : list nat) : Z :=
  distPath data (routeNodes r).

(** Modelled from the spec: [Route::load()], the sum of the demands of the
    route's clients. *)
Definition routeLoad (data : ProblemData) (r : list nat) : Z :=
  demandSum data r.

(** Modelled from the spec: [Route::timeWarp()], the time warp of the
    time-window segment of the whole route [depot … depot]. *)
Definition routeTimeWarp (data : ProblemData) (r : list nat) : Z :=
  TWS.totalTimeWarp (TWS.ofList data (routeNodes r)).

(** Penalised cost of one route. *)
Definition routeCost (data : ProblemData) (pm : PenaltyManager) (r : list nat) : Z :=
  routeDistance data r
  + loadPenalty data pm (routeLoad data r)
  + twPenalty pm (routeTimeWarp data r).

Fixpoint sumZ (zs : list Z) : Z :=
  match zs with
  | [] => 0
  | z :: zs' => z + sumZ zs'
  end.

(** Penalised cost of a set of routes: what the local search minimises. *)
Definition solutionCost (data : ProblemData) (pm : PenaltyManager)
    (routes : list (list nat)) : Z :=
  sumZ (routeCost data pm <$> routes).

(** ** Individual *)

Module Individual.

Inductive error :=
| InvalidRoutes.

Record t := mk {
  routes_ : list (list nat);
  neighbours : list (nat * nat);
  distance : Z;
  excessLoad : Z;
  timeWarp : Z
}.

Definition isEmptyRoute (r : list nat) : bool :=
  match r with
  | [] => true
  | _ :: _ => false
  end.

(** Modelled from the spec: on construction the empty routes are moved to
    the end, the order of the non-empty routes being preserved. *)
Definition sortByEmpty (routes : list (list nat)) : list (list nat) :=
  filter (λ r, isEmptyRoute r = false) routes
  ++ filter (λ r, isEmptyRoute r = true) routes.

(** [routeClientAt r k]: the client at position [k] of the route, with the
    depot at positions [0] and [size()+1]. *)
Definition routeClientAt (r : list nat) (k : nat) : nat :=
  default 0%nat (routeNodes r !! k).

(** Modelled from the spec: the neighbour map.  An array indexed by client
    (0 to n), every entry initially [(0, 0)]; every client of every route
    gets the pair of its predecessor and successor in the route, the depot
    standing at both ends. *)
Definition setNeighbours (r : list nat) (nb : list (nat * nat)) : list (nat * nat) :=
  foldl (λ acc idx,
           <[ routeClientAt r (S idx) :=
                (routeClientAt r idx, routeClientAt r (S (S idx))) ]> acc)
        nb (seq 0 (length r)).

Definition makeNeighbours (data : ProblemData) (routes : list (list nat))
    : list (nat * nat) :=
  foldl (λ acc r, setNeighbours r acc)
        (replicate (S (nbClients data)) (0%nat, 0%nat)) routes.

(** Modelled from the spec: [Individual.cpp] is not among the sources.
    The derived scalars computed at construction: total distance, total
    excess load (the sum over the routes of [max(load − capacity, 0)]) and
    total time warp (the sum of the routes' time warps). *)
Definition evaluateCompleteCost (data : ProblemData) (routes : list (list nat)) : t :=
  {| routes_ := routes;
     neighbours := makeNeighbours data routes;
     distance := sumZ (routeDistance data <$> routes);
     excessLoad :=
       sumZ ((λ r, Z.max (routeLoad data r - vehicleCapacity data) 0) <$> routes);
     timeWarp := sumZ (routeTimeWarp data <$> routes) |}.

(** Modelled from the spec: [Individual.cpp] is not among the sources.
    The validation of the constructor from explicit routes.  From the
    spec: a list with more than [nbVehicles] entries is accepted only when
    the extra entries are empty, and a client index outside [1 … n] is
    rejected.  From the test [routeConstructorThrows], where the spec says
    otherwise: a list of two routes for three vehicles is rejected, so a
    list with fewer than [nbVehicles] entries is; and [[1,2],[4,2],[]] is
    accepted although client 2 is listed twice and client 3 not at all, so
    neither repetitions nor coverage are checked. *)
Definition validRoutes (data : ProblemData) (routes : list (list nat)) : bool :=
  bool_decide (nbVehicles data ≤ length routes)%nat
  && forallb isEmptyRoute (drop (nbVehicles data) routes)
  && forallb (λ c, bool_decide (1 ≤ c ≤ nbClients data)%nat) (mjoin routes).

(** Modelled from the spec: [Individual.cpp] is not among the sources.
    The constructor from explicit routes: invalid-routes for a list that
    is not valid; else the Individual of the first [nbVehicles] routes,
    the empty ones moved to the end. *)
Definition make (data : ProblemData) (routes : list (list nat)) : error + t :=
  if validRoutes data routes
  then inr (evaluateCompleteCost data
              (sortByEmpty (take (nbVehicles data) routes)))
  else inl InvalidRoutes.

Definition getRoutes (ind : t) : list (list nat) := routes_ ind.

Definition getNeighbours (ind : t) : list (nat * nat) := neighbours ind.

(** [numRoutes()]: the number of non-empty routes. *)
Definition numRoutes (ind : t) : nat :=
  length (filter (λ r, isEmptyRoute r = false) (routes_ ind)).

Definition hasExcessCapacity (ind : t) : bool := bool_decide (0 < excessLoad ind).

Definition hasTimeWarp (ind : t) : bool := bool_decide (0 < timeWarp ind).

Definition isFeasible (ind : t) : bool :=
  negb (hasExcessCapacity ind || hasTimeWarp ind).

(** Modelled from the spec: [cost()], the penalised cost
    [distance + capacityPenalty · excessLoad + timeWarpPenalty · timeWarp]. *)
Definition cost (pm : PenaltyManager) (ind : t) : Z :=
  distance ind
  + capacityPenalty pm * excessLoad ind
  + timeWarpPenalty pm * timeWarp ind.

(** [neighbours[c]]. *)
Definition neighboursOf (ind : t) (c : nat) : nat * nat :=
  default (0%nat, 0%nat) (neighbours ind !! c).

(** Modelled from the spec: [Individual.cpp] is not among the sources.
    The spec's words for the broken-pairs distance: the contribution of one
    client is [(p₁ ≠ p₂ ∧ p₁ ≠ s₂) + (s₁ ≠ s₂ ∧ s₁ ≠ p₂)] for its
    (predecessor, successor) pairs [(p₁, s₁)] and [(p₂, s₂)] in the two
    Individuals, and the distance is the sum over the non-depot clients
    [1 … n].  The test [brokenPairsDistance] expects other values than
    these words give, so they are kept apart from the Individual's
    operations, for comparison with the test. *)
Definition brokenContributionSpec (n1 n2 : nat * nat) : Z :=
  (if bool_decide (n1.1 ≠ n2.1 ∧ n1.1 ≠ n2.2) then 1 else 0)
  + (if bool_decide (n1.2 ≠ n2.2 ∧ n1.2 ≠ n2.1) then 1 else 0).

Definition brokenPairsDistanceSpec (data : ProblemData) (A B : t) : Z :=
  sumZ ((λ c, brokenContributionSpec (neighboursOf A c) (neighboursOf B c))
          <$> seq 1 (nbClients data)).

End Individual.

(** ** The OkSmall instance *)

(** Modelled from the spec: the instance file [data/OkSmall.txt] is not
    among the sources.  Four clients, three vehicles of capacity 10; the
    demands add up to 18; client 1 opens at 15600 and is served in 360;
    client 3 closes at 15300 (window [8400, 15300]); [dist(0,1) = 1544] and
    [dist(1,3) = 1427], as the tests and the spec state them.  The entries
    they do not state are those of the instance distributed with the
    solver. *)
Definition OkSmall : ProblemData :=
  {| nbClients := 4;
     nbVehicles := 3;
     vehicleCapacity := 10;
     clients :=
       [ mkClient 0 0 0 45000;
         mkClient 5 360 15600 22500;
         mkClient 5 360 12000 19500;
         mkClient 3 420 8400 15300;
         mkClient 5 360 12000 19500 ];
     distMatrix :=
       [ [0; 1544; 1944; 1931; 1476];
         [1726; 0; 1992; 1427; 1593];
         [1965; 1975; 0; 621; 1090];
         [2063; 1433; 647; 0; 818];
         [1475; 1594; 1090; 828; 0] ] |}.

(** The penalty multipliers used with the OkSmall scenarios. *)
Definition examplePenalties : PenaltyManager :=
  {| capacityPenalty := 20; timeWarpPenalty := 6 |}.

(** ** [size_t] arithmetic *)

Definition wrap (z : Z) : Z := z mod 2 ^ 64.

Definition szAdd (a b : Z) : Z := wrap (a + b).

Definition szSub (a b : Z) : Z := wrap (a - b).

(** ** [int] arithmetic *)

(** A C++ [int] has 32 bits.  [wrapInt] brings an integer into
    [−2^31, 2^31), as two's-complement arithmetic does; the sums and
    differences that [Exchange.h] forms on [int] values with [+], [-],
    [+=] and [-=] are written with it. *)
Definition wrapInt (z : Z) : Z := (z + 2 ^ 31) mod 2 ^ 32 - 2 ^ 31.

Definition intAdd (a b : Z) : Z := wrapInt (a + b).

Definition intSub (a b : Z) : Z := wrapInt (a - b).

(** ** Nodes and routes of the local search *)

(** A [Node *]: the node of a client, or one of the two depot sentinels of
    a route. *)
Inductive Node :=
| ClientNode (c : nat)
| StartDepot (r : nat)
| EndDepot (r : nat).

#[global] Instance Node_eq_dec : EqDecision Node.
Proof. solve_decision. Defined.

(** Modelled from the spec: [Node.h] and [Route.h] are not among the
    sources.  After every mutation the [position], [route], [prev] and
    [next] of every node agree with the actual sequence of its route.  The
    model keeps the actual sequences (one list of clients per route, the
    sentinels implicit) and reads the fields of a node off them. *)
Fixpoint indexOf (c : nat) (r : list nat) : option nat :=
  match r with
  | [] => None
  | x :: r' => if decide (x = c) then Some 0%nat else S <$> indexOf c r'
  end.

(** Route index and index within the route of the node of client [c]. *)
Fixpoint locate (s : list (list nat)) (c : nat) : option (nat * nat) :=
  match s with
  | [] => None
  | r :: s' =>
      match indexOf c r with
      | Some i => Some (0%nat, i)
      | None => prod_map S id <$> locate s' c
      end
  end.

Definition routeAt (s : list (list nat)) (ri : nat) : list nat :=
  default [] (s !! ri).

(** [node->client]; a sentinel has the depot's index. *)
Definition clientOf (node : Node) : nat :=
  match node with
  | ClientNode c => c
  | StartDepot _ | EndDepot _ => 0%nat
  end.

(** [node->isDepot()]. *)
Definition isDepot (node : Node) : bool := bool_decide (clientOf node = 0%nat).

(** [node->route], as the index of the route. *)
Definition route (s : list (list nat)) (node : Node) : nat :=
  match node with
  | ClientNode c =>
      match locate s c with
      | Some (ri, _) => ri
      | None => length s
      end
  | StartDepot r | EndDepot r => r
  end.

(** [node->position]: 1-based in the route, 0 for the start sentinel and
    [size() + 1] for the end sentinel. *)
Definition position (s : list (list nat)) (node : Node) : Z :=
  match node with
  | ClientNode c =>
      match locate s c with
      | Some (_, i) => wrap (Z.of_nat i + 1)
      | None => 0
      end
  | StartDepot _ => 0
  | EndDepot r => wrap (Z.of_nat (length (routeAt s r)) + 1)
  end.

(** [route->size()]: the number of client nodes. *)
Definition size (s : list (list nat)) (ri : nat) : Z :=
  wrap (Z.of_nat (length (routeAt s ri))).

(** [Route::operator[](pos)]: the node at a position, sentinels at [0]
    and [size() + 1]. *)
Definition nodeAt (s : list (list nat)) (ri : nat) (pos : Z) : Node :=
  if decide (pos = 0) then StartDepot ri
  else match routeAt s ri !! Z.to_nat (pos - 1) with
       | Some c => ClientNode c
       | None => EndDepot ri
       end.

(** [n(node)], the successor.  The spec does not say what follows the end
    sentinel; the model closes the route into a ring. *)
Definition n (s : list (list nat)) (node : Node) : Node :=
  match node with
  | EndDepot r => StartDepot r
  | _ => nodeAt s (route s node) (szAdd (position s node) 1)
  end.

(** [p(node)], the predecessor. *)
Definition p (s : list (list nat)) (node : Node) : Node :=
  match node with
  | StartDepot r => EndDepot r
  | _ => nodeAt s (route s node) (szSub (position s node) 1)
  end.

(** The clients at positions [i … j] of a sequence. *)
Definition segment (l : list nat) (i j : Z) : list nat :=
  take (Z.to_nat (j + 1 - i)) (drop (Z.to_nat i) l).

Section route_queries.
Context (data : ProblemData) (s : list (list nat)).

(** Modelled from the spec: [Route::distBetween(i, j)], the distance
    travelled from position [i] to position [j]. *)
Definition distBetween (ri : nat) (i j : Z) : Z :=
  distPath data (segment (routeNodes (routeAt s ri)) i j).

(** Modelled from the spec: [Route::loadBetween(i, j)], the demand of the
    nodes at positions [i … j]. *)
Definition loadBetween (ri : nat) (i j : Z) : Z :=
  demandSum data (segment (routeNodes (routeAt s ri)) i j).

(** Modelled from the spec: [Route::twBetween(i, j)], the time-window
    segment of the nodes at positions [i … j]. *)
Definition twBetween (ri : nat) (i j : Z) : TWS.t :=
  TWS.ofList data (segment (routeNodes (routeAt s ri)) i j).

Definition load (ri : nat) : Z := routeLoad data (routeAt s ri).

Definition timeWarp (ri : nat) : Z := routeTimeWarp data (routeAt s ri).

Definition hasExcessCapacity (ri : nat) : bool :=
  bool_decide (vehicleCapacity data < load ri).

Definition hasTimeWarp (ri : nat) : bool := bool_decide (0 < timeWarp ri).

Definition isFeasible (ri : nat) : bool :=
  negb (hasExcessCapacity ri) && negb (hasTimeWarp ri).

(** Modelled from the spec: [node->twBefore], the segment
    [depot … node]. *)
Definition twBefore (node : Node) : TWS.t :=
  twBetween (route s node) 0 (position s node).

(** Modelled from the spec: [node->twAfter], the segment
    [node … depot]. *)
Definition twAfter (node : Node) : TWS.t :=
  twBetween (route s node) (position s node) (szAdd (size s (route s node)) 1).

End route_queries.

(** ** Mutators *)

Definition swapVal (u v x : nat) : nat :=
  if decide (x = u) then v else if decide (x = v) then u else x.

Definition swapInRoute (u v : nat) (r : list nat) : list nat :=
  swapVal u v <$> r.

(** Modelled from the spec: [Node::swapWith(other)].  The two nodes
    exchange their places: links, route and position.  On the sequences,
    the client of each stands where the other's stood.  A sentinel is never
    swapped; the model leaves the routes as they are then. *)
Definition swapWith (s : list (list nat)) (U V : Node) : list (list nat) :=
  match U, V with
  | ClientNode u, ClientNode v => swapInRoute u v <$> s
  | _, _ => s
  end.

Definition removeClient (u : nat) (s : list (list nat)) : list (list nat) :=
  filter (λ x, x ≠ u) <$> s.

Definition insertBehind (u v : nat) (r : list nat) : list nat :=
  r ≫= (λ x, if decide (x = v) then [v; u] else [x]).

(** Modelled from the spec: [Node::insertAfter(other)].  The node leaves
    its place and is linked in directly behind [other], in [other]'s route.
    Nothing can be inserted behind an end sentinel, and a sentinel is never
    moved; the model leaves the routes as they are then. *)
Definition insertAfter (s : list (list nat)) (U other : Node) : list (list nat) :=
  match U with
  | ClientNode u =>
      match other with
      | ClientNode v =>
          if decide (u = v) then s
          else insertBehind u v <$> removeClient u s
      | StartDepot r => alter (cons u) r (removeClient u s)
      | EndDepot _ => s
      end
  | _ => s
  end.

(** ** The Exchange<N, M> operator *)

(** Which [return] statement of [evaluate] produced the value. *)
Inductive Exit :=
| Filtered       (* one of the pre-filters of [evaluate] *)
| ShortCircuit   (* an early [return deltaCost] of the move evaluation *)
| Complete.      (* the final [return deltaCost] of the move evaluation *)

#[global] Instance Exit_eq_dec : EqDecision Exit.
Proof. solve_decision. Defined.

Module Exchange.

Section Exchange.
Context (data : ProblemData) (pm : PenaltyManager).
Context (N M : nat).
Context (s : list (list nat)).

Definition containsDepot (node : Node) (segLength : nat) : bool :=
  if isDepot node then true
  else bool_decide
         (size s (route s node)
          < szSub (szAdd (position s node) (Z.of_nat segLength)) 1).

Definition overlap (U V : Node) : bool :=
  bool_decide (route s U = route s V)
  && bool_decide (position s U ≤ szSub (szAdd (position s V) (Z.of_nat M)) 1)
  && bool_decide (position s V ≤ szSub (szAdd (position s U) (Z.of_nat N)) 1).

Definition adjacent (U V : Node) : bool :=
  if decide (route s U ≠ route s V) then false
  else bool_decide (szAdd (position s U) (Z.of_nat N) = position s V)
       || bool_decide (szAdd (position s V) (Z.of_nat M) = position s U).

(** [evalRelocateMove]; the first component tells an early [return] from the
    final one, the second is the [int] returned. *)
Definition evalRelocateMove (U V : Node) : Exit * Z :=
  let endU :=
    if decide (N = 1%nat) then U
    else nodeAt s (route s U) (szSub (szAdd (position s U) (Z.of_nat N)) 1) in
  let posU := position s U in
  let posV := position s V in
  let current :=
    intAdd
      (distBetween data s (route s U) (szSub posU 1) (szAdd posU (Z.of_nat N)))
      (dist data (clientOf V) (clientOf (n s V))) in
  let proposed :=
    intAdd
      (intAdd
         (intAdd
            (dist data (clientOf V) (clientOf U))
            (distBetween data s (route s U) posU
                         (szSub (szAdd posU (Z.of_nat N)) 1)))
         (dist data (clientOf endU) (clientOf (n s V))))
      (dist data (clientOf (p s U)) (clientOf (n s endU))) in
  let deltaCost := intSub proposed current in
  if decide (route s U ≠ route s V) then
    if isFeasible data s (route s U) && bool_decide (0 ≤ deltaCost)
    then (ShortCircuit, deltaCost)
    else
      let uTWS := TWS.merge data (twBefore data s (p s U))
                                 (twAfter data s (n s endU)) in
      let deltaCost :=
        intAdd deltaCost (twPenalty pm (TWS.totalTimeWarp uTWS)) in
      let deltaCost :=
        intSub deltaCost (twPenalty pm (timeWarp data s (route s U))) in
      let loadDiff :=
        loadBetween data s (route s U) posU
                    (szSub (szAdd posU (Z.of_nat N)) 1) in
      let deltaCost :=
        intAdd deltaCost
          (loadPenalty data pm (intSub (load data s (route s U)) loadDiff)) in
      let deltaCost :=
        intSub deltaCost (loadPenalty data pm (load data s (route s U))) in
      if bool_decide (0 ≤ deltaCost) then (ShortCircuit, deltaCost)
      else
        let deltaCost :=
          intAdd deltaCost
            (loadPenalty data pm (intAdd (load data s (route s V)) loadDiff)) in
        let deltaCost :=
          intSub deltaCost (loadPenalty data pm (load data s (route s V))) in
        let vTWS :=
          TWS.mergeAll data (twBefore data s V)
            [ twBetween data s (route s U) posU
                        (szSub (szAdd posU (Z.of_nat N)) 1);
              twAfter data s (n s V) ] in
        let deltaCost :=
          intAdd deltaCost (twPenalty pm (TWS.totalTimeWarp vTWS)) in
        let deltaCost :=
          intSub deltaCost (twPenalty pm (timeWarp data s (route s V))) in
        (Complete, deltaCost)
  else
    let rt := route s U in
    if negb (hasTimeWarp data s rt) && bool_decide (0 ≤ deltaCost)
    then (ShortCircuit, deltaCost)
    else
      let deltaCost :=
        if bool_decide (posU < posV) then
          let tws :=
            TWS.mergeAll data (twBefore data s (p s U))
              [ twBetween data s rt (szAdd posU (Z.of_nat N)) posV;
                twBetween data s rt posU (szSub (szAdd posU (Z.of_nat N)) 1);
                twAfter data s (n s V) ] in
          intAdd deltaCost (twPenalty pm (TWS.totalTimeWarp tws))
        else
          let tws :=
            TWS.mergeAll data (twBefore data s V)
              [ twBetween data s rt posU (szSub (szAdd posU (Z.of_nat N)) 1);
                twBetween data s rt (szAdd posV 1) (szSub posU 1);
                twAfter data s (n s endU) ] in
          intAdd deltaCost (twPenalty pm (TWS.totalTimeWarp tws)) in
      let deltaCost := intSub deltaCost (twPenalty pm (timeWarp data s rt)) in
      (Complete, deltaCost).

(** [evalSwapMove], with the same convention. *)
Definition evalSwapMove (U V : Node) : Exit * Z :=
  let endU :=
    if decide (N = 1%nat) then U
    else nodeAt s (route s U) (szSub (szAdd (position s U) (Z.of_nat N)) 1) in
  let endV :=
    if decide (M = 1%nat) then V
    else nodeAt s (route s V) (szSub (szAdd (position s V) (Z.of_nat M)) 1) in
  let posU := position s U in
  let posV := position s V in
  let current :=
    intAdd
      (distBetween data s (route s U) (szSub posU 1) (szAdd posU (Z.of_nat N)))
      (distBetween data s (route s V) (szSub posV 1) (szAdd posV (Z.of_nat M)))
  in
  let proposed :=
    intAdd
      (intAdd
         (intAdd
            (intAdd
               (intAdd
                  (dist data (clientOf (p s U)) (clientOf V))
                  (distBetween data s (route s V) posV
                               (szSub (szAdd posV (Z.of_nat M)) 1)))
               (dist data (clientOf endV) (clientOf (n s endU))))
            (dist data (clientOf (p s V)) (clientOf U)))
         (distBetween data s (route s U) posU
                      (szSub (szAdd posU (Z.of_nat N)) 1)))
      (dist data (clientOf endU) (clientOf (n s endV))) in
  let deltaCost := intSub proposed current in
  if decide (route s U ≠ route s V) then
    if isFeasible data s (route s U) && isFeasible data s (route s V)
       && bool_decide (0 ≤ deltaCost)
    then (ShortCircuit, deltaCost)
    else
      let uTWS :=
        TWS.mergeAll data (twBefore data s (p s U))
          [ twBetween data s (route s V) posV
                      (szSub (szAdd posV (Z.of_nat M)) 1);
            twAfter data s (n s endU) ] in
      let deltaCost :=
        intAdd deltaCost (twPenalty pm (TWS.totalTimeWarp uTWS)) in
      let deltaCost :=
        intSub deltaCost (twPenalty pm (timeWarp data s (route s U))) in
      let vTWS :=
        TWS.mergeAll data (twBefore data s (p s V))
          [ twBetween data s (route s U) posU
                      (szSub (szAdd posU (Z.of_nat N)) 1);
            twAfter data s (n s endV) ] in
      let deltaCost :=
        intAdd deltaCost (twPenalty pm (TWS.totalTimeWarp vTWS)) in
      let deltaCost :=
        intSub deltaCost (twPenalty pm (timeWarp data s (route s V))) in
      let loadU :=
        loadBetween data s (route s U) posU
                    (szSub (szAdd posU (Z.of_nat N)) 1) in
      let loadV :=
        loadBetween data s (route s V) posV
                    (szSub (szAdd posV (Z.of_nat M)) 1) in
      let loadDiff := intSub loadU loadV in
      let deltaCost :=
        intAdd deltaCost
          (loadPenalty data pm (intSub (load data s (route s U)) loadDiff)) in
      let deltaCost :=
        intSub deltaCost (loadPenalty data pm (load data s (route s U))) in
      let deltaCost :=
        intAdd deltaCost
          (loadPenalty data pm (intAdd (load data s (route s V)) loadDiff)) in
      let deltaCost :=
        intSub deltaCost (loadPenalty data pm (load data s (route s V))) in
      (Complete, deltaCost)
  else
    let rt := route s U in
    if negb (hasTimeWarp data s rt) && bool_decide (0 ≤ deltaCost)
    then (ShortCircuit, deltaCost)
    else
      let deltaCost :=
        if bool_decide (posU < posV) then
          let tws :=
            TWS.mergeAll data (twBefore data s (p s U))
              [ twBetween data s rt posV (szSub (szAdd posV (Z.of_nat M)) 1);
                twBetween data s rt (szAdd posU (Z.of_nat N)) (szSub posV 1);
                twBetween data s rt posU (szSub (szAdd posU (Z.of_nat N)) 1);
                twAfter data s (n s endV) ] in
          intAdd deltaCost (twPenalty pm (TWS.totalTimeWarp tws))
        else
          let tws :=
            TWS.mergeAll data (twBefore data s (p s V))
              [ twBetween data s rt posU (szSub (szAdd posU (Z.of_nat N)) 1);
                twBetween data s rt (szAdd posV (Z.of_nat M)) (szSub posU 1);
                twBetween data s rt posV (szSub (szAdd posV (Z.of_nat M)) 1);
                twAfter data s (n s endU) ] in
          intAdd deltaCost (twPenalty pm (TWS.totalTimeWarp tws)) in
      let deltaCost :=
        intSub deltaCost (twPenalty pm (timeWarp data s (route s U))) in
      (Complete, deltaCost).

(** [evaluate], with the exit taken.  [if constexpr (M > 0)] and the like
    are ordinary tests on the template parameters. *)
Definition evaluateTrace (U V : Node) : Exit * Z :=
  if containsDepot U N || overlap U V then (Filtered, 0)
  else if bool_decide (0 < M)%nat && containsDepot V M then (Filtered, 0)
  else if decide (M = 0%nat) then
    if decide (U = n s V) then (Filtered, 0)
    else evalRelocateMove U V
  else
    if bool_decide (N = M) && bool_decide (clientOf V ≤ clientOf U)%nat
    then (Filtered, 0)
    else if adjacent U V then (Filtered, 0)
    else evalSwapMove U V.

(** [int evaluate(Node *U, Node *V)]. *)
Definition evaluate (U V : Node) : Z := (evaluateTrace U V).2.

End Exchange.

(** The two loops of [apply]. *)
Fixpoint insertLoop (count : nat) (s : list (list nat))
    (uToInsert insertUAfter : Node) : list (list nat) :=
  match count with
  | O => s
  | S count' =>
      let prev := p s uToInsert in
      let s' := insertAfter s uToInsert insertUAfter in
      insertLoop count' s' prev insertUAfter
  end.

Fixpoint swapLoop (count : nat) (s : list (list nat)) (U V : Node)
    : list (list nat) :=
  match count with
  | O => s
  | S count' =>
      let s' := swapWith s U V in
      swapLoop count' s' (n s' U) (n s' V)
  end.

(** [void apply(Node *U, Node *V)]: the routes after the move. *)
Definition apply (N M : nat) (s : list (list nat)) (U V : Node)
    : list (list nat) :=
  let uToInsert :=
    if decide (N = 1%nat) then U
    else nodeAt s (route s U) (szSub (szAdd (position s U) (Z.of_nat N)) 1) in
  let insertUAfter :=
    if decide (M = 0%nat) then V
    else nodeAt s (route s V) (szSub (szAdd (position s V) (Z.of_nat M)) 1) in
  let s1 := insertLoop (N - M) s uToInsert insertUAfter in
  swapLoop (N `min` M) s1 U V.

End Exchange.

(** ** Vocabulary of the proofs *)

(** The writes that [setNeighbours] performs for a route, in order: the
    client written to and the pair written. *)
Definition neighbourWrites (r : list nat) : list (nat * (nat * nat)) :=
  (λ idx, (Individual.routeClientAt r (S idx),
           (Individual.routeClientAt r idx,
            Individual.routeClientAt r (S (S idx))))) <$> seq 0 (length r).

Definition applyWrites (nb : list (nat * nat)) (ws : list (nat * (nat * nat)))
    : list (nat * nat) :=
  foldl (λ acc w, <[ w.1 := w.2 ]> acc) nb ws.

(** The sizes fit in [size_t]: the solution has so few client nodes that a
    position plus a segment length stays within [0, 2^64). *)
Definition fits (N : nat) (s : list (list nat)) : Prop :=
  Z.of_nat (length (mjoin s)) + Z.of_nat N + 1 < 2 ^ 64.

(** The pre-filters of [evaluate], as one test. *)
Definition prefiltered (N M : nat) (s : list (list nat)) (U V : Node) : bool :=
  Exchange.containsDepot s U N
  || Exchange.overlap N M s U V
  || (bool_decide (0 < M)%nat && Exchange.containsDepot s V M)
  || (bool_decide (M = 0%nat) && bool_decide (U = n s V))
  || (bool_decide (0 < M)%nat
      && ((bool_decide (N = M) && bool_decide (clientOf V ≤ clientOf U)%nat)
          || Exchange.adjacent N M s U V)).

(** A well-formed working solution: every client node is in one route, once,
    and no client node carries the depot's index. *)
Definition wfSol (s : list (list nat)) : Prop :=
  NoDup (mjoin s) ∧ 0%nat ∉ mjoin s.

(** The composition of the transpositions [(u₁ v₁), (u₂ v₂), …]. *)
Fixpoint swapAll (pairs : list (nat * nat)) (x : nat) : nat :=
  match pairs with
  | [] => x
  | (u, v) :: rest => swapAll rest (swapVal u v x)
  end.

(** The node belongs to the solution. *)
Definition nodeIn (s : list (list nat)) (node : Node) : Prop :=
  match node with
  | ClientNode c => c ∈ mjoin s
  | StartDepot r | EndDepot r => (r < length s)%nat
  end.

(** Renaming the clients of all routes. *)
Definition mapClients (f : nat → nat) (s : list (list nat)) : list (list nat) :=
  (λ r : list nat, f <$> r) <$> s.

(** First and last client of a block; the depot's index for an empty
    block. *)
Definition headD (l : list nat) : nat := default 0%nat (head l).

Definition lastD (l : list nat) : nat := default 0%nat (last l).

(** Taking a block of clients out of the routes, and linking a block in
    behind a node: what the insert loop of [apply] amounts to. *)
Definition removeAll (E : list nat) (s : list (list nat)) : list (list nat) :=
  filter (λ x, x ∉ E) <$> s.

Definition spliceAfter (v : nat) (E : list nat) (r : list nat) : list nat :=
  r ≫= (λ x, if decide (x = v) then v :: E else [x]).

Definition placeBehind (anchor : Node) (E : list nat) (s : list (list nat))
    : list (list nat) :=
  match anchor with
  | ClientNode v => spliceAfter v E <$> s
  | StartDepot r => alter (app E) r s
  | EndDepot _ => s
  end.

Definition moved (anchor : Node) (E : list nat) (s : list (list nat))
    : list (list nat) :=
  placeBehind anchor E (removeAll E s).

(** The anchor is a node of the solution other than the moved clients and
    other than an end sentinel. *)
Definition anchorOk (s : list (list nat)) (anchor : Node) (E : list nat) : Prop :=
  match anchor with
  | ClientNode v => (v ∈ mjoin s) ∧ (v ∉ E)
  | StartDepot r => (r < length s)%nat
  | EndDepot _ => False
  end.

(** What becomes of one route when the block [E] is moved behind client [v]
    and the clients are renamed by [f]. *)
Definition movedRoute (f : nat → nat) (v : nat) (E : list nat) (r : list nat)
    : list nat :=
  f <$> spliceAfter v E (filter (λ x, x ∉ E) r).

(** Distances and demands are not negative. *)
Definition nonnegData (data : ProblemData) : Prop :=
  Forall (Forall (λ d, 0 ≤ d)) (distMatrix data)
  ∧ Forall (λ c, 0 ≤ demand c) (clients data).

(** The total demand served by the routes. *)
Definition totalLoad (data : ProblemData) (s : list (list nat)) : Z :=
  sumZ (routeLoad data <$> s).

(** The bound under which no [int] operation of a move evaluation
    overflows: distances, demands and penalty multipliers are not negative,
    and the total load and the penalised costs of the routes before the move
    ([s]) and after it ([s']) are below [2^31]. *)
Definition intSafe (data : ProblemData) (pm : PenaltyManager)
    (s s' : list (list nat)) : Prop :=
  nonnegData data
  ∧ 0 ≤ capacityPenalty pm
  ∧ 0 ≤ timeWarpPenalty pm
  ∧ totalLoad data s < 2 ^ 31
  ∧ solutionCost data pm s < 2 ^ 31
  ∧ solutionCost data pm s' < 2 ^ 31.

(** An instance with two long arcs, [dist(2,1) = dist(1,3) = 1.1·10^9]; all
    other distances, the demands and the service times are 0, and every
    time window is [0, 2^31 − 1]. *)
Definition longArcs : ProblemData :=
  {| nbClients := 3;
     nbVehicles := 2;
     vehicleCapacity := 10;
     clients := replicate 4 (mkClient 0 0 0 2147483647);
     distMatrix :=
       [ [0; 0; 0; 0];
         [0; 0; 0; 1100000000];
         [0; 1100000000; 0; 0];
         [0; 0; 0; 0] ] |}.

(** * Part II: lemmas and theorems *)

(** ** Time-window segments: [merge] is associative *)

Section merge_facts.
Context (data : ProblemData).

Lemma merge_assoc (A B C : TWS.t) :
  TWS.merge data (TWS.merge data A B) C
  = TWS.merge data A (TWS.merge data B C).
Proof.
  destruct A as [fa la da wa ea sa], B as [fb lb db wb eb sb],
           C as [fc lc dc wc ec sc].
  unfold TWS.merge; simpl.
  generalize (dist data la fb) (dist data lb fc); intros x y.
  f_equal; lia.
Qed.

Lemma mergeAll_cons A B rest :
  TWS.mergeAll data A (B :: rest)
  = TWS.mergeAll data (TWS.merge data A B) rest.
Proof. reflexivity. Qed.

Lemma mergeAll_app A l1 l2 :
  TWS.mergeAll data A (l1 ++ l2)
  = TWS.mergeAll data (TWS.mergeAll data A l1) l2.
Proof. unfold TWS.mergeAll. apply foldl_app. Qed.

(** Merging a segment in front commutes with a left fold. *)
Lemma merge_mergeAll A B rest :
  TWS.merge data A (TWS.mergeAll data B rest)
  = TWS.mergeAll data (TWS.merge data A B) rest.
Proof.
  revert B. induction rest as [|C rest IH]; intros B; [done|].
  rewrite !mergeAll_cons, IH, merge_assoc. done.
Qed.

Lemma merge_eval acc q :
  TWS.merge data acc (TWS.eval data q)
  = TWS.mergeAll data acc (TWS.singleton data <$> TWS.leaves q).
Proof.
  revert acc. induction q as [c|l IHl r IHr]; intros acc; simpl; [done|].
  rewrite fmap_app, mergeAll_app, <- IHl, <- IHr, merge_assoc. done.
Qed.

Lemma leaves_nonempty q : TWS.leaves q ≠ [].
Proof.
  induction q as [c|l IHl r IHr]; simpl; [done|].
  intros [H _]%app_eq_nil. done.
Qed.

(** Every parenthesization evaluates to the left fold over its leaves. *)
Lemma eval_ofList q : TWS.eval data q = TWS.ofList data (TWS.leaves q).
Proof.
  induction q as [d|l IHl r IHr]; simpl; [done|].
  rewrite IHl, merge_eval.
  destruct (TWS.leaves l) as [|c rest] eqn:El.
  - by destruct (leaves_nonempty l).
  - simpl. by rewrite fmap_app, mergeAll_app.
Qed.

(** The segment of a concatenation is the merge of the segments. *)
Lemma ofList_app l1 l2 :
  l1 ≠ [] → l2 ≠ [] →
  TWS.ofList data (l1 ++ l2)
  = TWS.merge data (TWS.ofList data l1) (TWS.ofList data l2).
Proof.
  intros H1 H2. destruct l1 as [|a l1]; [done|]. destruct l2 as [|b l2]; [done|].
  simpl. rewrite merge_mergeAll, fmap_app, mergeAll_app, fmap_cons.
  by rewrite mergeAll_cons.
Qed.

Lemma merge_timeWarp_ge A B :
  TWS.timeWarp A + TWS.timeWarp B ≤ TWS.timeWarp (TWS.merge data A B).
Proof. unfold TWS.merge; simpl. lia. Qed.

Lemma mergeAll_timeWarp_nonneg A cs :
  0 ≤ TWS.timeWarp A →
  0 ≤ TWS.timeWarp (TWS.mergeAll data A (TWS.singleton data <$> cs)).
Proof.
  revert A. induction cs as [|c cs IH]; intros A HA; [done|].
  rewrite fmap_cons, mergeAll_cons. apply IH.
  pose proof (merge_timeWarp_ge A (TWS.singleton data c)). simpl in *. lia.
Qed.

Lemma ofList_timeWarp_nonneg cs : 0 ≤ TWS.timeWarp (TWS.ofList data cs).
Proof.
  destruct cs as [|c cs]; [done|]. simpl.
  by apply mergeAll_timeWarp_nonneg.
Qed.

Lemma routeTimeWarp_nonneg r : 0 ≤ routeTimeWarp data r.
Proof. apply ofList_timeWarp_nonneg. Qed.

End merge_facts.

(** C2: [merge] over singleton segments is associative: two
    parenthesizations of the same client sequence evaluate to the same
    segment, so that indices, duration, time warp, earliest and latest start
    agree, and with them [totalTimeWarp]. *)
Theorem merge_parenthesization_irrelevant (data : ProblemData) (q1 q2 : TWS.paren) :
  TWS.leaves q1 = TWS.leaves q2 →
  TWS.eval data q1 = TWS.eval data q2
  ∧ TWS.duration (TWS.eval data q1) = TWS.duration (TWS.eval data q2)
  ∧ TWS.timeWarp (TWS.eval data q1) = TWS.timeWarp (TWS.eval data q2)
  ∧ TWS.earliestStart (TWS.eval data q1) = TWS.earliestStart (TWS.eval data q2)
  ∧ TWS.latestStart (TWS.eval data q1) = TWS.latestStart (TWS.eval data q2)
  ∧ TWS.totalTimeWarp (TWS.eval data q1) = TWS.totalTimeWarp (TWS.eval data q2).
Proof.
  intros Hl.
  assert (TWS.eval data q1 = TWS.eval data q2) as ->.
  { by rewrite !eval_ofList, Hl. }
  done.
Qed.

Lemma merge_parenthesization_witness :
  let q1 := TWS.Merge (TWS.Merge (TWS.Leaf 1) (TWS.Leaf 3))
                      (TWS.Merge (TWS.Leaf 2) (TWS.Leaf 4)) in
  let q2 := TWS.Merge (TWS.Leaf 1)
                      (TWS.Merge (TWS.Merge (TWS.Leaf 3) (TWS.Leaf 2)) (TWS.Leaf 4)) in
  TWS.leaves q1 = TWS.leaves q2
  ∧ TWS.eval OkSmall q1 = TWS.eval OkSmall q2.
Proof.
  intros q1 q2. split; [reflexivity|].
  apply (merge_parenthesization_irrelevant OkSmall q1 q2). reflexivity.
Defined.

(** ** Individual: cost *)

Lemma sumZ_app (xs ys : list Z) : sumZ (xs ++ ys) = sumZ xs + sumZ ys.
Proof. induction xs as [|x xs IH]; simpl; lia. Qed.

Lemma sumZ_nonneg (xs : list Z) : Forall (λ x, 0 ≤ x) xs → 0 ≤ sumZ xs.
Proof. induction 1; simpl; lia. Qed.

Lemma sumZ_max_nonneg {A} (f : A → Z) (l : list A) :
  0 ≤ sumZ ((λ x, Z.max (f x) 0) <$> l).
Proof. apply sumZ_nonneg, Forall_fmap, Forall_forall. intros; simpl; lia. Qed.

Lemma sumZ_routeTimeWarp_nonneg data (routes : list (list nat)) :
  0 ≤ sumZ (routeTimeWarp data <$> routes).
Proof.
  apply sumZ_nonneg, Forall_fmap, Forall_forall. intros r _.
  apply routeTimeWarp_nonneg.
Qed.

(** The cost of an Individual is the sum of the penalised costs of its
    routes. *)
Lemma cost_solutionCost data pm (routes : list (list nat)) :
  Individual.cost pm (Individual.evaluateCompleteCost data routes)
  = solutionCost data pm routes.
Proof.
  unfold Individual.cost, solutionCost; cbn [Individual.distance
    Individual.excessLoad Individual.timeWarp Individual.evaluateCompleteCost].
  induction routes as [|r routes IH]; [cbn; lia|].
  rewrite !fmap_cons. cbn [sumZ].
  unfold routeCost at 1, loadPenalty, twPenalty. lia.
Qed.

Lemma make_inr data routes ind :
  Individual.make data routes = inr ind →
  Individual.validRoutes data routes = true
  ∧ ind = Individual.evaluateCompleteCost data
            (Individual.sortByEmpty (take (nbVehicles data) routes)).
Proof.
  unfold Individual.make.
  destruct (Individual.validRoutes data routes); naive_solver.
Qed.

(** C3: the penalised cost of an Individual is its distance plus the
    capacity multiplier times the excess load plus the time-warp multiplier
    times the time warp, the excess load being the sum over the routes of
    [max (load − capacity) 0] and the time warp the sum of the routes' time
    warps; a feasible Individual costs its distance; and on OkSmall the
    first route of [[1,3],[2,4],[]] has time warp
    [15600 + 360 + dist(1,3) − 15300], which is the Individual's time
    warp. *)
Theorem individual_cost_formula data pm routes ind :
  Individual.make data routes = inr ind →
  Individual.cost pm ind
  = Individual.distance ind
    + capacityPenalty pm * Individual.excessLoad ind
    + timeWarpPenalty pm * Individual.timeWarp ind
  ∧ Individual.distance ind
    = sumZ (routeDistance data <$> Individual.getRoutes ind)
  ∧ Individual.excessLoad ind
    = sumZ ((λ r, Z.max (routeLoad data r - vehicleCapacity data) 0)
              <$> Individual.getRoutes ind)
  ∧ Individual.timeWarp ind
    = sumZ (routeTimeWarp data <$> Individual.getRoutes ind)
  ∧ (Individual.isFeasible ind = true →
     Individual.cost pm ind
     = sumZ (routeDistance data <$> Individual.getRoutes ind))
  ∧ ∃ ind0,
      Individual.make OkSmall [[1; 3]; [2; 4]; []]%nat = inr ind0
      ∧ routeTimeWarp OkSmall <$> Individual.getRoutes ind0
        = [15600 + 360 + dist OkSmall 1 3 - 15300; 0; 0]
      ∧ Individual.timeWarp ind0 = 15600 + 360 + dist OkSmall 1 3 - 15300
      ∧ Individual.cost pm ind0
        = distPath OkSmall [0; 1; 3; 0]%nat + distPath OkSmall [0; 2; 4; 0]%nat
          + timeWarpPenalty pm * (15600 + 360 + dist OkSmall 1 3 - 15300).
Proof.
  intros [_ ->]%make_inr.
  set (rs := Individual.sortByEmpty (take (nbVehicles data) routes)).
  repeat split; try reflexivity.
  - unfold Individual.isFeasible, Individual.hasExcessCapacity,
      Individual.hasTimeWarp.
    intros Hf. apply negb_true_iff, orb_false_iff in Hf as [He Ht].
    apply bool_decide_eq_false in He, Ht.
    unfold Individual.cost, Individual.getRoutes.
    cbn [Individual.distance Individual.excessLoad Individual.timeWarp
         Individual.routes_ Individual.evaluateCompleteCost] in *.
    pose proof (sumZ_max_nonneg
      (λ r, routeLoad data r - vehicleCapacity data) rs) as H1.
    pose proof (sumZ_routeTimeWarp_nonneg data rs) as H2.
    simpl in H1.
    replace (sumZ ((λ r, Z.max (routeLoad data r - vehicleCapacity data) 0)
                     <$> rs)) with 0 by lia.
    replace (sumZ (routeTimeWarp data <$> rs)) with 0 by lia.
    lia.
  - eexists. split; [reflexivity|].
    split; [vm_compute; reflexivity|].
    split; [vm_compute; reflexivity|].
    unfold Individual.cost.
    cbn [Individual.distance Individual.excessLoad Individual.timeWarp
         Individual.evaluateCompleteCost].
    set (d := sumZ (routeDistance _ <$> _)). vm_compute in d. subst d.
    set (e := sumZ (_ <$> _)). vm_compute in e. subst e.
    set (t := sumZ (_ <$> _)). vm_compute in t. subst t.
    set (x := distPath _ _). vm_compute in x. subst x.
    set (x := distPath _ _). vm_compute in x. subst x.
    set (x := dist _ _ _). vm_compute in x. subst x.
    lia.
Qed.

Lemma individual_cost_formula_witness :
  ∃ ind,
    Individual.make OkSmall [[1; 2]; [3]; [4]]%nat = inr ind
    ∧ Individual.isFeasible ind = true
    ∧ Individual.cost examplePenalties ind
      = distPath OkSmall [0; 1; 2; 0]%nat + distPath OkSmall [0; 3; 0]%nat
        + distPath OkSmall [0; 4; 0]%nat.
Proof.
  eexists. split; [reflexivity|]. split; [reflexivity|].
  destruct (individual_cost_formula OkSmall examplePenalties
              [[1; 2]; [3]; [4]]%nat _ eq_refl) as (_ & _ & _ & _ & Hf & _).
  rewrite (Hf eq_refl). reflexivity.
Defined.

(** ** Individual: validation of the routes *)

(** C5: on OkSmall, with three vehicles, the two routes [[1,2],[4,2]] are
    rejected with invalid-routes and [[1,2],[4,2],[]] is accepted. *)
Theorem OkSmall_two_routes_rejected :
  nbVehicles OkSmall = 3%nat
  ∧ Individual.make OkSmall [[1; 2]; [4; 2]]%nat = inl Individual.InvalidRoutes
  ∧ ∃ ind, Individual.make OkSmall [[1; 2]; [4; 2]; []]%nat = inr ind
           ∧ Individual.getRoutes ind = [[1; 2]; [4; 2]; []]%nat.
Proof. split; [done|]. split; [done|]. eexists. split; reflexivity. Qed.

(** ** Individual: the neighbour map *)

Lemma routeClientAt_0 r : Individual.routeClientAt r 0 = 0%nat.
Proof. reflexivity. Qed.

Lemma routeClientAt_S r idx c :
  r !! idx = Some c → Individual.routeClientAt r (S idx) = c.
Proof.
  intros H. unfold Individual.routeClientAt, routeNodes. simpl.
  by rewrite (lookup_app_l_Some _ _ _ _ H).
Qed.

Lemma routeClientAt_end r :
  Individual.routeClientAt r (S (length r)) = 0%nat.
Proof.
  unfold Individual.routeClientAt, routeNodes. simpl.
  rewrite lookup_app_r by lia. by rewrite Nat.sub_diag.
Qed.

Lemma neighbourWrites_keys r : (neighbourWrites r).*1 = r.
Proof.
  apply list_eq; intros i. unfold neighbourWrites.
  rewrite !list_lookup_fmap.
  destruct (r !! i) as [c|] eqn:Hi.
  - rewrite lookup_seq_lt by (by eapply lookup_lt_Some). simpl.
    by rewrite (routeClientAt_S _ _ _ Hi).
  - rewrite lookup_seq_ge; [done|]. by apply lookup_ge_None.
Qed.

Lemma setNeighbours_writes r nb :
  Individual.setNeighbours r nb = applyWrites nb (neighbourWrites r).
Proof.
  unfold Individual.setNeighbours, applyWrites, neighbourWrites.
  by rewrite foldl_fmap.
Qed.

Lemma applyWrites_app nb ws1 ws2 :
  applyWrites nb (ws1 ++ ws2) = applyWrites (applyWrites nb ws1) ws2.
Proof. apply foldl_app. Qed.

Lemma foldl_setNeighbours_writes routes nb :
  foldl (λ acc r, Individual.setNeighbours r acc) nb routes
  = applyWrites nb (routes ≫= neighbourWrites).
Proof.
  revert nb. induction routes as [|r routes IH]; intros nb; [done|].
  rewrite bind_cons, applyWrites_app. simpl.
  by rewrite IH, setNeighbours_writes.
Qed.

Lemma bind_neighbourWrites_keys (routes : list (list nat)) :
  (routes ≫= neighbourWrites).*1 = mjoin routes.
Proof.
  induction routes as [|r routes IH]; [done|].
  rewrite bind_cons, fmap_app, neighbourWrites_keys, IH. done.
Qed.

Lemma applyWrites_length nb ws : length (applyWrites nb ws) = length nb.
Proof.
  revert nb. induction ws as [|w ws IH]; intros nb; [done|].
  simpl. unfold applyWrites in IH. by rewrite IH, length_insert.
Qed.

Lemma applyWrites_lookup_other nb ws k :
  k ∉ ws.*1 → applyWrites nb ws !! k = nb !! k.
Proof.
  revert nb. induction ws as [|w ws IH]; intros nb Hk; [done|].
  rewrite fmap_cons, not_elem_of_cons in Hk. destruct Hk as [Hne Hk].
  simpl. unfold applyWrites in IH. rewrite IH by done.
  by apply list_lookup_insert_ne.
Qed.

(** With pairwise distinct keys the last word on a key is its own write. *)
Lemma applyWrites_lookup nb ws k v :
  NoDup ws.*1 → (k, v) ∈ ws → (k < length nb)%nat →
  applyWrites nb ws !! k = Some v.
Proof.
  revert nb. induction ws as [|w ws IH]; intros nb Hnd Hin Hlt.
  - by apply elem_of_nil in Hin.
  - rewrite fmap_cons in Hnd. apply NoDup_cons in Hnd as [Hnotin Hnd].
    apply elem_of_cons in Hin as [<-|Hin].
    + change (applyWrites (<[k:=v]> nb) ws !! k = Some v).
      rewrite applyWrites_lookup_other by done.
      by apply list_lookup_insert_eq.
    + change (applyWrites (<[w.1:=w.2]> nb) ws !! k = Some v).
      apply IH; [done|done|]. by rewrite length_insert.
Qed.

Lemma sortByEmpty_perm (routes : list (list nat)) :
  Individual.sortByEmpty routes ≡ₚ routes.
Proof.
  unfold Individual.sortByEmpty.
  induction routes as [|r routes IH]; [done|].
  destruct r as [|c r].
  - rewrite (filter_cons_False _ []) by done.
    rewrite (filter_cons_True _ []) by done.
    rewrite <- Permutation_middle. by constructor.
  - rewrite (filter_cons_True _ (c :: r)) by done.
    rewrite (filter_cons_False _ (c :: r)) by done.
    simpl. by constructor.
Qed.

Lemma neighbourWrites_elem r k :
  (1 ≤ k ≤ length r)%nat →
  (Individual.routeClientAt r k,
   (Individual.routeClientAt r (k - 1), Individual.routeClientAt r (k + 1)))
  ∈ neighbourWrites r.
Proof.
  intros Hk. unfold neighbourWrites.
  apply list_elem_of_fmap. exists (k - 1)%nat. split.
  - replace (S (k - 1)) with k by lia. replace (k + 1)%nat with (S k) by lia.
    done.
  - apply elem_of_seq. lia.
Qed.

(** C8: in an Individual built from valid routes (no client listed twice,
    all clients in [1 … n]) the neighbour map is consistent: the client at
    position [k] of a route has as neighbours the clients at positions
    [k − 1] and [k + 1], the depot 0 standing at both ends, and the depot's
    own entry is [(0, 0)]; the routes [[3,4],[],[1,2]] on OkSmall give
    [(0,0), (0,2), (1,0), (0,4), (3,0)]. *)
Theorem neighbours_consistent data routes ind :
  Individual.make data routes = inr ind →
  NoDup (mjoin routes) →
  (∀ c, c ∈ mjoin routes → (1 ≤ c ≤ nbClients data)%nat) →
  (∀ r k, r ∈ Individual.getRoutes ind → (1 ≤ k ≤ length r)%nat →
     Individual.getNeighbours ind !! Individual.routeClientAt r k
     = Some (Individual.routeClientAt r (k - 1),
             Individual.routeClientAt r (k + 1)))
  ∧ Individual.getNeighbours ind !! 0%nat = Some (0%nat, 0%nat)
  ∧ ∃ ind0,
      Individual.make OkSmall [[3; 4]; []; [1; 2]]%nat = inr ind0
      ∧ Individual.getNeighbours ind0
        = [(0, 0); (0, 2); (1, 0); (0, 4); (3, 0)]%nat.
Proof.
  intros [_ ->]%make_inr Hnd0 Hrange0.
  assert (mjoin routes
          = mjoin (take (nbVehicles data) routes)
            ++ mjoin (drop (nbVehicles data) routes)) as Hsplit.
  { by rewrite <- join_app, take_drop. }
  rewrite Hsplit in Hnd0. apply NoDup_app in Hnd0 as (Hnd & _ & _).
  assert (∀ c, c ∈ mjoin (take (nbVehicles data) routes) →
               (1 ≤ c ≤ nbClients data)%nat) as Hrange.
  { intros c Hc. apply Hrange0. rewrite Hsplit. apply elem_of_app. by left. }
  clear Hsplit Hrange0. revert Hnd Hrange.
  generalize (take (nbVehicles data) routes). clear routes.
  intros routes Hnd Hrange.
  unfold Individual.getNeighbours, Individual.getRoutes; simpl.
  unfold Individual.makeNeighbours. rewrite foldl_setNeighbours_writes.
  pose proof (sortByEmpty_perm routes) as Hperm.
  assert (mjoin (Individual.sortByEmpty routes) ≡ₚ mjoin routes) as Hj
    by (by rewrite Hperm).
  split; [|split].
  - intros r k Hr Hk.
    assert (Individual.routeClientAt r k ∈ mjoin routes) as Hc.
    { rewrite <- Hj. apply list_elem_of_join. exists r. split; [|done].
      destruct (lookup_lt_is_Some_2 r (k - 1)) as [c Hc]; [lia|].
      replace k with (S (k - 1)) by lia.
      rewrite (routeClientAt_S _ _ _ Hc). by eapply list_elem_of_lookup_2. }
    apply applyWrites_lookup.
    + rewrite bind_neighbourWrites_keys. by rewrite Hj.
    + apply list_elem_of_bind. exists r. split; [|done].
      by apply neighbourWrites_elem.
    + rewrite length_replicate. apply Hrange in Hc. lia.
  - rewrite applyWrites_lookup_other; [done|].
    rewrite bind_neighbourWrites_keys, Hj. intros H0%Hrange. lia.
  - eexists. split; reflexivity.
Qed.

Lemma neighbours_consistent_witness :
  ∃ ind,
    Individual.make OkSmall [[3; 4]; []; [1; 2]]%nat = inr ind
    ∧ Individual.getNeighbours ind !! 4%nat = Some (3%nat, 0%nat).
Proof.
  eexists. split; [reflexivity|].
  assert (NoDup (mjoin [[3; 4]; []; [1; 2]]%nat)) as Hnd.
  { apply (bool_decide_unpack (NoDup _)). vm_compute. exact I. }
  destruct (neighbours_consistent OkSmall [[3; 4]; []; [1; 2]]%nat _ eq_refl Hnd)
    as [H _].
  - apply Forall_forall. repeat constructor; simpl; lia.
  - apply (H [3; 4]%nat 2%nat); [repeat constructor | simpl; lia].
Defined.
(** ** Individual: broken-pairs distance *)

(** The spec's contribution per client does not give the values that the
    test [brokenPairsDistance] expects.  For the three Individuals of the
    test, [[1,2,3,4],[],[]], [[1,2],[3],[4]] and [[3],[4,1,2],[]] on
    OkSmall, it gives 4 and 3, 5 and 5, 1 and 2, where the test expects 2
    and 2, 3 and 3, 1 and 1. *)
Lemma brokenPairsDistanceSpec_test_inputs :
  ∃ I1 I2 I3,
    Individual.make OkSmall [[1; 2; 3; 4]; []; []]%nat = inr I1
    ∧ Individual.make OkSmall [[1; 2]; [3]; [4]]%nat = inr I2
    ∧ Individual.make OkSmall [[3]; [4; 1; 2]; []]%nat = inr I3
    ∧ Individual.brokenPairsDistanceSpec OkSmall I1 I2 = 4
    ∧ Individual.brokenPairsDistanceSpec OkSmall I2 I1 = 3
    ∧ Individual.brokenPairsDistanceSpec OkSmall I1 I3 = 5
    ∧ Individual.brokenPairsDistanceSpec OkSmall I3 I1 = 5
    ∧ Individual.brokenPairsDistanceSpec OkSmall I2 I3 = 1
    ∧ Individual.brokenPairsDistanceSpec OkSmall I3 I2 = 2.
Proof. do 3 eexists. repeat split; reflexivity. Qed.

(** ** [size_t] arithmetic *)

Lemma wrap_small z : 0 ≤ z < 2 ^ 64 → wrap z = z.
Proof. intros. unfold wrap. by apply Z.mod_small. Qed.

Lemma wrap_range z : 0 ≤ wrap z < 2 ^ 64.
Proof. unfold wrap. apply Z.mod_pos_bound. lia. Qed.

Lemma szAdd_small a b : 0 ≤ a + b < 2 ^ 64 → szAdd a b = a + b.
Proof. apply wrap_small. Qed.

Lemma szSub_small a b : 0 ≤ a - b < 2 ^ 64 → szSub a b = a - b.
Proof. apply wrap_small. Qed.

Lemma szSub_0_1 : szSub (szAdd 0 0) 1 = 2 ^ 64 - 1.
Proof. reflexivity. Qed.

(** ** Reading the fields of a node *)

Lemma indexOf_Some c r i : indexOf c r = Some i → r !! i = Some c.
Proof.
  revert i. induction r as [|x r IH]; intros i; simpl; [done|].
  case_decide as Hx.
  - intros [= <-]. by rewrite Hx.
  - destruct (indexOf c r) as [j|]; simpl; [|done].
    intros [= <-]. by apply IH.
Qed.

Lemma indexOf_None c r : indexOf c r = None → c ∉ r.
Proof.
  induction r as [|x r IH]; simpl; [intros _; apply not_elem_of_nil|].
  case_decide as Hx; [done|].
  destruct (indexOf c r) as [j|]; simpl; [done|].
  intros _. apply not_elem_of_cons. split; [done|by apply IH].
Qed.

Lemma locate_Some s c ri i :
  locate s c = Some (ri, i) → ∃ r, s !! ri = Some r ∧ r !! i = Some c.
Proof.
  revert ri. induction s as [|r s IH]; intros ri; simpl; [done|].
  destruct (indexOf c r) as [j|] eqn:Hj.
  - intros [= <- <-]. exists r. split; [done|by apply indexOf_Some].
  - destruct (locate s c) as [[rj j]|]; simpl; [|done].
    intros [= <- <-]. by apply IH.
Qed.

Lemma locate_None s c : locate s c = None → c ∉ mjoin s.
Proof.
  induction s as [|r s IH]; simpl; [intros _; apply not_elem_of_nil|].
  destruct (indexOf c r) as [j|] eqn:Hj; [done|].
  destruct (locate s c) as [[rj j]|]; simpl; [done|].
  intros _. apply not_elem_of_app. split; [by apply indexOf_None|by apply IH].
Qed.

Lemma position_range s node : 0 ≤ position s node < 2 ^ 64.
Proof.
  destruct node as [c|r|r]; simpl.
  - destruct (locate s c) as [[ri i]|]; [apply wrap_range|lia].
  - lia.
  - apply wrap_range.
Qed.

Lemma length_lookup_join (s : list (list nat)) ri r :
  s !! ri = Some r → (length r ≤ length (mjoin s))%nat.
Proof.
  revert ri. induction s as [|r0 s IH]; intros ri Hr; [done|].
  change (mjoin (r0 :: s)) with (r0 ++ mjoin s). rewrite length_app.
  destruct ri as [|ri]; simpl in Hr.
  - injection Hr as ->. lia.
  - specialize (IH ri Hr). lia.
Qed.

Lemma fits_routeAt N s ri :
  fits N s → Z.of_nat (length (routeAt s ri)) + Z.of_nat N + 1 < 2 ^ 64.
Proof.
  unfold fits. intros Hf. unfold routeAt.
  destruct (s !! ri) as [r|] eqn:Hr; simpl; [|lia].
  pose proof (length_lookup_join s ri r Hr). lia.
Qed.

Lemma size_fits N s ri : fits N s → size s ri = Z.of_nat (length (routeAt s ri)).
Proof.
  intros Hf. pose proof (fits_routeAt N s ri Hf).
  unfold size. apply wrap_small. lia.
Qed.

(** Under [fits], the position of a node is at most one past the size of
    its route. *)
Lemma position_le_size N s node :
  fits N s → position s node ≤ Z.of_nat (length (routeAt s (route s node))) + 1.
Proof.
  intros Hf. destruct node as [c|r|r]; simpl.
  - destruct (locate s c) as [[ri i]|] eqn:Hl; [|lia].
    apply locate_Some in Hl as (r & Hr & Hi).
    pose proof (fits_routeAt N s ri Hf) as Hfit.
    unfold routeAt in *. rewrite Hr in *. simpl in *.
    apply lookup_lt_Some in Hi. rewrite wrap_small; lia.
  - lia.
  - pose proof (fits_routeAt N s r Hf). rewrite wrap_small; lia.
Qed.

(** ** The pre-filters of [evaluate] *)

Section filters.
Context (data : ProblemData) (pm : PenaltyManager) (N M : nat).
Context (s : list (list nat)).

Lemma evalRelocateMove_not_filtered U V :
  (Exchange.evalRelocateMove data pm N s U V).1 ≠ Filtered.
Proof.
  unfold Exchange.evalRelocateMove.
  repeat (case_decide || case_match); simpl; done.
Qed.

Lemma evalSwapMove_not_filtered U V :
  (Exchange.evalSwapMove data pm N M s U V).1 ≠ Filtered.
Proof.
  unfold Exchange.evalSwapMove.
  repeat (case_decide || case_match); simpl; done.
Qed.

(** [evaluate] leaves through a pre-filter exactly when [prefiltered]
    holds, and then returns 0. *)
Lemma evaluateTrace_prefiltered U V :
  prefiltered N M s U V = true →
  Exchange.evaluateTrace data pm N M s U V = (Filtered, 0).
Proof.
  unfold prefiltered, Exchange.evaluateTrace. intros H.
  destruct (Exchange.containsDepot s U N || Exchange.overlap N M s U V);
    [done|].
  destruct (bool_decide (0 < M)%nat && Exchange.containsDepot s V M) eqn:E2;
    [done|].
  simpl in H.
  destruct (decide (M = 0%nat)) as [HM|HM].
  - rewrite (bool_decide_eq_true_2 _ HM) in H.
    rewrite (bool_decide_eq_false_2 (0 < M)%nat) in H by lia.
    simpl in H. rewrite orb_false_r in H. apply bool_decide_eq_true in H.
    by rewrite decide_True.
  - rewrite (bool_decide_eq_false_2 _ HM) in H.
    rewrite (bool_decide_eq_true_2 (0 < M)%nat) in H by lia.
    simpl in H.
    destruct (bool_decide (N = M) && bool_decide (clientOf V ≤ clientOf U)%nat);
      [done|].
    simpl in H. by rewrite H.
Qed.
Lemma evaluateTrace_not_prefiltered U V :
  prefiltered N M s U V = false →
  Exchange.evaluateTrace data pm N M s U V
  = if decide (M = 0%nat) then Exchange.evalRelocateMove data pm N s U V
    else Exchange.evalSwapMove data pm N M s U V.
Proof.
  unfold prefiltered, Exchange.evaluateTrace. intros H.
  apply orb_false_iff in H as [H H5]. apply orb_false_iff in H as [H H4].
  apply orb_false_iff in H as [H H3].
  rewrite H, H3.
  destruct (decide (M = 0%nat)) as [HM|HM].
  - rewrite (bool_decide_eq_true_2 _ HM) in H4. simpl in H4.
    apply bool_decide_eq_false in H4. by rewrite decide_False.
  - rewrite (bool_decide_eq_true_2 (0 < M)%nat) in H5 by lia. simpl in H5.
    apply orb_false_iff in H5 as [-> ->]. done.
Qed.
End filters.

(** ** What the pre-filters catch *)

Lemma segment_end_fits N K s node :
  fits N s → (1 ≤ K ≤ N)%nat →
  szSub (szAdd (position s node) (Z.of_nat K)) 1
  = position s node + Z.of_nat K - 1.
Proof.
  intros Hf HK.
  pose proof (position_le_size N s node Hf).
  pose proof (fits_routeAt N s (route s node) Hf).
  pose proof (position_range s node).
  rewrite szAdd_small by lia. rewrite szSub_small by lia. done.
Qed.

Lemma szAdd_fits N K s node :
  fits N s → (K ≤ N)%nat →
  szAdd (position s node) (Z.of_nat K) = position s node + Z.of_nat K.
Proof.
  intros Hf HK.
  pose proof (position_le_size N s node Hf).
  pose proof (fits_routeAt N s (route s node) Hf).
  pose proof (position_range s node).
  rewrite szAdd_small by lia. done.
Qed.

(** C6: [evaluate] returns 0, through a pre-filter, whenever U's segment
    contains a depot sentinel, or (for M > 0) V's does, or the two segments
    overlap in one route (the positions compared as integers), or M = 0 and
    U is the successor of V, or M > 0 and the segments are adjacent in one
    route, or N = M and U's client is not below V's. *)
Theorem evaluate_prefilters data pm (N M : nat) s U V :
  (0 < N)%nat → (M ≤ N)%nat → fits N s →
  isDepot U = true
  ∨ size s (route s U) < position s U + Z.of_nat N - 1
  ∨ ((0 < M)%nat
     ∧ (isDepot V = true
        ∨ size s (route s V) < position s V + Z.of_nat M - 1))
  ∨ (route s U = route s V
     ∧ position s U ≤ position s V + Z.of_nat M - 1
     ∧ position s V ≤ position s U + Z.of_nat N - 1)
  ∨ (M = 0%nat ∧ U = n s V)
  ∨ ((0 < M)%nat ∧ route s U = route s V
     ∧ (position s U + Z.of_nat N = position s V
        ∨ position s V + Z.of_nat M = position s U))
  ∨ (N = M ∧ (clientOf V ≤ clientOf U)%nat) →
  Exchange.evaluate data pm N M s U V = 0
  ∧ Exchange.evaluateTrace data pm N M s U V = (Filtered, 0).
Proof.
  intros HN HM Hf Hcond.
  assert (prefiltered N M s U V = true) as Hp; [|
    unfold Exchange.evaluate;
    by rewrite (evaluateTrace_prefiltered data pm N M s U V Hp)].
  unfold prefiltered.
  pose proof (position_range s U) as HpU.
  pose proof (position_range s V) as HpV.
  destruct Hcond as [H|[H|[H|[H|[H|[H|H]]]]]].
  - unfold Exchange.containsDepot. by rewrite H.
  - unfold Exchange.containsDepot. destruct (isDepot U); [done|].
    rewrite (segment_end_fits N N) by (done || lia).
    by rewrite bool_decide_eq_true_2.
  - destruct H as [HM0 H].
    rewrite (bool_decide_eq_true_2 (0 < M)%nat) by done.
    assert (Exchange.containsDepot s V M = true) as ->.
    { unfold Exchange.containsDepot. destruct H as [->|H]; [done|].
      destruct (isDepot V); [done|].
      rewrite (segment_end_fits N M) by (done || lia).
      by rewrite bool_decide_eq_true_2. }
    simpl. by rewrite !orb_true_r.
  - destruct H as (Hr & H1 & H2).
    assert (Exchange.overlap N M s U V = true) as ->; [|by rewrite !orb_true_r].
    unfold Exchange.overlap.
    rewrite (bool_decide_eq_true_2 _ Hr).
    rewrite (segment_end_fits N N s U) by (done || lia).
    rewrite (szAdd_fits N M s V) by done.
    rewrite szSub_small.
    + rewrite !bool_decide_eq_true_2; [done|lia|lia].
    + pose proof (position_le_size N s V Hf).
      pose proof (fits_routeAt N s (route s V) Hf). lia.
  - destruct H as [-> ->].
    rewrite !(bool_decide_eq_true_2 (_ = _)) by done.
    simpl. by rewrite !orb_true_r.
  - destruct H as (HM0 & Hr & H).
    rewrite (bool_decide_eq_true_2 (0 < M)%nat) by done.
    assert (Exchange.adjacent N M s U V = true) as ->;
      [|simpl; by rewrite !orb_true_r].
    unfold Exchange.adjacent. rewrite decide_False by (by intros ?).
    rewrite (szAdd_fits N N s U), (szAdd_fits N M s V) by done.
    destruct H as [H|H].
    + by rewrite (bool_decide_eq_true_2 _ H).
    + rewrite (bool_decide_eq_true_2 _ H). by rewrite orb_true_r.
  - destruct H as [<- H].
    rewrite (bool_decide_eq_true_2 (0 < N)%nat) by done.
    rewrite (bool_decide_eq_true_2 (N = N)) by done.
    rewrite (bool_decide_eq_true_2 _ H). simpl. by rewrite !orb_true_r.
Qed.

Lemma evaluate_prefilters_witness :
  Exchange.evaluate OkSmall examplePenalties 1 1 [[1; 2]; [3]; [4]]%nat
    (ClientNode 2) (ClientNode 1) = 0.
Proof.
  apply (evaluate_prefilters OkSmall examplePenalties 1 1
           [[1; 2]; [3]; [4]]%nat (ClientNode 2) (ClientNode 1)).
  - lia.
  - lia.
  - unfold fits. simpl. lia.
  - do 6 right. split; [reflexivity|simpl; lia].
Defined.

(** C10: for a relocate operator (M = 0) and V the start sentinel of U's
    own route, the overlap test wraps around: [V.position + M − 1] is
    [2^64 − 1] in [size_t] arithmetic, [overlap] holds although over the
    integers U's position is not below [V.position + M − 1], and [evaluate]
    returns 0 through the pre-filter without evaluating the move. *)
Theorem relocate_to_front_filtered data pm (N : nat) s U V :
  route s U = route s V → position s V = 0 →
  szSub (szAdd (position s V) (Z.of_nat 0)) 1 = 2 ^ 64 - 1
  ∧ ¬ position s U ≤ position s V + Z.of_nat 0 - 1
  ∧ Exchange.overlap N 0 s U V = true
  ∧ Exchange.evaluateTrace data pm N 0 s U V = (Filtered, 0)
  ∧ Exchange.evaluate data pm N 0 s U V = 0.
Proof.
  intros Hr HV. pose proof (position_range s U) as HpU.
  split; [by rewrite HV|]. split; [lia|].
  assert (Exchange.overlap N 0 s U V = true) as Ho.
  { unfold Exchange.overlap. rewrite (bool_decide_eq_true_2 _ Hr).
    rewrite HV. change (szSub (szAdd 0 (Z.of_nat 0)) 1) with (2 ^ 64 - 1).
    rewrite bool_decide_eq_true_2 by lia.
    rewrite bool_decide_eq_true_2; [done|].
    apply wrap_range. }
  split; [done|].
  assert (Exchange.evaluateTrace data pm N 0 s U V = (Filtered, 0)) as Ht.
  { apply evaluateTrace_prefiltered. unfold prefiltered.
    rewrite Ho. by rewrite orb_true_r. }
  split; [done|]. unfold Exchange.evaluate. by rewrite Ht.
Qed.

Lemma relocate_to_front_filtered_witness :
  Exchange.evaluateTrace OkSmall examplePenalties 1 0 [[1; 2]; [3]; [4]]%nat
    (ClientNode 2) (StartDepot 0) = (Filtered, 0).
Proof.
  apply (relocate_to_front_filtered OkSmall examplePenalties 1
           [[1; 2]; [3]; [4]]%nat (ClientNode 2) (StartDepot 0));
    reflexivity.
Defined.

(** ** Locating a node *)

Lemma indexOf_lookup c r i :
  NoDup r → r !! i = Some c → indexOf c r = Some i.
Proof.
  revert i. induction r as [|x r IH]; intros i Hnd Hi; [done|].
  apply NoDup_cons in Hnd as [Hx Hnd]. simpl.
  destruct i as [|i]; simpl in Hi.
  - injection Hi as ->. by rewrite decide_True.
  - rewrite decide_False.
    + by rewrite (IH i Hnd Hi).
    + intros ->. apply Hx. by eapply list_elem_of_lookup_2.
Qed.

Lemma indexOf_notin c r : c ∉ r → indexOf c r = None.
Proof.
  induction r as [|x r IH]; [done|].
  intros [Hne Hc]%not_elem_of_cons. simpl.
  rewrite decide_False by done. by rewrite IH.
Qed.

Lemma locate_lookup s ri r i c :
  NoDup (mjoin s) → s !! ri = Some r → r !! i = Some c →
  locate s c = Some (ri, i).
Proof.
  revert ri. induction s as [|r0 s IH]; intros ri Hnd Hr Hi; [done|].
  simpl in Hnd. apply NoDup_app in Hnd as (Hnd0 & Hdisj & Hnds).
  destruct ri as [|ri]; simpl in Hr |- *.
  - injection Hr as ->. by rewrite (indexOf_lookup c r i).
  - rewrite indexOf_notin.
    + by rewrite (IH ri Hnds Hr Hi).
    + intros Hc. apply (Hdisj c Hc). apply list_elem_of_join.
      exists r. split; [by eapply list_elem_of_lookup_2|].
      by eapply list_elem_of_lookup_2.
Qed.

Lemma routeAt_lookup (s : list (list nat)) ri r :
  s !! ri = Some r → routeAt s ri = r.
Proof. intros H. unfold routeAt. by rewrite H. Qed.

Lemma fits_lookup N (s : list (list nat)) ri r :
  fits N s → s !! ri = Some r →
  Z.of_nat (length r) + Z.of_nat N + 1 < 2 ^ 64.
Proof.
  intros Hfit H. pose proof (fits_routeAt N s ri Hfit) as Hf.
  by rewrite (routeAt_lookup s ri r H) in Hf.
Qed.

Lemma route_client (s : list (list nat)) ri r i c :
  NoDup (mjoin s) → s !! ri = Some r → r !! i = Some c →
  route s (ClientNode c) = ri.
Proof. intros Hnd Hr Hi. simpl. by rewrite (locate_lookup s ri r i c). Qed.

Lemma position_client N (s : list (list nat)) ri r i c :
  fits N s → NoDup (mjoin s) → s !! ri = Some r → r !! i = Some c →
  position s (ClientNode c) = Z.of_nat i + 1.
Proof.
  intros Hfit Hnd Hr Hi. simpl. rewrite (locate_lookup s ri r i c) by done.
  pose proof (fits_lookup N s ri r Hfit Hr). apply lookup_lt_Some in Hi.
  apply wrap_small. lia.
Qed.

Lemma size_lookup N (s : list (list nat)) ri r :
  fits N s → s !! ri = Some r → size s ri = Z.of_nat (length r).
Proof.
  intros Hfit Hr. rewrite (size_fits N) by done.
  by rewrite (routeAt_lookup s ri r).
Qed.

Lemma nodeAt_client (s : list (list nat)) ri r i c :
  s !! ri = Some r → r !! i = Some c →
  nodeAt s ri (Z.of_nat i + 1) = ClientNode c.
Proof.
  intros Hr Hi. unfold nodeAt. rewrite decide_False by lia.
  rewrite (routeAt_lookup s ri r Hr).
  replace (Z.to_nat (Z.of_nat i + 1 - 1)) with i by lia. by rewrite Hi.
Qed.

Lemma nodeAt_end (s : list (list nat)) ri r :
  s !! ri = Some r → nodeAt s ri (Z.of_nat (length r) + 1) = EndDepot ri.
Proof.
  intros Hr. unfold nodeAt. rewrite decide_False by lia.
  rewrite (routeAt_lookup s ri r Hr).
  replace (Z.to_nat (Z.of_nat (length r) + 1 - 1)) with (length r) by lia.
  by rewrite lookup_ge_None_2.
Qed.

Lemma n_client N (s : list (list nat)) ri r i c :
  (1 ≤ N)%nat → fits N s → NoDup (mjoin s) →
  s !! ri = Some r → r !! i = Some c →
  n s (ClientNode c)
  = match r !! S i with
    | Some y => ClientNode y
    | None => EndDepot ri
    end.
Proof.
  intros HN Hfit Hnd Hr Hi. unfold n.
  rewrite (route_client s ri r i c), (position_client N s ri r i c) by done.
  pose proof (fits_lookup N s ri r Hfit Hr).
  pose proof (lookup_lt_Some _ _ _ Hi).
  rewrite szAdd_small by lia.
  destruct (r !! S i) as [y|] eqn:Hy.
  - replace (Z.of_nat i + 1 + 1) with (Z.of_nat (S i) + 1) by lia.
    by apply (nodeAt_client s ri r).
  - apply lookup_ge_None in Hy.
    replace (Z.of_nat i + 1 + 1) with (Z.of_nat (length r) + 1) by lia.
    by apply nodeAt_end.
Qed.

Lemma p_client N (s : list (list nat)) ri r i c :
  fits N s → NoDup (mjoin s) →
  s !! ri = Some r → r !! i = Some c →
  p s (ClientNode c)
  = match i with
    | O => StartDepot ri
    | S j => match r !! j with
             | Some y => ClientNode y
             | None => EndDepot ri
             end
    end.
Proof.
  intros Hfit Hnd Hr Hi. unfold p.
  rewrite (route_client s ri r i c), (position_client N s ri r i c) by done.
  pose proof (fits_lookup N s ri r Hfit Hr).
  pose proof (lookup_lt_Some _ _ _ Hi).
  rewrite szSub_small by lia.
  destruct i as [|j].
  - unfold nodeAt. by rewrite decide_True by lia.
  - unfold nodeAt. rewrite decide_False by lia.
    rewrite (routeAt_lookup s ri r Hr).
    by replace (Z.to_nat (Z.of_nat (S j) + 1 - 1 - 1)) with j by lia.
Qed.

Lemma n_start (s : list (list nat)) ri :
  n s (StartDepot ri)
  = match routeAt s ri !! 0%nat with
    | Some y => ClientNode y
    | None => EndDepot ri
    end.
Proof. reflexivity. Qed.

(** ** Transpositions of clients *)

Lemma swapVal_l u v : swapVal u v u = v.
Proof. unfold swapVal. by rewrite decide_True. Qed.

Lemma swapVal_r u v : swapVal u v v = u.
Proof. unfold swapVal. case_decide; [done|]. by rewrite decide_True. Qed.

Lemma swapVal_other u v x : x ≠ u → x ≠ v → swapVal u v x = x.
Proof. intros. unfold swapVal. by rewrite !decide_False. Qed.

Lemma swapVal_sym u v x : swapVal u v x = swapVal v u x.
Proof. unfold swapVal. repeat case_decide; congruence. Qed.

Lemma swapVal_involutive u v x : swapVal u v (swapVal u v x) = x.
Proof. unfold swapVal. repeat case_decide; congruence. Qed.

#[global] Instance swapVal_inj u v : Inj (=) (=) (swapVal u v).
Proof.
  intros x y H. rewrite <- (swapVal_involutive u v x), H.
  apply swapVal_involutive.
Qed.

Lemma swapInRoute_fixed u v (r : list nat) :
  u ∉ r → v ∉ r → swapInRoute u v r = r.
Proof.
  intros Hu Hv. unfold swapInRoute.
  induction r as [|x r IH]; [done|].
  apply not_elem_of_cons in Hu as [? ?], Hv as [? ?].
  rewrite fmap_cons, IH by done. by rewrite swapVal_other.
Qed.

Lemma swapAll_flip (xs ys : list nat) x :
  swapAll (zip xs ys) x = swapAll (zip ys xs) x.
Proof.
  revert ys x. induction xs as [|a xs IH]; intros [|b ys] x; try done.
  simpl. by rewrite IH, swapVal_sym.
Qed.

Lemma swapAll_other (xs ys : list nat) x :
  x ∉ xs → x ∉ ys → swapAll (zip xs ys) x = x.
Proof.
  revert ys x. induction xs as [|a xs IH]; intros [|b ys] x Hx Hy; try done.
  apply not_elem_of_cons in Hx as [? ?], Hy as [? ?].
  simpl. rewrite swapVal_other by done. by apply IH.
Qed.

(** The composed transpositions carry the first block onto the second. *)
Lemma swapAll_block (xs ys : list nat) :
  length xs = length ys → NoDup (xs ++ ys) →
  swapAll (zip xs ys) <$> xs = ys.
Proof.
  revert ys. induction xs as [|a xs IH]; intros [|b ys] Hlen Hnd; try done.
  simpl in Hlen. injection Hlen as Hlen.
  simpl in Hnd. apply NoDup_cons in Hnd as [Ha Hnd].
  apply not_elem_of_app in Ha as [Ha1 Ha2].
  apply not_elem_of_cons in Ha2 as [Hab Ha2].
  assert (NoDup (xs ++ ys)) as Hnd'.
  { apply NoDup_app in Hnd as (H1 & H2 & H3). apply NoDup_cons in H3 as [_ H3].
    apply NoDup_app. split; [done|]. split; [|done].
    intros x Hx Hy. apply (H2 x Hx). by right. }
  assert (b ∉ xs) as Hb1.
  { apply NoDup_app in Hnd as (_ & H2 & _). intros Hb. apply (H2 b Hb). by left. }
  assert (b ∉ ys) as Hb2.
  { apply NoDup_app in Hnd as (_ & _ & H3). by apply NoDup_cons in H3 as [? _]. }
  rewrite fmap_cons. simpl. rewrite swapVal_l.
  rewrite (swapAll_other xs ys b) by done. f_equal.
  etrans; [|apply (IH ys Hlen Hnd')].
  apply list_fmap_ext. intros i x Hx. simpl.
  rewrite swapVal_other; [done| |]; intros ->;
    [apply Ha1|apply Hb1]; by eapply list_elem_of_lookup_2.
Qed.

Lemma NoDup_app_comm_nat (xs ys : list nat) : NoDup (xs ++ ys) → NoDup (ys ++ xs).
Proof. intros H. by rewrite (Permutation_app_comm ys xs). Qed.

Lemma swapAll_block_r (xs ys : list nat) :
  length xs = length ys → NoDup (xs ++ ys) →
  swapAll (zip xs ys) <$> ys = xs.
Proof.
  intros Hlen Hnd.
  etrans; [|apply (swapAll_block ys xs); [done|by apply NoDup_app_comm_nat]].
  apply list_fmap_ext. intros; apply swapAll_flip.
Qed.

Lemma swapAll_fixed (xs ys r : list nat) :
  (∀ x, x ∈ r → (x ∉ xs) ∧ (x ∉ ys)) → swapAll (zip xs ys) <$> r = r.
Proof.
  intros H. etrans; [|apply list_fmap_id].
  apply list_fmap_ext. intros i x Hx. simpl.
  destruct (H x) as [? ?]; [by eapply list_elem_of_lookup_2|].
  by apply swapAll_other.
Qed.

(** Applied twice, they are the identity. *)
Lemma swapAll_involutive (xs ys : list nat) x :
  length xs = length ys → NoDup (xs ++ ys) →
  swapAll (zip xs ys) (swapAll (zip xs ys) x) = x.
Proof.
  intros Hlen Hnd.
  destruct (decide (x ∈ xs)) as [Hx|Hx].
  - apply list_elem_of_lookup in Hx as [i Hi].
    pose proof (swapAll_block xs ys Hlen Hnd) as H1.
    pose proof (swapAll_block_r xs ys Hlen Hnd) as H2.
    apply (f_equal (.!! i)) in H1. rewrite list_lookup_fmap, Hi in H1.
    simpl in H1. symmetry in H1.
    apply (f_equal (.!! i)) in H2. rewrite list_lookup_fmap, H1 in H2.
    simpl in H2. rewrite Hi in H2. by injection H2.
  - destruct (decide (x ∈ ys)) as [Hy|Hy].
    + apply list_elem_of_lookup in Hy as [i Hi].
      pose proof (swapAll_block xs ys Hlen Hnd) as H1.
      pose proof (swapAll_block_r xs ys Hlen Hnd) as H2.
      apply (f_equal (.!! i)) in H2. rewrite list_lookup_fmap, Hi in H2.
      simpl in H2. symmetry in H2.
      apply (f_equal (.!! i)) in H1. rewrite list_lookup_fmap, H2 in H1.
      simpl in H1. rewrite Hi in H1. by injection H1.
    + rewrite (swapAll_other xs ys x) by done. by apply swapAll_other.
Qed.

(** ** The swap loop of [apply] *)

Lemma join_mapClients (f : nat → nat) (s : list (list nat)) :
  mjoin (mapClients f s) = f <$> mjoin s.
Proof.
  induction s as [|r s IH]; [done|].
  change (mjoin (mapClients f (r :: s)))
    with ((f <$> r) ++ mjoin (mapClients f s)).
  change (mjoin (r :: s)) with (r ++ mjoin s).
  by rewrite fmap_app, IH.
Qed.

Lemma mapClients_id (s : list (list nat)) : mapClients id s = s.
Proof.
  unfold mapClients. etrans; [|apply list_fmap_id].
  apply list_fmap_ext. intros i r _. apply list_fmap_id.
Qed.

Lemma mapClients_ext (f g : nat → nat) (s : list (list nat)) :
  (∀ x, f x = g x) → mapClients f s = mapClients g s.
Proof.
  intros H. unfold mapClients. apply list_fmap_ext. intros i r _.
  apply list_fmap_ext. intros j x _. apply H.
Qed.

Lemma mapClients_compose (f g : nat → nat) (s : list (list nat)) :
  mapClients g (mapClients f s) = mapClients (g ∘ f) s.
Proof.
  unfold mapClients. rewrite <- list_fmap_compose.
  apply list_fmap_ext. intros i r _. simpl. by rewrite <- list_fmap_compose.
Qed.

Lemma swapInRoute_mapClients u v (s : list (list nat)) :
  swapInRoute u v <$> s = mapClients (swapVal u v) s.
Proof. reflexivity. Qed.

Lemma fits_mapClients N (f : nat → nat) (s : list (list nat)) :
  fits N s → fits N (mapClients f s).
Proof. unfold fits. by rewrite join_mapClients, length_fmap. Qed.

Lemma swapWith_clients s u v :
  swapWith s (ClientNode u) (ClientNode v) = swapInRoute u v <$> s.
Proof. reflexivity. Qed.

Lemma swapWith_NoDup (s : list (list nat)) u v :
  NoDup (mjoin s) → NoDup (mjoin (swapInRoute u v <$> s)).
Proof.
  intros H. rewrite swapInRoute_mapClients, join_mapClients.
  by apply (NoDup_fmap_2 _).
Qed.

Lemma swapWith_fits N (s : list (list nat)) u v : fits N s → fits N (swapInRoute u v <$> s).
Proof. rewrite swapInRoute_mapClients. apply fits_mapClients. Qed.

(** A block standing in a route still stands there, renamed, after a
    swap. *)
Lemma swapWith_window (s : list (list nat)) u v (ri : nat) (A X B : list nat) :
  s !! ri = Some (A ++ X ++ B) →
  (swapInRoute u v <$> s) !! ri
  = Some (swapInRoute u v A ++ swapInRoute u v X ++ swapInRoute u v B).
Proof.
  intros H. rewrite list_lookup_fmap, H. simpl.
  unfold swapInRoute. by rewrite !fmap_app.
Qed.

Lemma swapLoop_blocks (N k : nat) :
  (1 ≤ N)%nat →
  ∀ (SU SV : list nat) (s : list (list nat)) (U V : Node) ri A B rj C D,
    fits N s → NoDup (mjoin s) →
    length SU = k → length SV = k → NoDup (SU ++ SV) →
    s !! ri = Some (A ++ SU ++ B) →
    s !! rj = Some (C ++ SV ++ D) →
    (∀ u, head SU = Some u → U = ClientNode u) →
    (∀ v, head SV = Some v → V = ClientNode v) →
    Exchange.swapLoop k s U V = mapClients (swapAll (zip SU SV)) s.
Proof.
  intros HN. induction k as [|k IH];
    intros SU SV s U V ri A B rj C D Hfit Hnd HlenU HlenV Hdis HU HV HhU HhV.
  - destruct SU; [|done]. simpl. symmetry. apply mapClients_id.
  - destruct SU as [|u SU]; [done|]. destruct SV as [|v SV]; [done|].
    simpl in HlenU, HlenV. injection HlenU as HlenU. injection HlenV as HlenV.
    rewrite (HhU u eq_refl), (HhV v eq_refl).
    cbn [Exchange.swapLoop]. rewrite swapWith_clients.
    set (s' := swapInRoute u v <$> s).
    (* distinctness *)
    simpl in Hdis. apply NoDup_cons in Hdis as [Hu Hdis].
    apply not_elem_of_app in Hu as [HuSU Hu].
    apply not_elem_of_cons in Hu as [Huv HuSV].
    apply NoDup_app in Hdis as (HndSU & Hdisj & HndSV).
    apply NoDup_cons in HndSV as [HvSV HndSV].
    assert (v ∉ SU) as HvSU.
    { intros Hv. apply (Hdisj v Hv). by left. }
    assert (NoDup (SV ++ SU)) as Hdis'.
    { apply NoDup_app. split; [done|]. split; [|done].
      intros x Hx Hx'. apply (Hdisj x Hx'). by right. }
    (* the blocks in the new state *)
    pose proof (swapWith_window s u v ri A (u :: SU) B HU) as HU'.
    pose proof (swapWith_window s u v rj C (v :: SV) D HV) as HV'.
    fold s' in HU', HV'.
    unfold swapInRoute at 2 in HU'. unfold swapInRoute at 2 in HV'.
    rewrite fmap_cons, swapVal_l in HU'. rewrite fmap_cons, swapVal_r in HV'.
    fold (swapInRoute u v SU) in HU'. fold (swapInRoute u v SV) in HV'.
    rewrite (swapInRoute_fixed u v SU) in HU' by done.
    rewrite (swapInRoute_fixed u v SV) in HV' by done.
    assert (fits N s') as Hfit' by (by apply swapWith_fits).
    assert (NoDup (mjoin s')) as Hnd' by (by apply swapWith_NoDup).
    (* the loop continues with the blocks in exchanged roles *)
    rewrite (IH SV SU s' (n s' (ClientNode u)) (n s' (ClientNode v))
               rj (swapInRoute u v C ++ [u]) (swapInRoute u v D)
               ri (swapInRoute u v A ++ [v]) (swapInRoute u v B));
      try done.
    + unfold s'. rewrite swapInRoute_mapClients, mapClients_compose.
      apply mapClients_ext. intros x. simpl. apply swapAll_flip.
    + by rewrite <- (assoc_L (++)).
    + by rewrite <- (assoc_L (++)).
    + intros v1 Hv1. destruct SV as [|v1' SV]; [done|].
      injection Hv1 as ->.
      rewrite (n_client N s' rj _ (length (swapInRoute u v C)) u HN Hfit' Hnd' HV').
      * rewrite lookup_app_r by lia.
        replace (S (length (swapInRoute u v C)) - length (swapInRoute u v C))%nat
          with 1%nat by lia. done.
      * rewrite lookup_app_r by lia. by rewrite Nat.sub_diag.
    + intros u1 Hu1. destruct SU as [|u1' SU]; [done|].
      injection Hu1 as ->.
      rewrite (n_client N s' ri _ (length (swapInRoute u v A)) v HN Hfit' Hnd' HU').
      * rewrite lookup_app_r by lia.
        replace (S (length (swapInRoute u v A)) - length (swapInRoute u v A))%nat
          with 1%nat by lia. done.
      * rewrite lookup_app_r by lia. by rewrite Nat.sub_diag.
Qed.

(** ** The segments of a move as blocks of the routes *)

Lemma containsDepot_false s node K :
  Exchange.containsDepot s node K = false →
  isDepot node = false
  ∧ ¬ size s (route s node)
      < szSub (szAdd (position s node) (Z.of_nat K)) 1.
Proof.
  unfold Exchange.containsDepot. destruct (isDepot node); [done|].
  intros H%bool_decide_eq_false. done.
Qed.

(** A segment without a depot is a block of its route. *)
Lemma segment_block (N K : nat) s node :
  (1 ≤ K ≤ N)%nat → fits N s → NoDup (mjoin s) → nodeIn s node →
  Exchange.containsDepot s node K = false →
  ∃ ri r i c,
    node = ClientNode c ∧ c ≠ 0%nat
    ∧ s !! ri = Some r ∧ r !! i = Some c ∧ (i + K ≤ length r)%nat
    ∧ route s node = ri ∧ position s node = Z.of_nat i + 1.
Proof.
  intros HK Hfit Hnd Hin [Hd Hsz]%containsDepot_false.
  destruct node as [c|r|r]; [|done|done].
  simpl in Hin. apply list_elem_of_join in Hin as (r & Hc & Hr).
  apply list_elem_of_lookup in Hr as [ri Hr].
  apply list_elem_of_lookup in Hc as [i Hi].
  exists ri, r, i, c.
  assert (1 ≤ N)%nat as HN by lia.
  pose proof (route_client s ri r i c Hnd Hr Hi) as Hroute.
  pose proof (position_client N s ri r i c Hfit Hnd Hr Hi) as Hpos.
  rewrite Hroute, Hpos in Hsz.
  rewrite (size_lookup N s ri r Hfit Hr) in Hsz.
  pose proof (fits_lookup N s ri r Hfit Hr).
  pose proof (lookup_lt_Some _ _ _ Hi).
  rewrite szAdd_small, szSub_small in Hsz by lia.
  repeat split; try done.
  - unfold isDepot in Hd. by apply bool_decide_eq_false in Hd.
  - lia.
Qed.

Lemma block_split (r : list nat) (i K : nat) c :
  r !! i = Some c → (i + K ≤ length r)%nat → (1 ≤ K)%nat →
  r = take i r ++ take K (drop i r) ++ drop (i + K) r
  ∧ length (take K (drop i r)) = K
  ∧ head (take K (drop i r)) = Some c.
Proof.
  intros Hi Hlen HK. split; [|split].
  - rewrite <- (drop_drop r K i), (take_drop K (drop i r)).
    by rewrite take_drop.
  - rewrite length_take, length_drop. lia.
  - destruct K as [|K]; [lia|].
    rewrite <- (take_drop i r) in Hi at 1.
    rewrite lookup_app_r in Hi by (rewrite length_take; lia).
    rewrite length_take in Hi.
    replace (i - i `min` length r)%nat with 0%nat in Hi
      by (apply lookup_lt_Some in Hi; rewrite length_drop in Hi; lia).
    destruct (drop i r) as [|x l]; [done|].
    simpl in Hi |- *. done.
Qed.

Lemma two_blocks_split (r : list nat) (i N j M : nat) :
  (i + N ≤ j)%nat →
  r = take i r ++ take N (drop i r)
      ++ take (j - (i + N)) (drop (i + N) r)
      ++ take M (drop j r) ++ drop (j + M) r.
Proof.
  intros Hij.
  rewrite <- (drop_drop r M j), (take_drop M (drop j r)).
  replace (drop j r) with (drop (j - (i + N)) (drop (i + N) r))
    by (rewrite drop_drop; f_equal; lia).
  rewrite (take_drop (j - (i + N)) (drop (i + N) r)).
  rewrite <- (drop_drop r N i), (take_drop N (drop i r)).
  by rewrite take_drop.
Qed.

Lemma two_blocks_NoDup (r : list nat) (i N j M : nat) :
  NoDup r → (i + N ≤ j)%nat →
  NoDup (take N (drop i r) ++ take M (drop j r)).
Proof.
  intros Hnd Hij. rewrite (two_blocks_split r i N j M Hij) in Hnd.
  apply NoDup_app in Hnd as (_ & _ & Hnd).
  apply NoDup_app in Hnd as (H1 & H2 & Hnd).
  apply NoDup_app in Hnd as (_ & _ & Hnd).
  apply NoDup_app in Hnd as (H3 & _ & _).
  apply NoDup_app. split; [done|]. split; [|done].
  intros x Hx Hx'. apply (H2 x Hx).
  apply elem_of_app. right. apply elem_of_app. by left.
Qed.

Lemma NoDup_join_lookup (s : list (list nat)) ri r :
  NoDup (mjoin s) → s !! ri = Some r → NoDup r.
Proof.
  revert ri. induction s as [|r0 s IH]; intros ri Hnd Hr; [done|].
  simpl in Hnd. apply NoDup_app in Hnd as (H0 & _ & Hs).
  destruct ri as [|ri]; simpl in Hr.
  - by injection Hr as <-.
  - by eapply IH.
Qed.

(** Clients of different routes are different. *)
Lemma routes_disjoint (s : list (list nat)) ri rj r1 r2 x :
  NoDup (mjoin s) → s !! ri = Some r1 → s !! rj = Some r2 → ri ≠ rj →
  x ∈ r1 → x ∉ r2.
Proof.
  intros Hnd H1 H2 Hne Hx1 Hx2.
  apply list_elem_of_lookup in Hx1 as [i Hi], Hx2 as [j Hj].
  pose proof (locate_lookup s ri r1 i x Hnd H1 Hi) as L1.
  pose proof (locate_lookup s rj r2 j x Hnd H2 Hj) as L2.
  congruence.
Qed.

(** ** Applying a swap twice *)

Lemma prefiltered_false N M s U V :
  prefiltered N M s U V = false →
  Exchange.containsDepot s U N = false
  ∧ Exchange.overlap N M s U V = false
  ∧ ((0 < M)%nat → Exchange.containsDepot s V M = false)
  ∧ (M = 0%nat → U ≠ n s V)
  ∧ ((0 < M)%nat → Exchange.adjacent N M s U V = false)
  ∧ ((0 < M)%nat → N = M → (clientOf U < clientOf V)%nat).
Proof.
  unfold prefiltered. intros H.
  apply orb_false_iff in H as [H H5]. apply orb_false_iff in H as [H H4].
  apply orb_false_iff in H as [H H3]. apply orb_false_iff in H as [H1 H2].
  repeat split; try done.
  - intros HM. by rewrite (bool_decide_eq_true_2 _ HM) in H3.
  - intros HM. rewrite (bool_decide_eq_true_2 _ HM) in H4.
    by apply bool_decide_eq_false in H4.
  - intros HM. rewrite (bool_decide_eq_true_2 _ HM) in H5.
    by apply orb_false_iff in H5 as [_ ?].
  - intros HM HNM. rewrite (bool_decide_eq_true_2 _ HM) in H5.
    apply orb_false_iff in H5 as [H5 _].
    rewrite (bool_decide_eq_true_2 _ HNM) in H5.
    apply bool_decide_eq_false in H5. lia.
Qed.

(** The part of the same-route, equal-length case common to both orders of
    the blocks. *)
Lemma apply_swap_blocks (N : nat) (s : list (list nat)) ri A SU B C SV D u v :
  (1 ≤ N)%nat → fits N s → NoDup (mjoin s) →
  length SU = N → length SV = N → NoDup (SU ++ SV) →
  s !! ri = Some (A ++ SU ++ B) →
  s !! ri = Some (C ++ SV ++ D) →
  head SU = Some u → head SV = Some v →
  Exchange.apply N N (Exchange.apply N N s (ClientNode u) (ClientNode v))
    (ClientNode u) (ClientNode v) = s.
Proof.
  intros HN Hfit Hnd HlU HlV Hdis HU HV Hu Hv.
  unfold Exchange.apply. rewrite Nat.sub_diag, Nat.min_id.
  cbn [Exchange.insertLoop].
  rewrite (swapLoop_blocks N N HN SU SV s _ _ ri A B ri C D); try done;
    [|intros ? ?; congruence|intros ? ?; congruence].
  set (Π := swapAll (zip SU SV)).
  assert (length SU = length SV) as Hlen by congruence.
  assert (mapClients Π s !! ri = Some ((Π <$> C) ++ SU ++ (Π <$> D))) as HU'.
  { unfold mapClients. rewrite list_lookup_fmap, HV. simpl.
    rewrite !fmap_app. unfold Π. by rewrite swapAll_block_r. }
  assert (mapClients Π s !! ri = Some ((Π <$> A) ++ SV ++ (Π <$> B))) as HV'.
  { unfold mapClients. rewrite list_lookup_fmap, HU. simpl.
    rewrite !fmap_app. unfold Π. by rewrite swapAll_block. }
  rewrite (swapLoop_blocks N N HN SU SV (mapClients Π s) _ _
             ri (Π <$> C) (Π <$> D) ri (Π <$> A) (Π <$> B)); try done.
  - fold Π. rewrite mapClients_compose.
    rewrite (mapClients_ext _ id); [apply mapClients_id|].
    intros x. simpl. by apply swapAll_involutive.
  - by apply fits_mapClients.
  - rewrite join_mapClients. apply NoDup_fmap_2_strong; [|done].
    intros x y _ _ Hxy.
    rewrite <- (swapAll_involutive SU SV x Hlen Hdis).
    rewrite <- (swapAll_involutive SU SV y Hlen Hdis).
    unfold Π in Hxy. by rewrite Hxy.
  - intros ? ?; congruence.
  - intros ? ?; congruence.
Qed.

(** C9: for a pure swap (N = M > 0) of two segments of one route that the
    pre-filters let through, applying the move twice with the same nodes
    gives back the routes as they were, and with them the position, route,
    predecessor and successor of every node. *)
Theorem swap_applied_twice (N : nat) (s : list (list nat)) (U V : Node) :
  (0 < N)%nat → wfSol s → fits N s →
  nodeIn s U → nodeIn s V →
  route s U = route s V →
  prefiltered N N s U V = false →
  let s2 := Exchange.apply N N (Exchange.apply N N s U V) U V in
  s2 = s
  ∧ ∀ node,
      route s2 node = route s node
      ∧ position s2 node = position s node
      ∧ p s2 node = p s node
      ∧ n s2 node = n s node.
Proof.
  intros HN [Hnd _] Hfit HinU HinV Hroute Hpre s2.
  assert (s2 = s) as ->; [|done]. unfold s2. clear s2.
  apply prefiltered_false in Hpre as (HdU & Hov & HdV & _ & _ & _).
  specialize (HdV HN).
  destruct (segment_block N N s U) as (ri & r & i & u & -> & _ & Hr & Hi & HiN & HrU & HpU);
    [lia|done..|].
  destruct (segment_block N N s V) as (rj & r' & j & v & -> & _ & Hr' & Hj & HjN & HrV & HpV);
    [lia|done..|].
  assert (rj = ri) as -> by congruence.
  assert (r' = r) as -> by congruence.
  (* the two blocks do not overlap *)
  unfold Exchange.overlap in Hov.
  rewrite (bool_decide_eq_true_2 _ Hroute) in Hov.
  rewrite HpU, HpV in Hov.
  pose proof (fits_lookup N s ri r Hfit Hr) as Hf.
  rewrite !szAdd_small, !szSub_small in Hov by lia.
  simpl in Hov. apply andb_false_iff in Hov.
  assert (i + N ≤ j ∨ j + N ≤ i)%nat as Hord.
  { destruct Hov as [H|H]; apply bool_decide_eq_false in H; lia. }
  destruct (block_split r i N u Hi HiN HN) as (HsU & HlU & HhU).
  destruct (block_split r j N v Hj HjN HN) as (HsV & HlV & HhV).
  pose proof (NoDup_join_lookup s ri r Hnd Hr) as Hndr.
  eapply (apply_swap_blocks N s ri (take i r) (take N (drop i r))
            (drop (i + N) r) (take j r) (take N (drop j r)) (drop (j + N) r));
    try done.
  - destruct Hord as [H|H].
    + by apply two_blocks_NoDup.
    + apply NoDup_app_comm_nat. by apply two_blocks_NoDup.
  - by rewrite <- HsU.
  - by rewrite <- HsV.
Qed.

Lemma swap_applied_twice_witness :
  Exchange.apply 2 2
    (Exchange.apply 2 2 [[1; 2; 3; 4; 5]; []; []]%nat
       (ClientNode 1) (ClientNode 4))
    (ClientNode 1) (ClientNode 4)
  = [[1; 2; 3; 4; 5]; []; []]%nat.
Proof.
  eapply proj1,
    (swap_applied_twice 2 [[1; 2; 3; 4; 5]; []; []]%nat
       (ClientNode 1) (ClientNode 4)).
  - lia.
  - split; apply (bool_decide_unpack _); vm_compute; exact I.
  - unfold fits. simpl. lia.
  - simpl. repeat constructor.
  - simpl. repeat constructor.
  - reflexivity.
  - reflexivity.
Defined.

(** ** Sums over concatenated blocks *)

Lemma headD_cons x l : headD (x :: l) = x.
Proof. reflexivity. Qed.

Lemma headD_app l k : l ≠ [] → headD (l ++ k) = headD l.
Proof. by destruct l. Qed.

Lemma lastD_snoc l x : lastD (l ++ [x]) = x.
Proof. unfold lastD. by rewrite last_snoc. Qed.

Lemma lastD_app l k : k ≠ [] → lastD (l ++ k) = lastD k.
Proof.
  intros Hk. destruct (exists_last Hk) as (k' & x & ->).
  by rewrite (assoc_L (++)), !lastD_snoc.
Qed.

Lemma lastD_cons x l : l ≠ [] → lastD (x :: l) = lastD l.
Proof. intros Hl. by apply (lastD_app [x] l). Qed.

Lemma lastD_singleton x : lastD [x] = x.
Proof. reflexivity. Qed.

Lemma distPath_cons data x l :
  l ≠ [] → distPath data (x :: l) = dist data x (headD l) + distPath data l.
Proof. by destruct l. Qed.

Lemma distPath_singleton data x : distPath data [x] = 0.
Proof. reflexivity. Qed.

Lemma distPath_app data l k :
  l ≠ [] → k ≠ [] →
  distPath data (l ++ k)
  = distPath data l + dist data (lastD l) (headD k) + distPath data k.
Proof.
  intros Hl Hk. induction l as [|x l IH]; [done|].
  destruct l as [|y l].
  - change ([x] ++ k) with (x :: k). rewrite distPath_cons by done.
    rewrite distPath_singleton, lastD_singleton. lia.
  - rewrite <- app_comm_cons. rewrite !distPath_cons by done.
    rewrite IH by done. rewrite (lastD_cons x (y :: l)) by done.
    rewrite headD_app by done. lia.
Qed.

Lemma demandSum_app data l k :
  demandSum data (l ++ k) = demandSum data l + demandSum data k.
Proof. induction l as [|x l IH]; simpl; lia. Qed.

Lemma mergeAll_two data X Y : TWS.mergeAll data X [Y] = TWS.merge data X Y.
Proof. reflexivity. Qed.

Lemma ofList_app3 data l1 l2 l3 :
  l1 ≠ [] → l2 ≠ [] → l3 ≠ [] →
  TWS.mergeAll data (TWS.ofList data l1) [TWS.ofList data l2; TWS.ofList data l3]
  = TWS.ofList data (l1 ++ l2 ++ l3).
Proof.
  intros H1 H2 H3. simpl.
  rewrite <- !ofList_app; try done.
  - by rewrite <- (assoc_L (++)).
  - by destruct l1.
Qed.

Lemma ofList_app4 data l1 l2 l3 l4 :
  l1 ≠ [] → l2 ≠ [] → l3 ≠ [] → l4 ≠ [] →
  TWS.mergeAll data (TWS.ofList data l1)
    [TWS.ofList data l2; TWS.ofList data l3; TWS.ofList data l4]
  = TWS.ofList data (l1 ++ l2 ++ l3 ++ l4).
Proof.
  intros H1 H2 H3 H4. simpl.
  rewrite <- !ofList_app; try done.
  - by rewrite <- !(assoc_L (++)).
  - by destruct l1.
  - by destruct l1.
Qed.

Lemma ofList_app5 data l1 l2 l3 l4 l5 :
  l1 ≠ [] → l2 ≠ [] → l3 ≠ [] → l4 ≠ [] → l5 ≠ [] →
  TWS.mergeAll data (TWS.ofList data l1)
    [TWS.ofList data l2; TWS.ofList data l3; TWS.ofList data l4;
     TWS.ofList data l5]
  = TWS.ofList data (l1 ++ l2 ++ l3 ++ l4 ++ l5).
Proof.
  intros H1 H2 H3 H4 H5. simpl.
  rewrite <- !ofList_app; try done.
  - by rewrite <- !(assoc_L (++)).
  - by destruct l1.
  - by destruct l1.
  - by destruct l1.
Qed.

(** ** Segments of a sequence *)

Lemma segment_blocks (l pre mid post : list nat) (i j : Z) :
  l = pre ++ mid ++ post →
  i = Z.of_nat (length pre) →
  j = Z.of_nat (length pre + length mid) - 1 →
  segment l i j = mid.
Proof.
  intros -> -> ->. unfold segment.
  rewrite Nat2Z.id. rewrite drop_app_length.
  replace (Z.to_nat (Z.of_nat (length pre + length mid) - 1 + 1
                     - Z.of_nat (length pre)))
    with (length mid) by lia.
  by rewrite take_app_length.
Qed.

(** ** What a move reads of a segment *)

#[local] Arguments position : simpl never.
#[local] Arguments route : simpl never.
#[local] Arguments n : simpl never.
#[local] Arguments p : simpl never.
#[local] Arguments size : simpl never.
#[local] Arguments wrap : simpl never.

Lemma routeNodes_blocks (A Sg B : list nat) :
  routeNodes (A ++ Sg ++ B) = (0%nat :: A) ++ Sg ++ (B ++ [0%nat]).
Proof. unfold routeNodes. simpl. by rewrite <- !(assoc_L (++)). Qed.

Lemma headD_lookup (Sg : list nat) : Sg ≠ [] → Sg !! 0%nat = Some (headD Sg).
Proof. by destruct Sg. Qed.

Lemma lastD_lookup (Sg : list nat) :
  Sg ≠ [] → Sg !! (length Sg - 1)%nat = Some (lastD Sg).
Proof.
  intros HS. destruct (exists_last HS) as (S' & x & ->).
  rewrite lastD_snoc, length_app. simpl.
  rewrite lookup_app_r by lia.
  by replace (length S' + 1 - 1 - length S')%nat with 0%nat by lia.
Qed.

Section segment_facts.
Context (data : ProblemData) (N K : nat) (s : list (list nat)).
Context (ri : nat) (A Sg B : list nat).
Context (HK : (1 ≤ K ≤ N)%nat) (Hfit : fits N s) (Hnd : NoDup (mjoin s)).
Context (Hwin : s !! ri = Some (A ++ Sg ++ B)) (Hlen : length Sg = K).

Lemma seg_nonempty : Sg ≠ [].
Proof. intros ->. simpl in Hlen. lia. Qed.

Lemma seg_bound :
  Z.of_nat (length A) + Z.of_nat K + Z.of_nat (length B) + Z.of_nat N + 1
  < 2 ^ 64.
Proof.
  pose proof (fits_lookup N s ri _ Hfit Hwin) as H.
  rewrite !length_app in H. lia.
Qed.

Lemma seg_head_lookup : (A ++ Sg ++ B) !! length A = Some (headD Sg).
Proof.
  rewrite lookup_app_r by lia. rewrite Nat.sub_diag.
  rewrite lookup_app_l by (pose proof seg_nonempty; destruct Sg; simpl; [done|lia]).
  apply headD_lookup, seg_nonempty.
Qed.

Lemma seg_last_lookup :
  (A ++ Sg ++ B) !! (length A + K - 1)%nat = Some (lastD Sg).
Proof.
  rewrite lookup_app_r by lia.
  replace (length A + K - 1 - length A)%nat with (length Sg - 1)%nat by lia.
  rewrite lookup_app_l by lia.
  apply lastD_lookup, seg_nonempty.
Qed.

Lemma seg_route : route s (ClientNode (headD Sg)) = ri.
Proof. eapply route_client; [done|exact Hwin|apply seg_head_lookup]. Qed.

Lemma seg_position : position s (ClientNode (headD Sg)) = Z.of_nat (length A) + 1.
Proof.
  eapply (position_client N); [done|done|exact Hwin|apply seg_head_lookup].
Qed.

Lemma seg_end_route : route s (ClientNode (lastD Sg)) = ri.
Proof. eapply route_client; [done|exact Hwin|apply seg_last_lookup]. Qed.

Lemma seg_end_position : position s (ClientNode (lastD Sg)) = Z.of_nat (length A) + Z.of_nat K.
Proof.
  rewrite (position_client N s ri (A ++ Sg ++ B) (length A + K - 1) (lastD Sg));
    [lia|done|done|exact Hwin|apply seg_last_lookup].
Qed.

(** The node the code calls [endU] (or [endV]). *)
Lemma seg_end :
  (if decide (K = 1%nat) then (ClientNode (headD Sg))
   else nodeAt s (route s (ClientNode (headD Sg))) (szSub (szAdd (position s (ClientNode (headD Sg))) (Z.of_nat K)) 1))
  = (ClientNode (lastD Sg)).
Proof.
  pose proof seg_bound as Hb. pose proof seg_nonempty as Hne.
  case_decide as HK1.
  - destruct Sg as [|x [|y S']]; simpl in Hlen; [done|done|lia].
  - rewrite seg_route, seg_position.
    rewrite szAdd_small, szSub_small by lia.
    replace (Z.of_nat (length A) + 1 + Z.of_nat K - 1)
      with (Z.of_nat (length A + K - 1) + 1) by lia.
    eapply nodeAt_client; [exact Hwin|apply seg_last_lookup].
Qed.

Lemma seg_client : clientOf (ClientNode (headD Sg)) = headD Sg.
Proof. reflexivity. Qed.

Lemma seg_end_client : clientOf (ClientNode (lastD Sg)) = lastD Sg.
Proof. reflexivity. Qed.

(** The predecessor of the segment. *)
Lemma seg_pred :
  clientOf (p s (ClientNode (headD Sg))) = lastD (0%nat :: A)
  ∧ route s (p s (ClientNode (headD Sg))) = ri
  ∧ position s (p s (ClientNode (headD Sg))) = Z.of_nat (length A).
Proof.
  rewrite (p_client N s ri _ (length A) (headD Sg) Hfit Hnd Hwin seg_head_lookup).
  destruct (decide (A = [])) as [->|HA].
  - simpl. done.
  - destruct (exists_last HA) as (A' & y & ->).
    rewrite length_app. simpl.
    replace (length A' + 1)%nat with (S (length A')) by lia.
    assert ((((A' ++ [y]) ++ Sg ++ B) !! length A') = Some y) as Hy.
    { rewrite <- (assoc_L (++)). rewrite lookup_app_r by lia.
      by rewrite Nat.sub_diag. }
    rewrite Hy. split; [|split].
    + simpl. rewrite app_comm_cons. by rewrite lastD_snoc.
    + by eapply route_client.
    + rewrite (position_client N s ri _ (length A') y Hfit Hnd Hwin Hy). lia.
Qed.

(** The successor of the segment. *)
Lemma seg_succ :
  clientOf (n s (ClientNode (lastD Sg))) = headD (B ++ [0%nat])
  ∧ route s (n s (ClientNode (lastD Sg))) = ri
  ∧ position s (n s (ClientNode (lastD Sg))) = Z.of_nat (length A) + Z.of_nat K + 1.
Proof.
  assert (1 ≤ N)%nat as HN by lia.
  rewrite (n_client N s ri _ (length A + K - 1) (lastD Sg) HN Hfit Hnd Hwin
             seg_last_lookup).
  replace (S (length A + K - 1)) with (length A + length Sg)%nat by lia.
  rewrite (assoc_L (++)).
  rewrite lookup_app_r by (rewrite length_app; lia).
  rewrite length_app, Nat.sub_diag.
  pose proof seg_bound as Hb.
  destruct B as [|y B'].
  - simpl. split; [done|]. split; [done|].
    unfold position. rewrite (routeAt_lookup s ri _ Hwin). simpl in Hb.
    rewrite wrap_small; rewrite !length_app; simpl; lia.
  - simpl.
    assert ((A ++ Sg ++ y :: B') !! (length A + length Sg)%nat = Some y) as Hy.
    { rewrite (assoc_L (++)). rewrite lookup_app_r by (rewrite length_app; lia).
      by rewrite length_app, Nat.sub_diag. }
    split; [done|]. split.
    + by eapply route_client.
    + rewrite (position_client N s ri _ _ y Hfit Hnd Hwin Hy). lia.
Qed.

Lemma seg_size : size s ri = Z.of_nat (length A + K + length B).
Proof.
  rewrite (size_lookup N s ri _ Hfit Hwin). rewrite !length_app. lia.
Qed.

Lemma seg_nodes :
  routeNodes (routeAt s ri) = (0%nat :: A) ++ Sg ++ (B ++ [0%nat]).
Proof. rewrite (routeAt_lookup s ri _ Hwin). apply routeNodes_blocks. Qed.

(** The segment itself: positions [pos … pos + K − 1]. *)
Lemma seg_inner :
  segment (routeNodes (routeAt s ri)) (position s (ClientNode (headD Sg)))
          (szSub (szAdd (position s (ClientNode (headD Sg))) (Z.of_nat K)) 1)
  = Sg.
Proof.
  pose proof seg_bound as Hb.
  rewrite seg_position, szAdd_small, szSub_small by lia.
  apply (segment_blocks _ (0%nat :: A) Sg (B ++ [0%nat]));
    [apply seg_nodes|simpl; lia|simpl; lia].
Qed.

(** The segment with its two neighbours: positions
    [pos − 1 … pos + K]. *)
Lemma seg_around :
  segment (routeNodes (routeAt s ri)) (szSub (position s (ClientNode (headD Sg))) 1)
          (szAdd (position s (ClientNode (headD Sg))) (Z.of_nat K))
  = [lastD (0%nat :: A)] ++ Sg ++ [headD (B ++ [0%nat])].
Proof.
  pose proof seg_bound as Hb.
  rewrite seg_position, szAdd_small, szSub_small by lia.
  destruct (exists_last (l := 0%nat :: A)) as (P' & a & HP); [done|].
  destruct (B ++ [0%nat]) as [|b Q'] eqn:HQ; [by destruct B|].
  rewrite HP, lastD_snoc, headD_cons.
  assert (length P' = length A) as HlP.
  { apply (f_equal length) in HP. rewrite length_app in HP. simpl in HP. lia. }
  apply (segment_blocks _ P' ([a] ++ Sg ++ [b]) Q').
  - rewrite seg_nodes, HP, HQ. by rewrite <- !(assoc_L (++)).
  - lia.
  - rewrite !length_app. simpl. lia.
Qed.

(** Everything before the segment: positions [0 … pos − 1]. *)
Lemma seg_before :
  segment (routeNodes (routeAt s ri)) 0 (position s (p s (ClientNode (headD Sg)))) = 0%nat :: A.
Proof.
  destruct seg_pred as (_ & _ & ->).
  apply (segment_blocks _ [] (0%nat :: A) (Sg ++ B ++ [0%nat]));
    [apply seg_nodes|done|simpl; lia].
Qed.

(** Everything after the segment: positions [pos + K … size + 1]. *)
Lemma seg_after :
  segment (routeNodes (routeAt s ri)) (position s (n s (ClientNode (lastD Sg))))
          (szAdd (size s ri) 1)
  = B ++ [0%nat].
Proof.
  pose proof seg_bound as Hb.
  destruct seg_succ as (_ & _ & ->).
  rewrite seg_size, szAdd_small by lia.
  apply (segment_blocks _ ((0%nat :: A) ++ Sg) (B ++ [0%nat]) []).
  - rewrite seg_nodes. by rewrite app_nil_r, <- !(assoc_L (++)).
  - rewrite length_app. simpl. lia.
  - rewrite !length_app. simpl. lia.
Qed.

Lemma seg_distInner :
  distBetween data s ri (position s (ClientNode (headD Sg)))
              (szSub (szAdd (position s (ClientNode (headD Sg))) (Z.of_nat K)) 1)
  = distPath data Sg.
Proof. unfold distBetween. by rewrite seg_inner. Qed.

Lemma seg_loadInner :
  loadBetween data s ri (position s (ClientNode (headD Sg)))
              (szSub (szAdd (position s (ClientNode (headD Sg))) (Z.of_nat K)) 1)
  = demandSum data Sg.
Proof. unfold loadBetween. by rewrite seg_inner. Qed.

Lemma seg_twInner :
  twBetween data s ri (position s (ClientNode (headD Sg)))
            (szSub (szAdd (position s (ClientNode (headD Sg))) (Z.of_nat K)) 1)
  = TWS.ofList data Sg.
Proof. unfold twBetween. by rewrite seg_inner. Qed.

Lemma seg_distAround :
  distBetween data s ri (szSub (position s (ClientNode (headD Sg))) 1)
              (szAdd (position s (ClientNode (headD Sg))) (Z.of_nat K))
  = dist data (lastD (0%nat :: A)) (headD Sg) + distPath data Sg
    + dist data (lastD Sg) (headD (B ++ [0%nat])).
Proof.
  unfold distBetween. rewrite seg_around.
  pose proof seg_nonempty.
  rewrite !distPath_app by (done || by destruct Sg).
  rewrite lastD_singleton, headD_cons, !distPath_singleton.
  rewrite headD_app by done. lia.
Qed.

Lemma seg_twBefore : twBefore data s (p s (ClientNode (headD Sg))) = TWS.ofList data (0%nat :: A).
Proof.
  unfold twBefore, twBetween.
  destruct seg_pred as (_ & Hr & _). rewrite Hr. by rewrite seg_before.
Qed.

Lemma seg_twAfter : twAfter data s (n s (ClientNode (lastD Sg))) = TWS.ofList data (B ++ [0%nat]).
Proof.
  unfold twAfter, twBetween.
  destruct seg_succ as (_ & Hr & _). rewrite Hr. by rewrite seg_after.
Qed.

End segment_facts.

(** ** The insert loop of [apply] *)

Lemma filter_all_notin (E r : list nat) :
  (∀ x, x ∈ r → x ∉ E) → filter (λ x, x ∉ E) r = r.
Proof.
  intros H. induction r as [|x r IH]; [done|].
  rewrite filter_cons_True by (apply H; by left).
  rewrite IH; [done|]. intros y Hy. apply H. by right.
Qed.

Lemma filter_all_in (E r : list nat) :
  (∀ x, x ∈ r → x ∈ E) → filter (λ x, x ∉ E) r = [].
Proof.
  intros H. induction r as [|x r IH]; [done|].
  rewrite filter_cons_False by (intros Hx; apply Hx, H; by left).
  apply IH. intros y Hy. apply H. by right.
Qed.

Lemma spliceAfter_app v E r1 r2 :
  spliceAfter v E (r1 ++ r2) = spliceAfter v E r1 ++ spliceAfter v E r2.
Proof. unfold spliceAfter. apply bind_app. Qed.

Lemma spliceAfter_cons_eq v E r : spliceAfter v E (v :: r) = v :: E ++ spliceAfter v E r.
Proof. unfold spliceAfter. rewrite bind_cons. by rewrite decide_True. Qed.

Lemma spliceAfter_cons_ne v E x r :
  x ≠ v → spliceAfter v E (x :: r) = x :: spliceAfter v E r.
Proof. intros H. unfold spliceAfter. rewrite bind_cons. by rewrite decide_False. Qed.

Lemma spliceAfter_notin v E r : v ∉ r → spliceAfter v E r = r.
Proof.
  induction r as [|x r IH]; [done|]. intros [Hx Hr]%not_elem_of_cons.
  rewrite spliceAfter_cons_ne by done. by rewrite IH.
Qed.

Lemma spliceAfter_snoc v E r : v ∉ r → spliceAfter v E (r ++ [v]) = r ++ v :: E.
Proof.
  intros H. rewrite spliceAfter_app, spliceAfter_notin by done.
  rewrite spliceAfter_cons_eq. simpl. by rewrite app_nil_r.
Qed.

Lemma spliceAfter_nil v r : spliceAfter v [] r = r.
Proof.
  induction r as [|x r IH]; [done|].
  destruct (decide (x = v)) as [->|Hx].
  - rewrite spliceAfter_cons_eq. simpl. by rewrite IH.
  - rewrite spliceAfter_cons_ne by done. by rewrite IH.
Qed.

Lemma elem_of_spliceAfter v E r x :
  x ∈ spliceAfter v E r ↔ x ∈ r ∨ (v ∈ r ∧ x ∈ E).
Proof.
  induction r as [|y r IH].
  - simpl. set_solver.
  - destruct (decide (y = v)) as [->|Hy].
    + rewrite spliceAfter_cons_eq. set_solver.
    + rewrite spliceAfter_cons_ne by done. set_solver.
Qed.

Lemma NoDup_spliceAfter v E r :
  NoDup r → NoDup E → (∀ x, x ∈ E → x ∉ r) → NoDup (spliceAfter v E r).
Proof.
  intros Hr HE Hdis. induction r as [|y r IH]; [constructor|].
  apply NoDup_cons in Hr as [Hy Hr].
  assert (NoDup (spliceAfter v E r)) as IH'.
  { apply IH; [done|]. intros x Hx. specialize (Hdis x Hx). set_solver. }
  destruct (decide (y = v)) as [->|Hyv].
  - rewrite spliceAfter_cons_eq, spliceAfter_notin by done.
    apply NoDup_cons. split.
    + specialize (Hdis v). set_solver.
    + apply NoDup_app. split; [done|]. split; [|done].
      intros x Hx. specialize (Hdis x Hx). set_solver.
  - rewrite spliceAfter_cons_ne by done. apply NoDup_cons. split; [|done].
    rewrite elem_of_spliceAfter. intros [?|[_ HyE]]; [done|].
    specialize (Hdis y HyE). set_solver.
Qed.

Lemma join_removeAll E (s : list (list nat)) :
  mjoin (removeAll E s) = filter (λ x, x ∉ E) (mjoin s).
Proof.
  induction s as [|r s IH]; [done|].
  change (mjoin (removeAll E (r :: s)))
    with (filter (λ x, x ∉ E) r ++ mjoin (removeAll E s)).
  change (mjoin (r :: s)) with (r ++ mjoin s).
  by rewrite filter_app, IH.
Qed.

Lemma join_spliceAfter v E (s : list (list nat)) :
  mjoin (spliceAfter v E <$> s) = spliceAfter v E (mjoin s).
Proof.
  induction s as [|r s IH]; [done|].
  rewrite fmap_cons.
  change (mjoin (spliceAfter v E r :: (spliceAfter v E <$> s)))
    with (spliceAfter v E r ++ mjoin (spliceAfter v E <$> s)).
  change (mjoin (r :: s)) with (r ++ mjoin s).
  by rewrite spliceAfter_app, IH.
Qed.

Lemma join_alter_app E r0 (s : list (list nat)) :
  (r0 < length s)%nat → mjoin (alter (app E) r0 s) ≡ₚ E ++ mjoin s.
Proof.
  revert r0. induction s as [|r s IH]; intros r0 Hr0; [simpl in Hr0; lia|].
  destruct r0 as [|r0].
  - simpl. by rewrite (assoc_L (++)).
  - change (alter (app E) (S r0) (r :: s)) with (r :: alter (app E) r0 s).
    change (mjoin (r :: alter (app E) r0 s))
      with (r ++ mjoin (alter (app E) r0 s)).
    change (mjoin (r :: s)) with (r ++ mjoin s).
    rewrite IH by (simpl in Hr0; lia).
    rewrite !(assoc_L (++)). by rewrite (Permutation_app_comm r E).
Qed.

(** Moving a block of clients permutes the clients of the solution. *)
Lemma moved_perm anchor E (s : list (list nat)) :
  NoDup (mjoin s) → NoDup E → (∀ x, x ∈ E → x ∈ mjoin s) →
  anchorOk s anchor E →
  mjoin (moved anchor E s) ≡ₚ mjoin s.
Proof.
  intros Hnd HE Hsub Hanc.
  assert (NoDup (filter (λ x, x ∉ E) (mjoin s))) as Hndf
    by (by apply NoDup_filter).
  assert (E ++ filter (λ x, x ∉ E) (mjoin s) ≡ₚ mjoin s) as Hperm.
  { apply NoDup_Permutation; [|done|].
    - apply NoDup_app. split; [done|]. split; [|done].
      intros x Hx. rewrite list_elem_of_filter. tauto.
    - intros x. rewrite elem_of_app, list_elem_of_filter.
      destruct (decide (x ∈ E)); naive_solver. }
  unfold moved. destruct anchor as [v|r0|r0]; simpl in Hanc |- *; [| |done].
  - destruct Hanc as [Hv HvE].
    rewrite join_spliceAfter, join_removeAll.
    rewrite <- Hperm at 2.
    apply NoDup_Permutation.
    + apply NoDup_spliceAfter; [done|done|].
      intros x Hx. rewrite list_elem_of_filter. tauto.
    + apply NoDup_app. split; [done|]. split; [|done].
      intros x Hx. rewrite list_elem_of_filter. tauto.
    + intros x. rewrite elem_of_spliceAfter, elem_of_app, !list_elem_of_filter.
      naive_solver.
  - rewrite join_alter_app by (unfold removeAll; by rewrite length_fmap).
    by rewrite join_removeAll.
Qed.

Lemma removeAll_nil (s : list (list nat)) : removeAll [] s = s.
Proof.
  unfold removeAll. etrans; [|apply list_fmap_id].
  apply list_fmap_ext. intros i r _. simpl.
  apply filter_all_notin. intros x _. apply not_elem_of_nil.
Qed.

Lemma moved_nil anchor (s : list (list nat)) : moved anchor [] s = s.
Proof.
  unfold moved. rewrite removeAll_nil. destruct anchor as [v|r0|r0]; simpl.
  - etrans; [|apply list_fmap_id].
    apply list_fmap_ext. intros i r _. apply spliceAfter_nil.
  - by apply list_alter_id.
  - done.
Qed.

Lemma removeClient_removeAll u (s : list (list nat)) :
  removeClient u s = removeAll [u] s.
Proof.
  unfold removeClient, removeAll. apply list_fmap_ext. intros i r _.
  apply list_filter_iff. intros x. set_solver.
Qed.

(** One turn of the insert loop moves one client. *)
Lemma insertAfter_moved (s : list (list nat)) u anchor :
  anchorOk s anchor [u] →
  insertAfter s (ClientNode u) anchor = moved anchor [u] s.
Proof.
  intros Hanc. unfold moved, insertAfter.
  destruct anchor as [v|r0|r0]; simpl in Hanc |- *; [| |done].
  - destruct Hanc as [_ Hv]. rewrite decide_False by set_solver.
    by rewrite removeClient_removeAll.
  - by rewrite removeClient_removeAll.
Qed.

Lemma filter_notin_app_snoc (E : list nat) e (r : list nat) :
  filter (λ x, x ∉ E) (filter (λ x, x ∉ [e]) r)
  = filter (λ x, x ∉ E ++ [e]) r.
Proof.
  rewrite list_filter_filter. apply list_filter_iff. intros x. set_solver.
Qed.

Lemma splice_filter_splice v E e (r : list nat) :
  v ∉ E → v ≠ e → e ∉ E →
  spliceAfter v E (filter (λ x, x ∉ E) (spliceAfter v [e] (filter (λ x, x ∉ [e]) r)))
  = spliceAfter v (E ++ [e]) (filter (λ x, x ∉ E ++ [e]) r).
Proof.
  intros HvE Hve HeE. induction r as [|x r IH]; [done|].
  destruct (decide (x = e)) as [->|Hxe].
  { rewrite (filter_cons_False _ e) by set_solver.
    rewrite (filter_cons_False _ e) by set_solver. done. }
  rewrite (filter_cons_True (λ x, x ∉ [e])) by set_solver.
  destruct (decide (x = v)) as [->|Hxv].
  - rewrite (filter_cons_True (λ x, x ∉ E ++ [e])) by set_solver.
    rewrite !spliceAfter_cons_eq.
    change ([e] ++ ?l) with (e :: l).
    rewrite (filter_cons_True _ v) by done.
    rewrite (filter_cons_True _ e) by done.
    rewrite spliceAfter_cons_eq, spliceAfter_cons_ne by done.
    rewrite IH. by rewrite <- !(assoc_L (++)).
  - rewrite spliceAfter_cons_ne by done.
    destruct (decide (x ∈ E)) as [HxE|HxE].
    + rewrite (filter_cons_False _ x) by tauto.
      rewrite (filter_cons_False _ x) by set_solver. done.
    + rewrite (filter_cons_True _ x) by done.
      rewrite (filter_cons_True _ x) by set_solver.
      rewrite !spliceAfter_cons_ne by done. by rewrite IH.
Qed.

(** Moving a client and then a block is moving the block with the client
    behind it. *)
Lemma moved_snoc anchor E e (s : list (list nat)) :
  e ∉ E →
  match anchor with
  | ClientNode v => (v ∉ E) ∧ v ≠ e
  | _ => True
  end →
  moved anchor E (moved anchor [e] s) = moved anchor (E ++ [e]) s.
Proof.
  intros HeE Hanc. unfold moved.
  destruct anchor as [v|r0|r0]; simpl.
  - destruct Hanc as [HvE Hve]. unfold removeAll.
    rewrite <- !list_fmap_compose. apply list_fmap_ext. intros i r _. simpl.
    by apply splice_filter_splice.
  - apply list_eq. intros i. unfold removeAll.
    destruct (decide (i = r0)) as [->|Hi].
    + rewrite !list_lookup_alter_eq, !list_lookup_fmap, !list_lookup_alter_eq.
      rewrite !list_lookup_fmap. destruct (s !! r0) as [r|]; [|done]. simpl.
      f_equal. change ([e] ++ ?l) with (e :: l).
      rewrite (filter_cons_True _ e) by done.
      rewrite filter_notin_app_snoc. by rewrite <- (assoc_L (++)).
    + rewrite !list_lookup_alter_ne by done.
      rewrite !list_lookup_fmap, !list_lookup_alter_ne by done.
      rewrite !list_lookup_fmap. destruct (s !! i) as [r|]; [|done]. simpl.
      by rewrite filter_notin_app_snoc.
  - unfold removeAll. rewrite <- list_fmap_compose.
    apply list_fmap_ext. intros i r _. simpl. apply filter_notin_app_snoc.
Qed.

(** A block that the move does not touch still stands in its route. *)
Lemma moved_window anchor E (s : list (list nat)) ri (X W Y : list nat) :
  s !! ri = Some (X ++ W ++ Y) →
  (∀ x, x ∈ W → x ∉ E) →
  match anchor with
  | ClientNode v => v ∉ W
  | _ => True
  end →
  ∃ X' Y', moved anchor E s !! ri = Some (X' ++ W ++ Y').
Proof.
  intros Hwin Hdis Hanc. unfold moved, removeAll.
  assert (filter (λ x, x ∉ E) (X ++ W ++ Y)
          = filter (λ x, x ∉ E) X ++ W ++ filter (λ x, x ∉ E) Y) as Hf.
  { rewrite !filter_app. by rewrite (filter_all_notin E W). }
  destruct anchor as [v|r0|r0]; simpl.
  - exists (spliceAfter v E (filter (λ x, x ∉ E) X)),
           (spliceAfter v E (filter (λ x, x ∉ E) Y)).
    rewrite !list_lookup_fmap, Hwin. simpl. rewrite Hf.
    rewrite !spliceAfter_app. by rewrite (spliceAfter_notin v E W).
  - destruct (decide (ri = r0)) as [->|Hi].
    + exists (E ++ filter (λ x, x ∉ E) X), (filter (λ x, x ∉ E) Y).
      rewrite list_lookup_alter_eq, list_lookup_fmap, Hwin. simpl. rewrite Hf.
      by rewrite <- (assoc_L (++)).
    + exists (filter (λ x, x ∉ E) X), (filter (λ x, x ∉ E) Y).
      rewrite list_lookup_alter_ne by done.
      rewrite list_lookup_fmap, Hwin. simpl. by rewrite Hf.
  - exists (filter (λ x, x ∉ E) X), (filter (λ x, x ∉ E) Y).
    rewrite list_lookup_fmap, Hwin. simpl. by rewrite Hf.
Qed.

Lemma moved_length anchor E (s : list (list nat)) :
  length (moved anchor E s) = length s.
Proof.
  unfold moved, removeAll. destruct anchor; simpl;
    by rewrite ?length_alter, ?length_fmap.
Qed.

Lemma moved_fits N anchor E (s : list (list nat)) :
  NoDup (mjoin s) → NoDup E → (∀ x, x ∈ E → x ∈ mjoin s) →
  anchorOk s anchor E →
  fits N s → fits N (moved anchor E s).
Proof.
  intros Hnd HE Hsub Hanc. unfold fits.
  by rewrite (Permutation_length (moved_perm anchor E s Hnd HE Hsub Hanc)).
Qed.

Lemma moved_NoDup anchor E (s : list (list nat)) :
  NoDup (mjoin s) → NoDup E → (∀ x, x ∈ E → x ∈ mjoin s) →
  anchorOk s anchor E →
  NoDup (mjoin (moved anchor E s)).
Proof.
  intros Hnd HE Hsub Hanc.
  by rewrite (moved_perm anchor E s Hnd HE Hsub Hanc).
Qed.

Lemma window_elem_of (s : list (list nat)) ri (X W Y : list nat) x :
  s !! ri = Some (X ++ W ++ Y) → x ∈ W → x ∈ mjoin s.
Proof.
  intros Hwin Hx. apply list_elem_of_join. exists (X ++ W ++ Y).
  split; [set_solver|]. by eapply list_elem_of_lookup_2.
Qed.

Lemma window_NoDup (s : list (list nat)) ri (X W Y : list nat) :
  NoDup (mjoin s) → s !! ri = Some (X ++ W ++ Y) → NoDup (X ++ W ++ Y).
Proof. intros Hnd Hwin. by eapply NoDup_join_lookup. Qed.

(** The insert loop moves a block, last client first, behind the anchor. *)
Lemma insertLoop_moved (N K : nat) anchor :
  (1 ≤ N)%nat →
  ∀ (E : list nat) (s : list (list nat)) (uToInsert : Node) ri X Y,
    fits N s → NoDup (mjoin s) → length E = K →
    s !! ri = Some (X ++ E ++ Y) →
    anchorOk s anchor E →
    (∀ e, last E = Some e → uToInsert = ClientNode e) →
    Exchange.insertLoop K s uToInsert anchor = moved anchor E s.
Proof.
  intros HN. induction K as [|K IH];
    intros E s uToInsert ri X Y Hfit Hnd Hlen Hwin Hanc Hlast.
  - destruct E; [|done]. simpl. by rewrite moved_nil.
  - destruct (decide (E = [])) as [->|HE]; [done|].
    destruct (exists_last HE) as (E' & e & ->).
    rewrite length_app in Hlen. simpl in Hlen.
    rewrite (Hlast e) by apply last_snoc.
    cbn [Exchange.insertLoop].
    pose proof (window_NoDup s ri X (E' ++ [e]) Y Hnd Hwin) as HndR.
    rewrite !NoDup_app in HndR.
    assert (anchorOk s anchor [e]) as Hanc1.
    { destruct anchor; simpl in Hanc |- *; set_solver. }
    assert (anchorOk s anchor E') as Hanc2.
    { destruct anchor; simpl in Hanc |- *; set_solver. }
    assert (e ∈ mjoin s) as Hein.
    { eapply (window_elem_of s ri X (E' ++ [e]) Y); [done|set_solver]. }
    rewrite insertAfter_moved by done.
    set (s' := moved anchor [e] s).
    assert (NoDup (mjoin s')) as Hnd'.
    { apply moved_NoDup; [done|apply NoDup_singleton|set_solver|done]. }
    assert (fits N s') as Hfit'.
    { apply moved_fits; [done|apply NoDup_singleton|set_solver|done|done]. }
    destruct (moved_window anchor [e] s ri X E' ([e] ++ Y)) as (X' & Y' & Hwin').
    { by rewrite <- (assoc_L (++)) in Hwin. }
    { set_solver. }
    { destruct anchor; simpl in Hanc |- *; set_solver. }
    rewrite (IH E' s' _ ri X' Y'); try done.
    + apply moved_snoc; [set_solver|].
      destruct anchor; simpl in Hanc |- *; set_solver.
    + lia.
    + unfold s'.
      destruct anchor as [v|r0|r0]; unfold anchorOk in Hanc2 |- *;
        [|by rewrite moved_length|done].
      split; [|tauto].
      rewrite (moved_perm (ClientNode v) [e] s); [tauto|done|apply NoDup_singleton|set_solver|done].
    + intros e' He'.
      assert (E' ≠ []) as HE' by (by destruct E').
      destruct (exists_last HE') as (E'' & e'' & ->).
      rewrite last_snoc in He'. injection He' as <-.
      assert ((X ++ ((E'' ++ [e'']) ++ [e]) ++ Y) !! (S (length X + length E''))
              = Some e) as Hie.
      { rewrite lookup_app_r by lia. rewrite <- !(assoc_L (++)).
        rewrite lookup_app_r by lia. simpl.
        by replace (S (length X + length E'') - length X - length E'')%nat
          with 1%nat by lia. }
      rewrite (p_client N s ri _ _ e Hfit Hnd Hwin Hie).
      rewrite lookup_app_r by lia. rewrite <- !(assoc_L (++)).
      rewrite lookup_app_r by lia.
      by replace (length X + length E'' - length X - length E'')%nat
        with 0%nat by lia.
Qed.

(** ** [apply] as a move of blocks *)

(** A block ending in the anchor keeps its place too; the moved clients
    come to stand behind it. *)
Lemma moved_window_anchor v E (s : list (list nat)) ri (X W Y : list nat) :
  s !! ri = Some (X ++ (W ++ [v]) ++ Y) →
  (∀ x, x ∈ W ++ [v] → x ∉ E) → v ∉ W →
  ∃ X' Y', moved (ClientNode v) E s !! ri = Some (X' ++ (W ++ [v]) ++ Y').
Proof.
  intros Hwin Hdis Hv. unfold moved, removeAll. simpl.
  exists (spliceAfter v E (filter (λ x, x ∉ E) X)),
         (E ++ spliceAfter v E (filter (λ x, x ∉ E) Y)).
  rewrite !list_lookup_fmap, Hwin. simpl. f_equal.
  rewrite (filter_app _ X), (filter_app _ (W ++ [v]) Y).
  rewrite (filter_all_notin E (W ++ [v])) by done.
  rewrite !spliceAfter_app. rewrite (spliceAfter_notin v E W) by done.
  rewrite spliceAfter_cons_eq. simpl.
  rewrite app_nil_r, <- !(assoc_L (++)). done.
Qed.

Lemma seg_end_at (N K : nat) (s : list (list nat)) ri (A Sg B : list nat) :
  (1 ≤ K ≤ N)%nat → fits N s → NoDup (mjoin s) →
  s !! ri = Some (A ++ Sg ++ B) → length Sg = K →
  nodeAt s (route s (ClientNode (headD Sg)))
    (szSub (szAdd (position s (ClientNode (headD Sg))) (Z.of_nat K)) 1)
  = ClientNode (lastD Sg).
Proof.
  intros HK Hfit Hnd Hwin Hlen.
  pose proof (seg_end N K s ri A Sg B HK Hfit Hnd Hwin Hlen) as H.
  case_decide as HK1; [|done].
  rewrite (seg_route N K s ri A Sg B) by done.
  rewrite (seg_position N K s ri A Sg B) by done.
  pose proof (seg_bound N K s ri A Sg B HK Hfit Hwin Hlen).
  rewrite szAdd_small, szSub_small by lia.
  replace (Z.of_nat (length A) + 1 + Z.of_nat K - 1)
    with (Z.of_nat (length A) + 1) by lia.
  rewrite <- H.
  eapply nodeAt_client; [exact Hwin|].
  by apply (seg_head_lookup N K s ri A Sg B).
Qed.

Lemma mapClients_nil_pairs (s : list (list nat)) : mapClients (swapAll []) s = s.
Proof. apply mapClients_id. Qed.

(** Relocation: the whole segment of U is moved behind V. *)
Lemma apply_relocate_moved (N : nat) (s : list (list nat)) ru A SU B V :
  (1 ≤ N)%nat → fits N s → NoDup (mjoin s) →
  s !! ru = Some (A ++ SU ++ B) → length SU = N →
  anchorOk s V SU →
  Exchange.apply N 0 s (ClientNode (headD SU)) V = moved V SU s.
Proof.
  intros HN Hfit Hnd Hwin Hlen Hanc. unfold Exchange.apply.
  rewrite Nat.min_0_r, Nat.sub_0_r. cbn [Exchange.swapLoop].
  rewrite (decide_True (P := 0%nat = 0%nat)) by done.
  rewrite (seg_end N N s ru A SU B) by (done || lia).
  apply (insertLoop_moved N N V HN SU s _ ru A B); try done.
  intros e He. unfold lastD. by rewrite He.
Qed.

(** Exchange with M > 0: the extra clients of U's segment are moved behind
    the end of V's segment, then the first M clients of U's segment change
    places with V's segment. *)
Lemma apply_swap_moved (N M : nat) (s : list (list nat))
    ru A SU1 E B rv C SV D :
  (1 ≤ M ≤ N)%nat → fits N s → NoDup (mjoin s) →
  s !! ru = Some (A ++ (SU1 ++ E) ++ B) →
  s !! rv = Some (C ++ SV ++ D) →
  length SU1 = M → length E = (N - M)%nat → length SV = M →
  NoDup (SU1 ++ E ++ SV) →
  Exchange.apply N M s (ClientNode (headD (SU1 ++ E))) (ClientNode (headD SV))
  = mapClients (swapAll (zip SU1 SV)) (moved (ClientNode (lastD SV)) E s).
Proof.
  intros HM Hfit Hnd HU HV HlU HlE HlV Hdis. unfold Exchange.apply.
  assert (1 ≤ N)%nat as HN by lia.
  rewrite Nat.min_r by lia. rewrite (decide_False (P := M = 0%nat)) by lia.
  rewrite (seg_end N N s ru A (SU1 ++ E) B)
    by (done || lia || rewrite length_app; lia).
  rewrite (seg_end_at N M s rv C SV D) by done.
  assert (SV ≠ []) as HSV by (intros ->; simpl in HlV; lia).
  assert (SU1 ≠ []) as HSU1 by (intros ->; simpl in HlU; lia).
  destruct (exists_last HSV) as (SV' & v & HSVeq).
  assert (lastD SV = v) as Hv by (by rewrite HSVeq, lastD_snoc).
  rewrite Hv.
  pose proof Hdis as Hdis'. rewrite !NoDup_app in Hdis'.
  assert (anchorOk s (ClientNode v) E) as Hanc.
  { simpl. split.
    - eapply (window_elem_of s rv C SV D); [done|]. rewrite HSVeq. set_solver.
    - rewrite HSVeq in Hdis'. set_solver. }
  rewrite (insertLoop_moved N (N - M) (ClientNode v) HN E s _ ru (A ++ SU1) B);
    try done.
  2: { by rewrite <- !(assoc_L (++)) in HU |- *. }
  2: { intros e He.
       assert (E ≠ []) as HE by (by destruct E).
       rewrite lastD_app by done. unfold lastD. by rewrite He. }
  set (s1 := moved (ClientNode v) E s).
  assert (NoDup E) as HndE by tauto.
  assert (∀ x, x ∈ E → x ∈ mjoin s) as HEin.
  { intros x Hx. eapply (window_elem_of s ru A (SU1 ++ E) B); [done|set_solver]. }
  destruct (moved_window (ClientNode v) E s ru A SU1 (E ++ B)) as (A' & B' & HU').
  { by rewrite <- !(assoc_L (++)) in HU. }
  { set_solver. }
  { rewrite HSVeq in Hdis'. set_solver. }
  destruct (moved_window_anchor v E s rv C SV' D) as (C' & D' & HV').
  { by rewrite <- HSVeq. }
  { rewrite <- HSVeq. set_solver. }
  { assert (NoDup SV) as H by tauto. rewrite HSVeq in H.
    rewrite NoDup_app in H. set_solver. }
  rewrite <- HSVeq in HV'. fold s1 in HU', HV'.
  rewrite headD_app by done.
  rewrite <- HlU.
  apply (swapLoop_blocks N (length SU1) HN SU1 SV s1 _ _ ru A' B' rv C' D');
    try done.
  - by apply moved_fits.
  - by apply moved_NoDup.
  - lia.
  - apply NoDup_app. split; [tauto|]. split; [set_solver|tauto].
  - intros u Hu. unfold headD. by rewrite Hu.
  - intros v' Hv'. unfold headD. by rewrite Hv'.
Qed.

(** ** The routes after [apply] *)

Lemma lookup_mapClients_moved f v E (s : list (list nat)) (k : nat) :
  mapClients f (moved (ClientNode v) E s) !! k = movedRoute f v E <$> s !! k.
Proof.
  unfold mapClients, moved, removeAll, movedRoute. simpl.
  rewrite !list_lookup_fmap. by destruct (s !! k).
Qed.

Lemma movedRoute_app f v E r1 r2 :
  movedRoute f v E (r1 ++ r2) = movedRoute f v E r1 ++ movedRoute f v E r2.
Proof.
  unfold movedRoute. by rewrite filter_app, spliceAfter_app, fmap_app.
Qed.

Lemma movedRoute_plain f v E r :
  (∀ x, x ∈ r → x ∉ E) → v ∉ r → (∀ x, x ∈ r → f x = x) →
  movedRoute f v E r = r.
Proof.
  intros HE Hv Hf. unfold movedRoute.
  rewrite filter_all_notin, spliceAfter_notin by done.
  etrans; [|apply list_fmap_id]. apply list_fmap_ext.
  intros i x Hx. apply Hf. by eapply list_elem_of_lookup_2.
Qed.

Lemma movedRoute_moved f v E : movedRoute f v E E = [].
Proof. unfold movedRoute. by rewrite filter_all_in. Qed.

Lemma movedRoute_renamed f v E r :
  (∀ x, x ∈ r → x ∉ E) → v ∉ r → movedRoute f v E r = f <$> r.
Proof.
  intros HE Hv. unfold movedRoute.
  by rewrite filter_all_notin, spliceAfter_notin.
Qed.

Lemma movedRoute_anchor f v E r :
  (∀ x, x ∈ r → x ∉ E) → v ∉ r → v ∉ E →
  movedRoute f v E (r ++ [v]) = (f <$> r) ++ f v :: (f <$> E).
Proof.
  intros HE Hv HvE. unfold movedRoute.
  rewrite filter_all_notin by set_solver.
  rewrite spliceAfter_snoc by done. by rewrite fmap_app.
Qed.

Lemma fmap_fixed (f : nat → nat) (r : list nat) :
  (∀ x, x ∈ r → f x = x) → f <$> r = r.
Proof.
  intros Hf. etrans; [|apply list_fmap_id]. apply list_fmap_ext.
  intros i x Hx. apply Hf. by eapply list_elem_of_lookup_2.
Qed.

(** The cost after a change of one or two routes. *)
Lemma sumZ_insert (f : list nat → Z) (s : list (list nat)) k r r' :
  s !! k = Some r → sumZ (f <$> <[k:=r']> s) = sumZ (f <$> s) - f r + f r'.
Proof.
  revert k. induction s as [|r0 s IH]; intros k Hk; [done|].
  destruct k as [|k]; simpl in Hk.
  - injection Hk as ->. simpl. lia.
  - change (<[S k:=r']> (r0 :: s)) with (r0 :: <[k:=r']> s).
    rewrite !fmap_cons. cbn [sumZ]. rewrite (IH k Hk). lia.
Qed.

Lemma solutionCost_one data pm (s s' : list (list nat)) k r r' :
  length s' = length s → s !! k = Some r → s' !! k = Some r' →
  (∀ j, j ≠ k → s' !! j = s !! j) →
  solutionCost data pm s'
  = solutionCost data pm s - routeCost data pm r + routeCost data pm r'.
Proof.
  intros Hlen Hk Hk' Hother.
  assert (s' = <[k:=r']> s) as ->.
  { apply list_eq. intros j. destruct (decide (j = k)) as [->|Hj].
    - rewrite Hk'. symmetry. apply list_lookup_insert_eq.
      by eapply lookup_lt_Some.
    - rewrite list_lookup_insert_ne by done. by apply Hother. }
  unfold solutionCost. by apply sumZ_insert.
Qed.

Lemma solutionCost_two data pm (s s' : list (list nat)) k1 k2 r1 r2 r1' r2' :
  length s' = length s → k1 ≠ k2 →
  s !! k1 = Some r1 → s !! k2 = Some r2 →
  s' !! k1 = Some r1' → s' !! k2 = Some r2' →
  (∀ j, j ≠ k1 → j ≠ k2 → s' !! j = s !! j) →
  solutionCost data pm s'
  = solutionCost data pm s - routeCost data pm r1 - routeCost data pm r2
    + routeCost data pm r1' + routeCost data pm r2'.
Proof.
  intros Hlen Hne H1 H2 H1' H2' Hother.
  rewrite (solutionCost_one data pm (<[k2:=r2']> s) s' k1 r1 r1').
  - rewrite (solutionCost_one data pm s (<[k2:=r2']> s) k2 r2 r2'); [lia| | | |].
    + by rewrite length_insert.
    + done.
    + apply list_lookup_insert_eq. by eapply lookup_lt_Some.
    + intros j Hj. by rewrite list_lookup_insert_ne.
  - by rewrite length_insert.
  - by rewrite list_lookup_insert_ne.
  - done.
  - intros j Hj. destruct (decide (j = k2)) as [->|Hj2].
    + rewrite H2'. symmetry. apply list_lookup_insert_eq.
      by eapply lookup_lt_Some.
    + rewrite list_lookup_insert_ne by done. by apply Hother.
Qed.
(** ** [int] arithmetic without overflow *)

Lemma wrapInt_small z : - 2 ^ 31 ≤ z < 2 ^ 31 → wrapInt z = z.
Proof. intros Hz. unfold wrapInt. rewrite Z.mod_small; lia. Qed.

Lemma wrapInt_range z : - 2 ^ 31 ≤ wrapInt z < 2 ^ 31.
Proof.
  unfold wrapInt.
  pose proof (Z.mod_pos_bound (z + 2 ^ 31) (2 ^ 32) ltac:(lia)). lia.
Qed.

(** [wrapInt] is compatible with sums and differences: an operand may be
    wrapped or not. *)
Lemma wrapInt_add_l a b : wrapInt (wrapInt a + b) = wrapInt (a + b).
Proof.
  unfold wrapInt. f_equal.
  replace ((a + 2 ^ 31) mod 2 ^ 32 - 2 ^ 31 + b + 2 ^ 31)
    with ((a + 2 ^ 31) mod 2 ^ 32 + b) by lia.
  rewrite Zplus_mod_idemp_l. f_equal; lia.
Qed.

Lemma wrapInt_add_r a b : wrapInt (a + wrapInt b) = wrapInt (a + b).
Proof. rewrite (Z.add_comm a), wrapInt_add_l. f_equal; lia. Qed.

Lemma wrapInt_sub_l a b : wrapInt (wrapInt a - b) = wrapInt (a - b).
Proof.
  replace (wrapInt a - b) with (wrapInt a + - b) by lia.
  rewrite wrapInt_add_l. f_equal; lia.
Qed.

Lemma wrapInt_sub_r a b : wrapInt (a - wrapInt b) = wrapInt (a - b).
Proof.
  unfold wrapInt.
  change (2 ^ 32) with 4294967296. change (2 ^ 31) with 2147483648.
  replace (a - ((b + 2147483648) mod 4294967296 - 2147483648) + 2147483648)
    with ((a + 4294967296) - (b + 2147483648) mod 4294967296) by lia.
  rewrite Zminus_mod_idemp_r.
  by replace (a + 4294967296 - (b + 2147483648))
    with (a - b + 2147483648) by lia.
Qed.

(** ** Data that is not negative *)

Lemma dist_nonneg data i j : nonnegData data → 0 ≤ dist data i j.
Proof.
  intros [Hd _]. unfold dist.
  destruct (distMatrix data !! i) as [row|] eqn:Hrow; simpl; [|done].
  destruct (row !! j) as [d|] eqn:Hj; simpl; [|done].
  rewrite Forall_forall in Hd.
  specialize (Hd row (list_elem_of_lookup_2 _ _ _ Hrow)).
  rewrite Forall_forall in Hd. apply Hd. by eapply list_elem_of_lookup_2.
Qed.

Lemma distPath_nonneg data l : nonnegData data → 0 ≤ distPath data l.
Proof.
  intros Hd. induction l as [|i [|j l] IH]; [done..|].
  change (0 ≤ dist data i j + distPath data (j :: l)).
  pose proof (dist_nonneg data i j Hd). lia.
Qed.

Lemma demand_nonneg data c : nonnegData data → 0 ≤ demand (client data c).
Proof.
  intros [_ Hc]. unfold client.
  destruct (clients data !! c) as [x|] eqn:Hx; simpl; [|done].
  rewrite Forall_forall in Hc. apply Hc. by eapply list_elem_of_lookup_2.
Qed.

Lemma demandSum_nonneg data l : nonnegData data → 0 ≤ demandSum data l.
Proof.
  intros Hd. induction l as [|c l IH]; [done|].
  change (0 ≤ demand (client data c) + demandSum data l).
  pose proof (demand_nonneg data c Hd). lia.
Qed.

Lemma loadPenalty_nonneg data pm x :
  0 ≤ capacityPenalty pm → 0 ≤ loadPenalty data pm x.
Proof. intros H. unfold loadPenalty. apply Z.mul_nonneg_nonneg; lia. Qed.

Lemma twPenalty_nonneg data pm l :
  0 ≤ timeWarpPenalty pm →
  0 ≤ twPenalty pm (TWS.totalTimeWarp (TWS.ofList data l)).
Proof.
  intros H. unfold twPenalty, TWS.totalTimeWarp.
  apply Z.mul_nonneg_nonneg; [apply ofList_timeWarp_nonneg|done].
Qed.

Lemma routeCost_nonneg data pm r :
  nonnegData data → 0 ≤ capacityPenalty pm → 0 ≤ timeWarpPenalty pm →
  0 ≤ routeCost data pm r.
Proof.
  intros Hd Hcp Htp. unfold routeCost, routeDistance, routeTimeWarp.
  pose proof (distPath_nonneg data (routeNodes r) Hd).
  pose proof (loadPenalty_nonneg data pm (routeLoad data r) Hcp).
  pose proof (twPenalty_nonneg data pm (routeNodes r) Htp). lia.
Qed.

(** One or two terms of a sum of non-negative terms are at most the sum. *)
Lemma sumZ_lookup_le {A} (f : A → Z) (l : list A) i x :
  (∀ y, 0 ≤ f y) → l !! i = Some x → f x ≤ sumZ (f <$> l).
Proof.
  intros Hf. revert i. induction l as [|y l IH]; intros i Hi; [done|].
  rewrite fmap_cons. cbn [sumZ].
  pose proof (sumZ_nonneg (f <$> l)) as Hnn.
  destruct i as [|i]; simpl in Hi.
  - injection Hi as ->.
    assert (0 ≤ sumZ (f <$> l)); [|lia].
    apply Hnn, Forall_fmap, Forall_forall. intros; apply Hf.
  - specialize (IH i Hi). specialize (Hf y). lia.
Qed.

Lemma sumZ_lookup2_le {A} (f : A → Z) (l : list A) i j x y :
  (∀ z, 0 ≤ f z) → i ≠ j → l !! i = Some x → l !! j = Some y →
  f x + f y ≤ sumZ (f <$> l).
Proof.
  intros Hf. revert i j. induction l as [|z l IH]; intros i j Hij Hi Hj; [done|].
  rewrite fmap_cons. cbn [sumZ].
  destruct i as [|i], j as [|j]; simpl in Hi, Hj; try done.
  - injection Hi as ->. pose proof (sumZ_lookup_le f l j y Hf Hj). lia.
  - injection Hj as ->. pose proof (sumZ_lookup_le f l i x Hf Hi). lia.
  - assert (i ≠ j) as Hij' by lia.
    specialize (IH i j Hij' Hi Hj). specialize (Hf z). lia.
Qed.

(** What [intSafe] gives for the routes a move changes. *)
Lemma intSafe_one data pm (s s' : list (list nat)) k r r' :
  intSafe data pm s s' → s !! k = Some r → s' !! k = Some r' →
  demandSum data r < 2 ^ 31
  ∧ routeCost data pm r < 2 ^ 31
  ∧ routeCost data pm r' < 2 ^ 31.
Proof.
  intros (Hd & Hcp & Htp & HL & Hb & Ha) Hk Hk'.
  pose proof (sumZ_lookup_le (routeLoad data) s k r
                (λ y, demandSum_nonneg data y Hd) Hk) as H1.
  pose proof (sumZ_lookup_le (routeCost data pm) s k r
                (λ y, routeCost_nonneg data pm y Hd Hcp Htp) Hk) as H2.
  pose proof (sumZ_lookup_le (routeCost data pm) s' k r'
                (λ y, routeCost_nonneg data pm y Hd Hcp Htp) Hk') as H3.
  unfold totalLoad, solutionCost, routeLoad in *. lia.
Qed.

Lemma intSafe_two data pm (s s' : list (list nat)) k1 k2 r1 r2 r1' r2' :
  intSafe data pm s s' → k1 ≠ k2 →
  s !! k1 = Some r1 → s !! k2 = Some r2 →
  s' !! k1 = Some r1' → s' !! k2 = Some r2' →
  demandSum data r1 + demandSum data r2 < 2 ^ 31
  ∧ routeCost data pm r1 + routeCost data pm r2 < 2 ^ 31
  ∧ routeCost data pm r1' + routeCost data pm r2' < 2 ^ 31.
Proof.
  intros (Hd & Hcp & Htp & HL & Hb & Ha) Hne H1 H2 H1' H2'.
  pose proof (sumZ_lookup2_le (routeLoad data) s k1 k2 r1 r2
                (λ y, demandSum_nonneg data y Hd) Hne H1 H2) as G1.
  pose proof (sumZ_lookup2_le (routeCost data pm) s k1 k2 r1 r2
                (λ y, routeCost_nonneg data pm y Hd Hcp Htp) Hne H1 H2) as G2.
  pose proof (sumZ_lookup2_le (routeCost data pm) s' k1 k2 r1' r2'
                (λ y, routeCost_nonneg data pm y Hd Hcp Htp) Hne H1' H2') as G3.
  unfold totalLoad, solutionCost, routeLoad in *. lia.
Qed.

(** Recording a fact once. *)
Ltac learn H :=
  let T := type of H in
  lazymatch goal with
  | _ : T |- _ => fail
  | _ => pose proof H
  end.

(** Every distance, load and penalty term of the goal is not negative. *)
Ltac pose_nonneg Hd Hcp Htp :=
  repeat match goal with
  | |- context [dist ?d ?a ?b] => learn (dist_nonneg d a b Hd)
  | |- context [distPath ?d ?l] => learn (distPath_nonneg d l Hd)
  | |- context [demandSum ?d ?l] => learn (demandSum_nonneg d l Hd)
  | |- context [loadPenalty ?d ?pm ?x] => learn (loadPenalty_nonneg d pm x Hcp)
  | |- context [twPenalty ?pm (TWS.totalTimeWarp (TWS.ofList ?d ?l))] =>
      learn (twPenalty_nonneg d pm l Htp)
  end.

(** Removing the wrap-around of the [int] operations of the goal, from the
    inside, where the facts at hand bound the operands. *)
Ltac unwrap_int :=
  unfold intAdd, intSub;
  repeat match goal with
  | |- context [wrapInt ?z] =>
      lazymatch z with
      | context [wrapInt _] => fail
      | _ => rewrite (wrapInt_small z) by lia
      end
  end.

(** The same inside the arguments of [loadPenalty] only. *)
Ltac unwrap_loads :=
  unfold intAdd, intSub;
  repeat match goal with
  | |- context [loadPenalty _ _ ?x] =>
      match x with
      | context [wrapInt ?z] =>
          lazymatch z with
          | context [wrapInt _] => fail
          | _ => rewrite (wrapInt_small z) by lia
          end
      end
  end.

(** [intSafe] on concrete data, by computation. *)
Ltac int_safe_by_computation :=
  unfold intSafe, nonnegData;
  repeat split; try (repeat constructor; done); vm_compute; done.

(** Moving the wrap-around of the operands of a sum or difference into the
    wrap-around of the result, from the inside. *)
Ltac push_wrap :=
  unfold intAdd, intSub;
  repeat match goal with
  | |- context [wrapInt (wrapInt ?a + ?b)] =>
      lazymatch a with
      | context [wrapInt _] => fail
      | _ => rewrite (wrapInt_add_l a b)
      end
  | |- context [wrapInt (wrapInt ?a - ?b)] =>
      lazymatch a with
      | context [wrapInt _] => fail
      | _ => rewrite (wrapInt_sub_l a b)
      end
  | |- context [wrapInt (?a + wrapInt ?b)] =>
      lazymatch b with
      | context [wrapInt _] => fail
      | _ => rewrite (wrapInt_add_r a b)
      end
  | |- context [wrapInt (?a - wrapInt ?b)] =>
      lazymatch b with
      | context [wrapInt _] => fail
      | _ => rewrite (wrapInt_sub_r a b)
      end
  end.

(** ** Exchange between two routes *)

#[local] Arguments position : simpl never.
#[local] Arguments route : simpl never.
#[local] Arguments n : simpl never.
#[local] Arguments p : simpl never.
#[local] Arguments size : simpl never.
#[local] Arguments wrap : simpl never.

Lemma load_lookup data (s : list (list nat)) ri r :
  s !! ri = Some r → load data s ri = demandSum data r.
Proof. intros H. unfold load, routeLoad. by rewrite (routeAt_lookup s ri r H). Qed.

Lemma timeWarp_lookup data (s : list (list nat)) ri r :
  s !! ri = Some r → timeWarp data s ri = routeTimeWarp data r.
Proof. intros H. unfold timeWarp. by rewrite (routeAt_lookup s ri r H). Qed.

Lemma take_drop_lengths (l : list nat) (M N : nat) :
  length l = N → (M ≤ N)%nat →
  length (take M l) = M ∧ length (drop M l) = (N - M)%nat.
Proof. intros Hl HM. rewrite length_take, length_drop. lia. Qed.

(** Exchange with M > 0 between two routes. *)
Lemma apply_cross_swap (N M : nat) (s : list (list nat))
    ru A SU B rv C SV D :
  (1 ≤ M ≤ N)%nat → fits N s → NoDup (mjoin s) → ru ≠ rv →
  s !! ru = Some (A ++ SU ++ B) → s !! rv = Some (C ++ SV ++ D) →
  length SU = N → length SV = M →
  let s' := Exchange.apply N M s (ClientNode (headD SU)) (ClientNode (headD SV)) in
  length s' = length s
  ∧ s' !! ru = Some (A ++ SV ++ B)
  ∧ s' !! rv = Some (C ++ SU ++ D)
  ∧ ∀ k, k ≠ ru → k ≠ rv → s' !! k = s !! k.
Proof.
  intros HM Hfit Hnd Hne HU HV HlU HlV s'.
  destruct (take_drop_lengths SU M N HlU) as [Hl1 HlE]; [lia|].
  set (SU1 := take M SU) in *. set (E := drop M SU) in *.
  assert (SU = SU1 ++ E) as HSU by (symmetry; apply take_drop).
  clearbody SU1 E. subst SU.
  assert (SV ≠ []) as HSV by (intros ->; simpl in HlV; lia).
  destruct (exists_last HSV) as (SV' & v & ->).
  pose proof (window_NoDup s ru A (SU1 ++ E) B Hnd HU) as HndU.
  pose proof (window_NoDup s rv C (SV' ++ [v]) D Hnd HV) as HndV.
  assert (∀ x, x ∈ A ++ (SU1 ++ E) ++ B → x ∉ C ++ (SV' ++ [v]) ++ D) as Hdis.
  { intros x. by apply (routes_disjoint s ru rv). }
  rewrite !NoDup_app in HndU, HndV.
  assert (NoDup (SU1 ++ E ++ SV' ++ [v])) as Hblocks.
  { rewrite !NoDup_app. set_solver. }
  unfold s'.
  rewrite (apply_swap_moved N M s ru A SU1 E B rv C (SV' ++ [v]) D); try done.
  rewrite lastD_snoc.
  set (Π := swapAll (zip SU1 (SV' ++ [v]))).
  assert (length SU1 = length (SV' ++ [v])) as Hlen by lia.
  assert (NoDup (SU1 ++ SV' ++ [v])) as HndSS.
  { rewrite !NoDup_app. set_solver. }
  pose proof (swapAll_block SU1 (SV' ++ [v]) Hlen HndSS) as HΠ1.
  pose proof (swapAll_block_r SU1 (SV' ++ [v]) Hlen HndSS) as HΠ2.
  fold Π in HΠ1, HΠ2.
  assert (∀ x, x ∉ SU1 → x ∉ SV' ++ [v] → Π x = x) as HΠ3.
  { intros x ? ?. by apply swapAll_other. }
  split; [|split; [|split]].
  - unfold mapClients. by rewrite length_fmap, moved_length.
  - rewrite lookup_mapClients_moved, HU. simpl. f_equal.
    rewrite !movedRoute_app.
    rewrite (movedRoute_plain Π v E A) by set_solver.
    rewrite (movedRoute_renamed Π v E SU1) by set_solver.
    rewrite movedRoute_moved.
    rewrite (movedRoute_plain Π v E B) by set_solver.
    rewrite HΠ1. by rewrite app_nil_r.
  - rewrite lookup_mapClients_moved, HV. simpl. f_equal.
    rewrite (movedRoute_app _ _ _ C), (movedRoute_app _ _ _ (SV' ++ [v]) D).
    rewrite (movedRoute_plain Π v E C) by set_solver.
    rewrite (movedRoute_anchor Π v E SV') by set_solver.
    rewrite (movedRoute_plain Π v E D) by set_solver.
    rewrite fmap_app in HΠ2. simpl in HΠ2.
    rewrite (fmap_fixed Π E) by set_solver.
    replace ((Π <$> SV') ++ Π v :: E) with (((Π <$> SV') ++ [Π v]) ++ E)
      by (by rewrite <- (assoc_L (++))).
    by rewrite HΠ2.
  - intros k Hku Hkv. rewrite lookup_mapClients_moved.
    destruct (s !! k) as [r|] eqn:Hk; [|done]. simpl. f_equal.
    assert (∀ x, x ∈ r → x ∉ A ++ (SU1 ++ E) ++ B) as Hd1.
    { intros x. by apply (routes_disjoint s k ru). }
    assert (∀ x, x ∈ r → x ∉ C ++ (SV' ++ [v]) ++ D) as Hd2.
    { intros x. by apply (routes_disjoint s k rv). }
    apply movedRoute_plain; set_solver.
Qed.

#[local] Arguments wrap : simpl never.
#[local] Arguments TWS.ofList : simpl never.
#[local] Arguments TWS.mergeAll : simpl never.
#[local] Arguments TWS.merge : simpl never.
#[local] Arguments distPath : simpl never.
#[local] Arguments demandSum : simpl never.

Lemma routeCost_blocks data pm (A S B : list nat) :
  S ≠ [] →
  routeCost data pm (A ++ S ++ B)
  = distPath data (0%nat :: A) + dist data (lastD (0%nat :: A)) (headD S)
    + distPath data S + dist data (lastD S) (headD (B ++ [0%nat]))
    + distPath data (B ++ [0%nat])
    + loadPenalty data pm (demandSum data (A ++ S ++ B))
    + twPenalty pm (TWS.totalTimeWarp
        (TWS.ofList data ((0%nat :: A) ++ S ++ (B ++ [0%nat])))).
Proof.
  intros HS. unfold routeCost, routeDistance, routeLoad, routeTimeWarp.
  rewrite routeNodes_blocks.
  rewrite (distPath_app data (0%nat :: A) (S ++ B ++ [0%nat]))
    by (done || by destruct S).
  rewrite (distPath_app data S (B ++ [0%nat])) by (done || by destruct B).
  rewrite (headD_app S) by done. lia.
Qed.

Lemma evalSwapMove_cross data pm (N M : nat) (s : list (list nat))
    ru A SU B rv C SV D d :
  (1 ≤ M ≤ N)%nat → fits N s → NoDup (mjoin s) → ru ≠ rv →
  s !! ru = Some (A ++ SU ++ B) → s !! rv = Some (C ++ SV ++ D) →
  length SU = N → length SV = M →
  intSafe data pm s
    (Exchange.apply N M s (ClientNode (headD SU)) (ClientNode (headD SV))) →
  Exchange.evalSwapMove data pm N M s
    (ClientNode (headD SU)) (ClientNode (headD SV)) = (Complete, d) →
  d = solutionCost data pm
        (Exchange.apply N M s (ClientNode (headD SU)) (ClientNode (headD SV)))
      - solutionCost data pm s.
Proof.
  intros HM Hfit Hnd Hne HU HV HlU HlV Hsafe Heval.
  assert (1 ≤ N ≤ N)%nat as HN by lia.
  assert (SU ≠ []) as HSU by (intros ->; simpl in HlU; lia).
  assert (SV ≠ []) as HSV by (intros ->; simpl in HlV; lia).
  destruct (apply_cross_swap N M s ru A SU B rv C SV D)
    as (Hlen & HU' & HV' & Hother); try done.
  rewrite (solutionCost_two data pm s _ ru rv _ _ _ _ Hlen Hne HU HV HU' HV' Hother).
  unfold Exchange.evalSwapMove in Heval. cbv zeta in Heval.
  rewrite (seg_end N N s ru A SU B) in Heval by done.
  rewrite (seg_end N M s rv C SV D) in Heval by done.
  rewrite (seg_route N N s ru A SU B) in Heval by done.
  rewrite (seg_route N M s rv C SV D) in Heval by done.
  rewrite decide_True in Heval by done.
  rewrite (seg_distAround data N N s ru A SU B) in Heval by done.
  rewrite (seg_distAround data N M s rv C SV D) in Heval by done.
  rewrite (seg_distInner data N N s ru A SU B) in Heval by done.
  rewrite (seg_distInner data N M s rv C SV D) in Heval by done.
  rewrite (seg_loadInner data N N s ru A SU B) in Heval by done.
  rewrite (seg_loadInner data N M s rv C SV D) in Heval by done.
  rewrite (seg_twInner data N N s ru A SU B) in Heval by done.
  rewrite (seg_twInner data N M s rv C SV D) in Heval by done.
  rewrite (seg_twBefore data N N s ru A SU B) in Heval by done.
  rewrite (seg_twBefore data N M s rv C SV D) in Heval by done.
  rewrite (seg_twAfter data N N s ru A SU B) in Heval by done.
  rewrite (seg_twAfter data N M s rv C SV D) in Heval by done.
  destruct (seg_pred N N s ru A SU B) as (HpU & _ & _); try done.
  destruct (seg_pred N M s rv C SV D) as (HpV & _ & _); try done.
  destruct (seg_succ N N s ru A SU B) as (HnU & _ & _); try done.
  destruct (seg_succ N M s rv C SV D) as (HnV & _ & _); try done.
  rewrite HpU, HpV, HnU, HnV in Heval.
  rewrite (load_lookup data s ru _ HU), (load_lookup data s rv _ HV) in Heval.
  rewrite (timeWarp_lookup data s ru _ HU), (timeWarp_lookup data s rv _ HV) in Heval.
  cbn [clientOf] in Heval.
  rewrite !ofList_app3 in Heval by first [done | by destruct B | by destruct D].
  destruct (_ && _) in Heval; [done|].
  injection Heval as <-.
  destruct (intSafe_two data pm s _ ru rv _ _ _ _ Hsafe Hne HU HV HU' HV')
    as (HL & Hb & Ha).
  destruct Hsafe as (Hd & Hcp & Htp & _).
  rewrite !routeCost_blocks in Hb, Ha by done.
  rewrite !routeCost_blocks by done.
  unfold routeTimeWarp. rewrite !routeNodes_blocks.
  rewrite <- !app_comm_cons in Hb, Ha. rewrite <- !app_comm_cons.
  pose proof (demandSum_nonneg data A Hd). pose proof (demandSum_nonneg data SU Hd).
  pose proof (demandSum_nonneg data B Hd). pose proof (demandSum_nonneg data C Hd).
  pose proof (demandSum_nonneg data SV Hd). pose proof (demandSum_nonneg data D Hd).
  assert (demandSum data (A ++ SU ++ B)
          = demandSum data A + demandSum data SU + demandSum data B) as HdU
    by (rewrite !demandSum_app; lia).
  assert (demandSum data (C ++ SV ++ D)
          = demandSum data C + demandSum data SV + demandSum data D) as HdV
    by (rewrite !demandSum_app; lia).
  unwrap_loads.
  replace (demandSum data (A ++ SU ++ B)
           - (demandSum data SU - demandSum data SV))
    with (demandSum data (A ++ SV ++ B))
    by (rewrite !demandSum_app; lia).
  replace (demandSum data (C ++ SV ++ D)
           + (demandSum data SU - demandSum data SV))
    with (demandSum data (C ++ SU ++ D))
    by (rewrite !demandSum_app; lia).
  pose_nonneg Hd Hcp Htp. unwrap_int. lia.
Qed.

(** ** Exchange within one route *)

(** ** Blocks of a duplicate-free route *)

Lemma submseteq_NoDup (l k : list nat) : l ⊆+ k → NoDup k → NoDup l.
Proof.
  intros (k' & Hk)%submseteq_Permutation Hnd.
  rewrite Hk in Hnd. by apply NoDup_app in Hnd as (? & _ & _).
Qed.

Lemma submseteq_disjoint (X Y k : list nat) :
  X ++ Y ⊆+ k → NoDup k → ∀ x, x ∈ X → x ∉ Y.
Proof.
  intros Hsub Hnd. apply (submseteq_NoDup _ _ Hsub) in Hnd.
  by apply NoDup_app in Hnd as (_ & ? & _).
Qed.

Lemma submseteq_notin (x : nat) (Y k : list nat) :
  x :: Y ⊆+ k → NoDup k → x ∉ Y.
Proof.
  intros Hsub Hnd. apply (submseteq_NoDup _ _ Hsub) in Hnd.
  by apply NoDup_cons in Hnd as [? _].
Qed.

(** Facts about the blocks of a route [H : NoDup (… ++ … ++ …)]. *)
Ltac blk H :=
  solve [ eapply submseteq_NoDup; [|exact H]; solve_submseteq
        | eapply submseteq_disjoint; [|exact H]; solve_submseteq
        | eapply submseteq_notin; [|exact H]; solve_submseteq ].

(** A route that shares no client with the route of the move is left as it
    is. *)
Lemma movedRoute_other f v E (W r : list nat) :
  (∀ x, x ∈ r → x ∉ W) → (∀ x, x ∈ E → x ∈ W) → v ∈ W →
  (∀ x, x ∉ W → f x = x) →
  movedRoute f v E r = r.
Proof.
  intros Hr HE Hv Hf. apply movedRoute_plain.
  - intros x Hx HxE. by apply (Hr x Hx), HE.
  - intros Hvr. by apply (Hr v Hvr).
  - intros x Hx. by apply Hf, Hr.
Qed.

(** Exchange with M > 0 within one route, U's segment first. *)
Lemma apply_same_swap_fwd (N M : nat) (s : list (list nat))
    ru A SU Mid SV D :
  (1 ≤ M ≤ N)%nat → fits N s → NoDup (mjoin s) →
  s !! ru = Some (A ++ SU ++ Mid ++ SV ++ D) →
  length SU = N → length SV = M →
  let s' := Exchange.apply N M s (ClientNode (headD SU)) (ClientNode (headD SV)) in
  length s' = length s
  ∧ s' !! ru = Some (A ++ SV ++ Mid ++ SU ++ D)
  ∧ ∀ k, k ≠ ru → s' !! k = s !! k.
Proof.
  intros HM Hfit Hnd HU HlU HlV s'.
  destruct (take_drop_lengths SU M N HlU) as [Hl1 HlE]; [lia|].
  set (SU1 := take M SU) in *. set (E := drop M SU) in *.
  assert (SU = SU1 ++ E) as HSU by (symmetry; apply take_drop).
  clearbody SU1 E. subst SU.
  assert (SV ≠ []) as HSV by (intros ->; simpl in HlV; lia).
  destruct (exists_last HSV) as (SV' & v & ->).
  pose proof (NoDup_join_lookup s ru _ Hnd HU) as Hndr.
  unfold s'.
  rewrite (apply_swap_moved N M s ru A SU1 E (Mid ++ (SV' ++ [v]) ++ D)
             ru (A ++ (SU1 ++ E) ++ Mid) (SV' ++ [v]) D); try done.
  2: { rewrite HU. f_equal. by rewrite <- !(assoc_L (++)). }
  2: { blk Hndr. }
  rewrite lastD_snoc.
  set (Π := swapAll (zip SU1 (SV' ++ [v]))).
  assert (length SU1 = length (SV' ++ [v])) as Hlen by lia.
  assert (NoDup (SU1 ++ SV' ++ [v])) as HndSS by blk Hndr.
  pose proof (swapAll_block SU1 (SV' ++ [v]) Hlen HndSS) as HΠ1.
  pose proof (swapAll_block_r SU1 (SV' ++ [v]) Hlen HndSS) as HΠ2.
  fold Π in HΠ1, HΠ2.
  assert (∀ x, x ∉ SU1 → x ∉ SV' ++ [v] → Π x = x) as HΠ3.
  { intros x ? ?. by apply swapAll_other. }
  assert (∀ r : list nat, (∀ x, x ∈ r → x ∉ SU1) → (∀ x, x ∈ r → x ∉ SV' ++ [v]) →
            ∀ x, x ∈ r → Π x = x) as HΠ4.
  { intros r H1 H2 x Hx. apply HΠ3; [by apply H1|by apply H2]. }
  split; [|split].
  - unfold mapClients. by rewrite length_fmap, moved_length.
  - rewrite lookup_mapClients_moved, HU. simpl. f_equal.
    rewrite (movedRoute_app _ _ _ A).
    rewrite (movedRoute_app _ _ _ (SU1 ++ E)).
    rewrite (movedRoute_app _ _ _ SU1 E).
    rewrite (movedRoute_app _ _ _ Mid).
    rewrite (movedRoute_app _ _ _ (SV' ++ [v]) D).
    rewrite (movedRoute_plain Π v E A)
      by first [blk Hndr | apply HΠ4; blk Hndr].
    rewrite (movedRoute_renamed Π v E SU1) by blk Hndr.
    rewrite movedRoute_moved.
    rewrite (movedRoute_plain Π v E Mid)
      by first [blk Hndr | apply HΠ4; blk Hndr].
    rewrite (movedRoute_anchor Π v E SV') by blk Hndr.
    rewrite (movedRoute_plain Π v E D)
      by first [blk Hndr | apply HΠ4; blk Hndr].
    rewrite HΠ1. rewrite fmap_app in HΠ2. simpl in HΠ2.
    rewrite (fmap_fixed Π E) by (apply HΠ4; blk Hndr).
    replace ((Π <$> SV') ++ Π v :: E) with (((Π <$> SV') ++ [Π v]) ++ E)
      by (by rewrite <- (assoc_L (++))).
    rewrite HΠ2. by rewrite app_nil_r, <- !(assoc_L (++)).
  - intros k Hku. rewrite lookup_mapClients_moved.
    destruct (s !! k) as [r|] eqn:Hk; [|done]. simpl. f_equal.
    apply (movedRoute_other Π v E (A ++ (SU1 ++ E) ++ Mid ++ (SV' ++ [v]) ++ D)).
    + intros x. by apply (routes_disjoint s k ru).
    + intros x Hx. rewrite !elem_of_app. tauto.
    + rewrite !elem_of_app, list_elem_of_singleton. tauto.
    + intros x Hx. rewrite !not_elem_of_app in Hx.
      apply HΠ3; [tauto|]. rewrite not_elem_of_app. tauto.
Qed.

(** Exchange with M > 0 within one route, V's segment first. *)
Lemma apply_same_swap_bwd (N M : nat) (s : list (list nat))
    ru C SV Mid SU B :
  (1 ≤ M ≤ N)%nat → fits N s → NoDup (mjoin s) →
  s !! ru = Some (C ++ SV ++ Mid ++ SU ++ B) →
  length SU = N → length SV = M →
  let s' := Exchange.apply N M s (ClientNode (headD SU)) (ClientNode (headD SV)) in
  length s' = length s
  ∧ s' !! ru = Some (C ++ SU ++ Mid ++ SV ++ B)
  ∧ ∀ k, k ≠ ru → s' !! k = s !! k.
Proof.
  intros HM Hfit Hnd HU HlU HlV s'.
  destruct (take_drop_lengths SU M N HlU) as [Hl1 HlE]; [lia|].
  set (SU1 := take M SU) in *. set (E := drop M SU) in *.
  assert (SU = SU1 ++ E) as HSU by (symmetry; apply take_drop).
  clearbody SU1 E. subst SU.
  assert (SV ≠ []) as HSV by (intros ->; simpl in HlV; lia).
  destruct (exists_last HSV) as (SV' & v & ->).
  pose proof (NoDup_join_lookup s ru _ Hnd HU) as Hndr.
  unfold s'.
  rewrite (apply_swap_moved N M s ru (C ++ (SV' ++ [v]) ++ Mid) SU1 E B
             ru C (SV' ++ [v]) (Mid ++ (SU1 ++ E) ++ B)); try done.
  2: { rewrite HU. f_equal. by rewrite <- !(assoc_L (++)). }
  2: { blk Hndr. }
  rewrite lastD_snoc.
  set (Π := swapAll (zip SU1 (SV' ++ [v]))).
  assert (length SU1 = length (SV' ++ [v])) as Hlen by lia.
  assert (NoDup (SU1 ++ SV' ++ [v])) as HndSS by blk Hndr.
  pose proof (swapAll_block SU1 (SV' ++ [v]) Hlen HndSS) as HΠ1.
  pose proof (swapAll_block_r SU1 (SV' ++ [v]) Hlen HndSS) as HΠ2.
  fold Π in HΠ1, HΠ2.
  assert (∀ x, x ∉ SU1 → x ∉ SV' ++ [v] → Π x = x) as HΠ3.
  { intros x ? ?. by apply swapAll_other. }
  assert (∀ r : list nat, (∀ x, x ∈ r → x ∉ SU1) → (∀ x, x ∈ r → x ∉ SV' ++ [v]) →
            ∀ x, x ∈ r → Π x = x) as HΠ4.
  { intros r H1 H2 x Hx. apply HΠ3; [by apply H1|by apply H2]. }
  split; [|split].
  - unfold mapClients. by rewrite length_fmap, moved_length.
  - rewrite lookup_mapClients_moved, HU. simpl. f_equal.
    rewrite (movedRoute_app _ _ _ C).
    rewrite (movedRoute_app _ _ _ (SV' ++ [v])).
    rewrite (movedRoute_app _ _ _ Mid).
    rewrite (movedRoute_app _ _ _ (SU1 ++ E) B).
    rewrite (movedRoute_app _ _ _ SU1 E).
    rewrite (movedRoute_plain Π v E C)
      by first [blk Hndr | apply HΠ4; blk Hndr].
    rewrite (movedRoute_anchor Π v E SV') by blk Hndr.
    rewrite (movedRoute_plain Π v E Mid)
      by first [blk Hndr | apply HΠ4; blk Hndr].
    rewrite (movedRoute_renamed Π v E SU1) by blk Hndr.
    rewrite movedRoute_moved.
    rewrite (movedRoute_plain Π v E B)
      by first [blk Hndr | apply HΠ4; blk Hndr].
    rewrite HΠ1. rewrite fmap_app in HΠ2. simpl in HΠ2.
    rewrite (fmap_fixed Π E) by (apply HΠ4; blk Hndr).
    replace ((Π <$> SV') ++ Π v :: E) with (((Π <$> SV') ++ [Π v]) ++ E)
      by (by rewrite <- (assoc_L (++))).
    rewrite HΠ2. by rewrite app_nil_r, <- !(assoc_L (++)).
  - intros k Hku. rewrite lookup_mapClients_moved.
    destruct (s !! k) as [r|] eqn:Hk; [|done]. simpl. f_equal.
    apply (movedRoute_other Π v E (C ++ (SV' ++ [v]) ++ Mid ++ (SU1 ++ E) ++ B)).
    + intros x. by apply (routes_disjoint s k ru).
    + intros x Hx. rewrite !elem_of_app. tauto.
    + rewrite !elem_of_app, list_elem_of_singleton. tauto.
    + intros x Hx. rewrite !not_elem_of_app in Hx.
      apply HΠ3; [tauto|]. rewrite not_elem_of_app. tauto.
Qed.

Lemma routeCost_blocks2 data pm (A B : list nat) :
  routeCost data pm (A ++ B)
  = distPath data (0%nat :: A)
    + dist data (lastD (0%nat :: A)) (headD (B ++ [0%nat]))
    + distPath data (B ++ [0%nat])
    + loadPenalty data pm (demandSum data (A ++ B))
    + twPenalty pm (TWS.totalTimeWarp
        (TWS.ofList data ((0%nat :: A) ++ (B ++ [0%nat])))).
Proof.
  unfold routeCost, routeDistance, routeLoad, routeTimeWarp.
  replace (routeNodes (A ++ B)) with ((0%nat :: A) ++ (B ++ [0%nat]))
    by (unfold routeNodes; simpl; by rewrite <- !(assoc_L (++))).
  rewrite (distPath_app data (0%nat :: A) (B ++ [0%nat]))
    by (done || by destruct B).
  lia.
Qed.

Lemma routeCost_blocks4 data pm (A S1 S2 D : list nat) :
  S1 ≠ [] → S2 ≠ [] →
  routeCost data pm (A ++ S1 ++ S2 ++ D)
  = distPath data (0%nat :: A) + dist data (lastD (0%nat :: A)) (headD S1)
    + distPath data S1 + dist data (lastD S1) (headD S2)
    + distPath data S2 + dist data (lastD S2) (headD (D ++ [0%nat]))
    + distPath data (D ++ [0%nat])
    + loadPenalty data pm (demandSum data (A ++ S1 ++ S2 ++ D))
    + twPenalty pm (TWS.totalTimeWarp
        (TWS.ofList data ((0%nat :: A) ++ S1 ++ S2 ++ (D ++ [0%nat])))).
Proof.
  intros H1 H2.
  rewrite (routeCost_blocks data pm A S1 (S2 ++ D)) by done.
  rewrite <- !(assoc_L (++) S2 D).
  rewrite (headD_app S2) by done.
  rewrite (distPath_app data S2 (D ++ [0%nat])) by (done || by destruct D).
  lia.
Qed.

Lemma routeCost_blocks5 data pm (A S1 S2 S3 D : list nat) :
  S1 ≠ [] → S2 ≠ [] → S3 ≠ [] →
  routeCost data pm (A ++ S1 ++ S2 ++ S3 ++ D)
  = distPath data (0%nat :: A) + dist data (lastD (0%nat :: A)) (headD S1)
    + distPath data S1 + dist data (lastD S1) (headD S2)
    + distPath data S2 + dist data (lastD S2) (headD S3)
    + distPath data S3 + dist data (lastD S3) (headD (D ++ [0%nat]))
    + distPath data (D ++ [0%nat])
    + loadPenalty data pm (demandSum data (A ++ S1 ++ S2 ++ S3 ++ D))
    + twPenalty pm (TWS.totalTimeWarp
        (TWS.ofList data ((0%nat :: A) ++ S1 ++ S2 ++ S3 ++ (D ++ [0%nat])))).
Proof.
  intros H1 H2 H3.
  rewrite (assoc_L (++) S2 S3 D).
  rewrite (routeCost_blocks4 data pm A S1 (S2 ++ S3) D)
    by (done || by destruct S2).
  rewrite <- !(assoc_L (++) S2 S3).
  rewrite (headD_app S2) by done. rewrite (lastD_app S2 S3) by done.
  rewrite (distPath_app data S2 S3) by done.
  lia.
Qed.

(** The time-window segment of a block in the middle of a route. *)
Lemma twBetween_blocks data (s : list (list nat)) ri r (P Mid Q : list nat) i j :
  s !! ri = Some r → routeNodes r = P ++ Mid ++ Q →
  i = Z.of_nat (length P) → j = Z.of_nat (length P + length Mid) - 1 →
  twBetween data s ri i j = TWS.ofList data Mid.
Proof.
  intros Hr Hn Hi Hj. unfold twBetween.
  rewrite (routeAt_lookup s ri r Hr).
  by rewrite (segment_blocks _ P Mid Q i j Hn Hi Hj).
Qed.

Lemma evalSwapMove_same_fwd data pm (N M : nat) (s : list (list nat))
    ru A SU Mid SV D d :
  (1 ≤ M ≤ N)%nat → fits N s → NoDup (mjoin s) →
  s !! ru = Some (A ++ SU ++ Mid ++ SV ++ D) →
  length SU = N → length SV = M → Mid ≠ [] →
  intSafe data pm s
    (Exchange.apply N M s (ClientNode (headD SU)) (ClientNode (headD SV))) →
  Exchange.evalSwapMove data pm N M s
    (ClientNode (headD SU)) (ClientNode (headD SV)) = (Complete, d) →
  d = solutionCost data pm
        (Exchange.apply N M s (ClientNode (headD SU)) (ClientNode (headD SV)))
      - solutionCost data pm s.
Proof.
  intros HM Hfit Hnd HU HlU HlV HMid Hsafe Heval.
  assert (1 ≤ N ≤ N)%nat as HN by lia.
  assert (SU ≠ []) as HSU by (intros ->; simpl in HlU; lia).
  assert (SV ≠ []) as HSV by (intros ->; simpl in HlV; lia).
  destruct (apply_same_swap_fwd N M s ru A SU Mid SV D)
    as (Hlen & HU' & Hother); try done.
  rewrite (solutionCost_one data pm s _ ru _ _ Hlen HU HU' Hother).
  assert (s !! ru = Some ((A ++ SU ++ Mid) ++ SV ++ D)) as HV.
  { rewrite HU. f_equal. by rewrite <- !(assoc_L (++)). }
  pose proof (seg_bound N N s ru A SU (Mid ++ SV ++ D) HN Hfit HU HlU) as Hb.
  rewrite !length_app in Hb.
  unfold Exchange.evalSwapMove in Heval. cbv zeta in Heval.
  rewrite (seg_end N N s ru A SU (Mid ++ SV ++ D)) in Heval by done.
  rewrite (seg_end N M s ru (A ++ SU ++ Mid) SV D) in Heval by done.
  rewrite (seg_route N N s ru A SU (Mid ++ SV ++ D)) in Heval by done.
  rewrite (seg_route N M s ru (A ++ SU ++ Mid) SV D) in Heval by done.
  rewrite (decide_False (P := ru ≠ ru)) in Heval by (intros H; by apply H).
  rewrite (seg_distAround data N N s ru A SU (Mid ++ SV ++ D)) in Heval by done.
  rewrite (seg_distAround data N M s ru (A ++ SU ++ Mid) SV D) in Heval by done.
  rewrite (seg_distInner data N N s ru A SU (Mid ++ SV ++ D)) in Heval by done.
  rewrite (seg_distInner data N M s ru (A ++ SU ++ Mid) SV D) in Heval by done.
  rewrite (seg_twInner data N N s ru A SU (Mid ++ SV ++ D)) in Heval by done.
  rewrite (seg_twInner data N M s ru (A ++ SU ++ Mid) SV D) in Heval by done.
  rewrite (seg_twBefore data N N s ru A SU (Mid ++ SV ++ D)) in Heval by done.
  rewrite (seg_twAfter data N M s ru (A ++ SU ++ Mid) SV D) in Heval by done.
  destruct (seg_pred N N s ru A SU (Mid ++ SV ++ D)) as (HpU & _ & _); try done.
  destruct (seg_pred N M s ru (A ++ SU ++ Mid) SV D) as (HpV & _ & _); try done.
  destruct (seg_succ N N s ru A SU (Mid ++ SV ++ D)) as (HnU & _ & _); try done.
  destruct (seg_succ N M s ru (A ++ SU ++ Mid) SV D) as (HnV & _ & _); try done.
  rewrite HpU, HpV, HnU, HnV in Heval.
  rewrite (timeWarp_lookup data s ru _ HU) in Heval.
  cbn [clientOf] in Heval.
  rewrite (seg_position N N s ru A SU (Mid ++ SV ++ D)) in Heval by done.
  rewrite (seg_position N M s ru (A ++ SU ++ Mid) SV D) in Heval by done.
  rewrite !length_app in Heval.
  rewrite (bool_decide_eq_true_2 (Z.of_nat (length A) + 1 < _)) in Heval by lia.
  rewrite (twBetween_blocks data s ru _ ((0%nat :: A) ++ SU) Mid
             (SV ++ D ++ [0%nat]) _ _ HU) in Heval.
  2: { rewrite routeNodes_blocks. by rewrite <- !(assoc_L (++)). }
  2: { rewrite szAdd_small by lia. rewrite length_app. simpl. lia. }
  2: { rewrite szSub_small by lia. rewrite length_app. simpl. lia. }
  rewrite ofList_app5 in Heval by first [done | by destruct D].
  assert (lastD (0%nat :: A ++ SU ++ Mid) = lastD Mid) as HlM.
  { rewrite lastD_cons by (by destruct A, SU, Mid).
    rewrite (assoc_L (++)). by apply lastD_app. }
  assert (headD ((Mid ++ SV ++ D) ++ [0%nat]) = headD Mid) as HhM.
  { rewrite <- (assoc_L (++)). by apply headD_app. }
  rewrite HlM, HhM in Heval.
  destruct (_ && _) in Heval; [done|].
  injection Heval as <-.
  destruct (intSafe_one data pm s _ ru _ _ Hsafe HU HU') as (_ & Hcb & Hca).
  destruct Hsafe as (Hd & Hcp & Htp & _).
  rewrite !routeCost_blocks5 in Hcb, Hca by done.
  rewrite !routeCost_blocks5 by done.
  unfold routeTimeWarp. rewrite !routeNodes_blocks.
  replace (demandSum data (A ++ SV ++ Mid ++ SU ++ D))
    with (demandSum data (A ++ SU ++ Mid ++ SV ++ D)) in Hca
    by (rewrite !demandSum_app; lia).
  replace (demandSum data (A ++ SV ++ Mid ++ SU ++ D))
    with (demandSum data (A ++ SU ++ Mid ++ SV ++ D))
    by (rewrite !demandSum_app; lia).
  rewrite <- ?(assoc_L (++)) in Hcb, Hca. rewrite <- ?app_comm_cons in Hcb, Hca.
  rewrite <- ?(assoc_L (++)). rewrite <- ?app_comm_cons.
  pose_nonneg Hd Hcp Htp. unwrap_int. lia.
Qed.

Lemma evalSwapMove_same_bwd data pm (N M : nat) (s : list (list nat))
    ru C SV Mid SU B d :
  (1 ≤ M ≤ N)%nat → fits N s → NoDup (mjoin s) →
  s !! ru = Some (C ++ SV ++ Mid ++ SU ++ B) →
  length SU = N → length SV = M → Mid ≠ [] →
  intSafe data pm s
    (Exchange.apply N M s (ClientNode (headD SU)) (ClientNode (headD SV))) →
  Exchange.evalSwapMove data pm N M s
    (ClientNode (headD SU)) (ClientNode (headD SV)) = (Complete, d) →
  d = solutionCost data pm
        (Exchange.apply N M s (ClientNode (headD SU)) (ClientNode (headD SV)))
      - solutionCost data pm s.
Proof.
  intros HM Hfit Hnd HV HlU HlV HMid Hsafe Heval.
  assert (1 ≤ N ≤ N)%nat as HN by lia.
  assert (SU ≠ []) as HSU by (intros ->; simpl in HlU; lia).
  assert (SV ≠ []) as HSV by (intros ->; simpl in HlV; lia).
  destruct (apply_same_swap_bwd N M s ru C SV Mid SU B)
    as (Hlen & HU' & Hother); try done.
  rewrite (solutionCost_one data pm s _ ru _ _ Hlen HV HU' Hother).
  assert (s !! ru = Some ((C ++ SV ++ Mid) ++ SU ++ B)) as HU.
  { rewrite HV. f_equal. by rewrite <- !(assoc_L (++)). }
  pose proof (seg_bound N M s ru C SV (Mid ++ SU ++ B) HM Hfit HV HlV) as Hb.
  rewrite !length_app in Hb.
  unfold Exchange.evalSwapMove in Heval. cbv zeta in Heval.
  rewrite (seg_end N N s ru (C ++ SV ++ Mid) SU B) in Heval by done.
  rewrite (seg_end N M s ru C SV (Mid ++ SU ++ B)) in Heval by done.
  rewrite (seg_route N N s ru (C ++ SV ++ Mid) SU B) in Heval by done.
  rewrite (seg_route N M s ru C SV (Mid ++ SU ++ B)) in Heval by done.
  rewrite (decide_False (P := ru ≠ ru)) in Heval by (intros H; by apply H).
  rewrite (seg_distAround data N N s ru (C ++ SV ++ Mid) SU B) in Heval by done.
  rewrite (seg_distAround data N M s ru C SV (Mid ++ SU ++ B)) in Heval by done.
  rewrite (seg_distInner data N N s ru (C ++ SV ++ Mid) SU B) in Heval by done.
  rewrite (seg_distInner data N M s ru C SV (Mid ++ SU ++ B)) in Heval by done.
  rewrite (seg_twInner data N N s ru (C ++ SV ++ Mid) SU B) in Heval by done.
  rewrite (seg_twInner data N M s ru C SV (Mid ++ SU ++ B)) in Heval by done.
  rewrite (seg_twBefore data N M s ru C SV (Mid ++ SU ++ B)) in Heval by done.
  rewrite (seg_twAfter data N N s ru (C ++ SV ++ Mid) SU B) in Heval by done.
  destruct (seg_pred N N s ru (C ++ SV ++ Mid) SU B) as (HpU & _ & _); try done.
  destruct (seg_pred N M s ru C SV (Mid ++ SU ++ B)) as (HpV & _ & _); try done.
  destruct (seg_succ N N s ru (C ++ SV ++ Mid) SU B) as (HnU & _ & _); try done.
  destruct (seg_succ N M s ru C SV (Mid ++ SU ++ B)) as (HnV & _ & _); try done.
  rewrite HpU, HpV, HnU, HnV in Heval.
  rewrite (timeWarp_lookup data s ru _ HV) in Heval.
  cbn [clientOf] in Heval.
  rewrite (seg_position N N s ru (C ++ SV ++ Mid) SU B) in Heval by done.
  rewrite (seg_position N M s ru C SV (Mid ++ SU ++ B)) in Heval by done.
  rewrite !length_app in Heval.
  rewrite (bool_decide_eq_false_2 (_ < Z.of_nat (length C) + 1)) in Heval by lia.
  rewrite (twBetween_blocks data s ru _ ((0%nat :: C) ++ SV) Mid
             (SU ++ B ++ [0%nat]) _ _ HV) in Heval.
  2: { rewrite routeNodes_blocks. by rewrite <- !(assoc_L (++)). }
  2: { rewrite szAdd_small by lia. rewrite length_app. simpl. lia. }
  2: { rewrite szSub_small by lia. rewrite length_app. simpl. lia. }
  rewrite ofList_app5 in Heval by first [done | by destruct B].
  assert (lastD (0%nat :: C ++ SV ++ Mid) = lastD Mid) as HlM.
  { rewrite lastD_cons by (by destruct C, SV, Mid).
    rewrite (assoc_L (++)). by apply lastD_app. }
  assert (headD ((Mid ++ SU ++ B) ++ [0%nat]) = headD Mid) as HhM.
  { rewrite <- (assoc_L (++)). by apply headD_app. }
  rewrite HlM, HhM in Heval.
  destruct (_ && _) in Heval; [done|].
  injection Heval as <-.
  destruct (intSafe_one data pm s _ ru _ _ Hsafe HV HU') as (_ & Hcb & Hca).
  destruct Hsafe as (Hd & Hcp & Htp & _).
  rewrite !routeCost_blocks5 in Hcb, Hca by done.
  rewrite !routeCost_blocks5 by done.
  unfold routeTimeWarp. rewrite !routeNodes_blocks.
  replace (demandSum data (C ++ SU ++ Mid ++ SV ++ B))
    with (demandSum data (C ++ SV ++ Mid ++ SU ++ B)) in Hca
    by (rewrite !demandSum_app; lia).
  replace (demandSum data (C ++ SU ++ Mid ++ SV ++ B))
    with (demandSum data (C ++ SV ++ Mid ++ SU ++ B))
    by (rewrite !demandSum_app; lia).
  rewrite <- ?(assoc_L (++)) in Hcb, Hca. rewrite <- ?app_comm_cons in Hcb, Hca.
  rewrite <- ?(assoc_L (++)). rewrite <- ?app_comm_cons.
  pose_nonneg Hd Hcp Htp. unwrap_int. lia.
Qed.

(** ** The value of a swap move *)

Lemma headD_head (l : list nat) x : head l = Some x → headD l = x.
Proof. unfold headD. by intros ->. Qed.

(** A block of [K ≥ 1] clients starting at index [i]. *)
Lemma block_at (r : list nat) (i K : nat) c :
  r !! i = Some c → (i + K ≤ length r)%nat → (1 ≤ K)%nat →
  length (take K (drop i r)) = K ∧ headD (take K (drop i r)) = c.
Proof.
  intros Hi Hlen HK.
  destruct (block_split r i K c Hi Hlen HK) as (_ & Hl & Hh).
  split; [done|]. by apply headD_head.
Qed.

(** What the pre-filters leave of an exchange with M > 0: two segments of
    clients, in different routes or with clients between them. *)
Lemma swap_shape (N M : nat) (s : list (list nat)) U V :
  (1 ≤ M ≤ N)%nat → fits N s → NoDup (mjoin s) →
  nodeIn s U → nodeIn s V →
  prefiltered N M s U V = false →
  ∃ SU SV, U = ClientNode (headD SU) ∧ V = ClientNode (headD SV)
    ∧ length SU = N ∧ length SV = M
    ∧ ((∃ ru rv A B C D, ru ≠ rv ∧ s !! ru = Some (A ++ SU ++ B)
                         ∧ s !! rv = Some (C ++ SV ++ D))
       ∨ (∃ ru A Mid D, Mid ≠ [] ∧ s !! ru = Some (A ++ SU ++ Mid ++ SV ++ D))
       ∨ (∃ ru C Mid B, Mid ≠ [] ∧ s !! ru = Some (C ++ SV ++ Mid ++ SU ++ B))).
Proof.
  intros HM Hfit Hnd HinU HinV Hpre.
  apply prefiltered_false in Hpre as (HdU & Hov & HdV & _ & Hadj & _).
  specialize (HdV ltac:(lia)). specialize (Hadj ltac:(lia)).
  destruct (segment_block N N s U)
    as (ri & r & i & u & -> & _ & Hr & Hi & HiN & HrU & HpU); [lia|done..|].
  destruct (segment_block N M s V)
    as (rj & r' & j & v & -> & _ & Hr' & Hj & HjM & HrV & HpV); [lia|done..|].
  destruct (block_at r i N u Hi HiN) as (HlU & HhU); [lia|].
  destruct (block_at r' j M v Hj HjM) as (HlV & HhV); [lia|].
  exists (take N (drop i r)), (take M (drop j r')).
  rewrite HhU, HhV. do 4 (split; [done|]).
  destruct (decide (ri = rj)) as [<-|Hne].
  - assert (r' = r) as -> by congruence. right.
    unfold Exchange.overlap in Hov.
    rewrite (bool_decide_eq_true_2 (route s (ClientNode u) = route s (ClientNode v)))
      in Hov by congruence.
    unfold Exchange.adjacent in Hadj.
    rewrite (decide_False (P := route s (ClientNode u) ≠ route s (ClientNode v)))
      in Hadj by (intros H; apply H; congruence).
    rewrite HpU, HpV in Hov, Hadj.
    pose proof (fits_lookup N s ri r Hfit Hr) as Hf.
    rewrite !szAdd_small, !szSub_small in Hov by lia.
    rewrite !szAdd_small in Hadj by lia.
    simpl in Hov. apply andb_false_iff in Hov.
    apply orb_false_iff in Hadj as [Ha1 Ha2].
    apply bool_decide_eq_false in Ha1, Ha2.
    assert (i + N < j ∨ j + M < i)%nat as [Hord|Hord].
    { destruct Hov as [H|H]; apply bool_decide_eq_false in H; lia. }
    + left. exists ri, (take i r), (take (j - (i + N)) (drop (i + N) r)),
        (drop (j + M) r).
      split.
      * intros Hnil. apply (f_equal length) in Hnil.
        rewrite length_take, length_drop in Hnil. simpl in Hnil. lia.
      * rewrite Hr. f_equal. apply two_blocks_split. lia.
    + right. exists ri, (take j r), (take (i - (j + M)) (drop (j + M) r)),
        (drop (i + N) r).
      split.
      * intros Hnil. apply (f_equal length) in Hnil.
        rewrite length_take, length_drop in Hnil. simpl in Hnil. lia.
      * rewrite Hr. f_equal. apply two_blocks_split. lia.
  - left. exists ri, rj, (take i r), (drop (i + N) r), (take j r'),
      (drop (j + M) r').
    split; [done|]. split.
    + rewrite Hr. f_equal. apply (block_split r i N u); [done|done|lia].
    + rewrite Hr'. f_equal. apply (block_split r' j M v); [done|done|lia].
Qed.

(** When [evalSwapMove] runs to its last [return] and no [int] operation
    overflows, the value is the change of the penalised cost that [apply]
    brings about. *)
Lemma evalSwapMove_complete data pm (N M : nat) (s : list (list nat)) U V d :
  (1 ≤ M ≤ N)%nat → fits N s → NoDup (mjoin s) →
  nodeIn s U → nodeIn s V →
  prefiltered N M s U V = false →
  intSafe data pm s (Exchange.apply N M s U V) →
  Exchange.evalSwapMove data pm N M s U V = (Complete, d) →
  d = solutionCost data pm (Exchange.apply N M s U V) - solutionCost data pm s.
Proof.
  intros HM Hfit Hnd HinU HinV Hpre Hsafe Heval.
  destruct (swap_shape N M s U V HM Hfit Hnd HinU HinV Hpre)
    as (SU & SV & -> & -> & HlU & HlV & Hshape).
  destruct Hshape as [(ru & rv & A & B & C & D & Hne & HU & HV)
                     |[(ru & A & Mid & D & HMid & HU)
                      |(ru & C & Mid & B & HMid & HU)]].
  - by apply (evalSwapMove_cross data pm N M s ru A SU B rv C SV D).
  - by apply (evalSwapMove_same_fwd data pm N M s ru A SU Mid SV D).
  - by apply (evalSwapMove_same_bwd data pm N M s ru C SV Mid SU B).
Qed.

(** ** Relocation *)

(** The node at the end of a prefix of a route: the start sentinel for the
    empty prefix, else the node of the prefix's last client. *)
Lemma anchor_cases (s : list (list nat)) rv (C' D : list nat) V :
  s !! rv = Some (C' ++ D) → nodeAt s rv (Z.of_nat (length C')) = V →
  (C' = [] ∧ V = StartDepot rv) ∨ (∃ C v, C' = C ++ [v] ∧ V = ClientNode v).
Proof.
  intros Hr <-. destruct (decide (C' = [])) as [->|HC].
  - left. done.
  - right. destruct (exists_last HC) as (C & v & ->). exists C, v.
    split; [done|]. rewrite length_app. simpl.
    replace (Z.of_nat (length C + 1)) with (Z.of_nat (length C) + 1) by lia.
    apply (nodeAt_client s rv _ _ v Hr).
    rewrite <- (assoc_L (++)). rewrite lookup_app_r by lia.
    by rewrite Nat.sub_diag.
Qed.

Lemma lookup_moved_client v E (s : list (list nat)) (k : nat) :
  moved (ClientNode v) E s !! k = movedRoute id v E <$> s !! k.
Proof.
  rewrite <- (lookup_mapClients_moved id v E s k).
  by rewrite mapClients_id.
Qed.

Lemma lookup_moved_start r0 E (s : list (list nat)) (k : nat) :
  moved (StartDepot r0) E s !! k
  = (λ r, if decide (k = r0) then E ++ filter (λ x, x ∉ E) r
          else filter (λ x, x ∉ E) r) <$> s !! k.
Proof.
  unfold moved, removeAll. simpl.
  destruct (decide (k = r0)) as [->|Hk].
  - rewrite list_lookup_alter_eq, list_lookup_fmap. by destruct (s !! r0).
  - rewrite list_lookup_alter_ne by done. rewrite list_lookup_fmap.
    by destruct (s !! k).
Qed.

Lemma movedRoute_id_plain v E (r : list nat) :
  (∀ x, x ∈ r → x ∉ E) → v ∉ r → movedRoute id v E r = r.
Proof. intros HE Hv. by apply movedRoute_plain. Qed.

Lemma movedRoute_id_anchor v E (r : list nat) :
  (∀ x, x ∈ r → x ∉ E) → v ∉ r → v ∉ E →
  movedRoute id v E (r ++ [v]) = r ++ v :: E.
Proof.
  intros HE Hv HvE. rewrite movedRoute_anchor by done.
  by rewrite !list_fmap_id.
Qed.

Lemma filter_blocks3 (E X Y : list nat) :
  (∀ x, x ∈ X → x ∉ E) → (∀ x, x ∈ Y → x ∉ E) →
  filter (λ x, x ∉ E) (X ++ E ++ Y) = X ++ Y.
Proof.
  intros HX HY. rewrite !filter_app.
  rewrite (filter_all_notin E X), (filter_all_notin E Y) by done.
  by rewrite (filter_all_in E E).
Qed.

(** The segment of U is taken out of its route and linked in behind V, in
    another route. *)
Lemma apply_relocate_cross (N : nat) (s : list (list nat))
    ru A SU B rv C' D V :
  (1 ≤ N)%nat → fits N s → NoDup (mjoin s) → ru ≠ rv →
  s !! ru = Some (A ++ SU ++ B) → s !! rv = Some (C' ++ D) →
  length SU = N → nodeAt s rv (Z.of_nat (length C')) = V →
  let s' := Exchange.apply N 0 s (ClientNode (headD SU)) V in
  length s' = length s
  ∧ s' !! ru = Some (A ++ B)
  ∧ s' !! rv = Some (C' ++ SU ++ D)
  ∧ ∀ k, k ≠ ru → k ≠ rv → s' !! k = s !! k.
Proof.
  intros HN Hfit Hnd Hne HU HV HlU Hanc s'.
  pose proof (NoDup_join_lookup s ru _ Hnd HU) as HndU.
  pose proof (NoDup_join_lookup s rv _ Hnd HV) as HndV.
  assert (∀ k r, k ≠ ru → s !! k = Some r → ∀ x, x ∈ r → x ∉ SU) as Hoth.
  { intros k r Hk Hr x Hx HxS.
    apply (routes_disjoint s k ru r _ x Hnd Hr HU Hk Hx).
    rewrite !elem_of_app. tauto. }
  unfold s'.
  destruct (anchor_cases s rv C' D V HV Hanc) as [[-> ->]|(C & v & -> & ->)].
  - rewrite (apply_relocate_moved N s ru A SU B) by
      (done || simpl; by eapply lookup_lt_Some).
    split; [apply moved_length|]. split; [|split].
    + rewrite lookup_moved_start, HU. simpl.
      rewrite decide_False by done. f_equal.
      apply filter_blocks3; blk HndU.
    + rewrite lookup_moved_start, HV. simpl.
      rewrite decide_True by done. f_equal. f_equal.
      apply filter_all_notin. by apply (Hoth rv).
    + intros k Hku Hkv. rewrite lookup_moved_start.
      destruct (s !! k) as [r|] eqn:Hk; [|done]. simpl.
      rewrite decide_False by done. f_equal.
      apply filter_all_notin. by apply (Hoth k).
  - assert (v ∈ (C ++ [v]) ++ D) as Hvin.
    { rewrite !elem_of_app, list_elem_of_singleton. tauto. }
    assert (∀ k r, k ≠ rv → s !! k = Some r → v ∉ r) as Hvoth.
    { intros k r Hk Hr Hvr.
      by apply (routes_disjoint s k rv r _ v Hnd Hr HV Hk Hvr). }
    assert (v ∉ SU) as HvSU.
    { intros HvS. apply (Hvoth ru _ Hne HU).
      rewrite !elem_of_app. tauto. }
    rewrite (apply_relocate_moved N s ru A SU B); try done.
    2: { simpl. split; [|done]. apply list_elem_of_join.
         exists ((C ++ [v]) ++ D). split; [done|].
         by eapply list_elem_of_lookup_2. }
    split; [apply moved_length|]. split; [|split].
    + rewrite lookup_moved_client, HU. simpl. f_equal.
      rewrite (movedRoute_app _ _ _ A), (movedRoute_app _ _ _ SU B).
      assert ((v ∉ A) ∧ (v ∉ B)) as [HvA HvB].
      { split; intros Hx; apply (Hvoth ru _ Hne HU);
          rewrite !elem_of_app; tauto. }
      rewrite (movedRoute_id_plain v SU A) by (done || blk HndU).
      rewrite movedRoute_moved.
      by rewrite (movedRoute_id_plain v SU B) by (done || blk HndU).
    + rewrite lookup_moved_client, HV. simpl. f_equal.
      assert (∀ x, x ∈ (C ++ [v]) ++ D → x ∉ SU) as HdV by (by apply (Hoth rv)).
      rewrite (movedRoute_app _ _ _ (C ++ [v]) D).
      rewrite (movedRoute_id_anchor v SU C).
      * rewrite (movedRoute_id_plain v SU D).
        -- by rewrite <- !(assoc_L (++)).
        -- intros x Hx. apply HdV. rewrite !elem_of_app. tauto.
        -- rewrite <- (assoc_L (++)) in HndV. blk HndV.
      * intros x Hx. apply HdV. rewrite !elem_of_app. tauto.
      * rewrite <- (assoc_L (++)) in HndV. blk HndV.
      * done.
    + intros k Hku Hkv. rewrite lookup_moved_client.
      destruct (s !! k) as [r|] eqn:Hk; [|done]. simpl. f_equal.
      apply movedRoute_id_plain; [by apply (Hoth k)|by apply (Hvoth k)].
Qed.

Lemma lookup_elem_of_join (s : list (list nat)) k (r : list nat) x :
  s !! k = Some r → x ∈ r → x ∈ mjoin s.
Proof.
  intros Hr Hx. apply list_elem_of_join. exists r. split; [done|].
  by eapply list_elem_of_lookup_2.
Qed.

(** The segment of U is moved towards the end of its route, behind V. *)
Lemma apply_relocate_fwd (N : nat) (s : list (list nat)) ru A SU Mid D :
  (1 ≤ N)%nat → fits N s → NoDup (mjoin s) →
  s !! ru = Some (A ++ SU ++ Mid ++ D) → length SU = N → Mid ≠ [] →
  let s' := Exchange.apply N 0 s (ClientNode (headD SU)) (ClientNode (lastD Mid)) in
  length s' = length s
  ∧ s' !! ru = Some (A ++ Mid ++ SU ++ D)
  ∧ ∀ k, k ≠ ru → s' !! k = s !! k.
Proof.
  intros HN Hfit Hnd HU HlU HMid s'.
  destruct (exists_last HMid) as (W & v & ->).
  pose proof (NoDup_join_lookup s ru _ Hnd HU) as HndU.
  unfold s'. rewrite lastD_snoc.
  assert (v ∈ A ++ SU ++ (W ++ [v]) ++ D) as Hvin.
  { rewrite !elem_of_app, list_elem_of_singleton. tauto. }
  rewrite <- (assoc_L (++) W [v] D) in HndU.
  rewrite (apply_relocate_moved N s ru A SU ((W ++ [v]) ++ D)); try done.
  2: { simpl. split; [by eapply lookup_elem_of_join|blk HndU]. }
  split; [apply moved_length|]. split.
  - rewrite lookup_moved_client, HU. simpl. f_equal.
    rewrite (movedRoute_app _ _ _ A), (movedRoute_app _ _ _ SU),
      (movedRoute_app _ _ _ (W ++ [v]) D).
    rewrite (movedRoute_id_plain v SU A) by blk HndU.
    rewrite movedRoute_moved.
    rewrite (movedRoute_id_anchor v SU W) by blk HndU.
    rewrite (movedRoute_id_plain v SU D) by blk HndU.
    simpl. by rewrite <- !(assoc_L (++)).
  - intros k Hk. rewrite lookup_moved_client.
    destruct (s !! k) as [r|] eqn:Hr; [|done]. simpl. f_equal.
    apply movedRoute_id_plain.
    + intros x Hx HxS.
      apply (routes_disjoint s k ru r _ x Hnd Hr HU Hk Hx).
      rewrite !elem_of_app. tauto.
    + intros Hvr. by apply (routes_disjoint s k ru r _ v Hnd Hr HU Hk Hvr).
Qed.

(** The segment of U is moved towards the start of its route, behind V. *)
Lemma apply_relocate_bwd (N : nat) (s : list (list nat)) ru C' Mid SU B V :
  (1 ≤ N)%nat → fits N s → NoDup (mjoin s) →
  s !! ru = Some (C' ++ Mid ++ SU ++ B) → length SU = N →
  nodeAt s ru (Z.of_nat (length C')) = V →
  let s' := Exchange.apply N 0 s (ClientNode (headD SU)) V in
  length s' = length s
  ∧ s' !! ru = Some (C' ++ SU ++ Mid ++ B)
  ∧ ∀ k, k ≠ ru → s' !! k = s !! k.
Proof.
  intros HN Hfit Hnd HU HlU Hanc s'.
  pose proof (NoDup_join_lookup s ru _ Hnd HU) as HndU.
  assert (s !! ru = Some ((C' ++ Mid) ++ SU ++ B)) as HU2.
  { rewrite HU. f_equal. by rewrite <- !(assoc_L (++)). }
  assert (∀ k r, k ≠ ru → s !! k = Some r → ∀ x, x ∈ r → x ∉ SU) as Hoth.
  { intros k r Hk Hr x Hx HxS.
    apply (routes_disjoint s k ru r _ x Hnd Hr HU Hk Hx).
    rewrite !elem_of_app. tauto. }
  unfold s'.
  destruct (anchor_cases s ru C' (Mid ++ SU ++ B) V HU Hanc)
    as [[-> ->]|(C & v & -> & ->)].
  - rewrite (apply_relocate_moved N s ru ([] ++ Mid) SU B) by
      (done || simpl; by eapply lookup_lt_Some).
    split; [apply moved_length|]. split.
    + rewrite lookup_moved_start, HU. simpl.
      rewrite decide_True by done. f_equal. f_equal.
      simpl in HndU. apply filter_blocks3; blk HndU.
    + intros k Hku. rewrite lookup_moved_start.
      destruct (s !! k) as [r|] eqn:Hk; [|done]. simpl.
      rewrite decide_False by done. f_equal.
      apply filter_all_notin. by apply (Hoth k).
  - rewrite <- (assoc_L (++) C [v]) in HndU.
    assert (v ∈ (C ++ [v]) ++ Mid ++ SU ++ B) as Hvin.
    { rewrite !elem_of_app, list_elem_of_singleton. tauto. }
    rewrite (apply_relocate_moved N s ru ((C ++ [v]) ++ Mid) SU B); try done.
    2: { simpl. split; [apply (lookup_elem_of_join s ru _ v HU Hvin)|blk HndU]. }
    split; [apply moved_length|]. split.
    + rewrite lookup_moved_client, HU. simpl. f_equal.
      rewrite (movedRoute_app _ _ _ (C ++ [v])), (movedRoute_app _ _ _ Mid),
        (movedRoute_app _ _ _ SU B).
      rewrite (movedRoute_id_anchor v SU C) by blk HndU.
      rewrite (movedRoute_id_plain v SU Mid) by blk HndU.
      rewrite movedRoute_moved.
      rewrite (movedRoute_id_plain v SU B) by blk HndU.
      simpl. by rewrite <- !(assoc_L (++)).
    + intros k Hk. rewrite lookup_moved_client.
      destruct (s !! k) as [r|] eqn:Hr; [|done]. simpl. f_equal.
      apply movedRoute_id_plain; [by apply (Hoth k)|].
      intros Hvr. by apply (routes_disjoint s k ru r _ v Hnd Hr HU Hk Hvr).
Qed.

(** ** What a relocation reads of its anchor V

    V is the node at the end of the prefix [C'] of its route: the start
    sentinel when the prefix is empty. *)

Lemma anc_route (s : list (list nat)) rv (C' D : list nat) V :
  NoDup (mjoin s) → s !! rv = Some (C' ++ D) →
  nodeAt s rv (Z.of_nat (length C')) = V →
  route s V = rv.
Proof.
  intros Hnd Hwin Hanc.
  destruct (anchor_cases s rv C' D V Hwin Hanc) as [[-> ->]|(C & v & -> & ->)];
    [done|].
  apply (route_client s rv _ (length C) v Hnd Hwin).
  rewrite <- (assoc_L (++)). rewrite lookup_app_r by lia.
  by rewrite Nat.sub_diag.
Qed.

Lemma anc_position N (s : list (list nat)) rv (C' D : list nat) V :
  fits N s → NoDup (mjoin s) → s !! rv = Some (C' ++ D) →
  nodeAt s rv (Z.of_nat (length C')) = V →
  position s V = Z.of_nat (length C').
Proof.
  intros Hfit Hnd Hwin Hanc.
  destruct (anchor_cases s rv C' D V Hwin Hanc) as [[-> ->]|(C & v & -> & ->)];
    [done|].
  rewrite (position_client N s rv _ (length C) v Hfit Hnd Hwin).
  - rewrite length_app. simpl. lia.
  - rewrite <- (assoc_L (++)). rewrite lookup_app_r by lia.
    by rewrite Nat.sub_diag.
Qed.

Lemma anc_client (s : list (list nat)) rv (C' D : list nat) V :
  s !! rv = Some (C' ++ D) → nodeAt s rv (Z.of_nat (length C')) = V →
  clientOf V = lastD (0%nat :: C').
Proof.
  intros Hwin Hanc.
  destruct (anchor_cases s rv C' D V Hwin Hanc) as [[-> ->]|(C & v & -> & ->)];
    [done|].
  simpl. by rewrite app_comm_cons, lastD_snoc.
Qed.

(** The successor of the anchor. *)
Lemma anc_succ N (s : list (list nat)) rv (C' D : list nat) V :
  (1 ≤ N)%nat → fits N s → NoDup (mjoin s) → s !! rv = Some (C' ++ D) →
  nodeAt s rv (Z.of_nat (length C')) = V →
  clientOf (n s V) = headD (D ++ [0%nat])
  ∧ route s (n s V) = rv
  ∧ position s (n s V) = Z.of_nat (length C') + 1.
Proof.
  intros HN Hfit Hnd Hwin Hanc.
  pose proof (fits_lookup N s rv _ Hfit Hwin) as Hb.
  destruct (anchor_cases s rv C' D V Hwin Hanc) as [[-> ->]|(C & v & -> & ->)].
  - rewrite n_start, (routeAt_lookup s rv _ Hwin). simpl in *.
    destruct D as [|y D'].
    + simpl. split; [done|]. split; [done|].
      unfold position. rewrite (routeAt_lookup s rv _ Hwin). simpl.
      by apply wrap_small.
    + simpl. split; [done|]. split.
      * by apply (route_client s rv (y :: D') 0%nat y).
      * by rewrite (position_client N s rv (y :: D') 0%nat y).
  - rewrite <- (assoc_L (++)) in Hwin.
    pose proof (seg_succ N 1 s rv C [v] D ltac:(lia) Hfit Hnd Hwin eq_refl) as H.
    change (lastD [v]) with v in H.
    rewrite length_app. simpl.
    replace (Z.of_nat (length C + 1) + 1)
      with (Z.of_nat (length C) + Z.of_nat 1%nat + 1) by lia.
    exact H.
Qed.

Lemma anc_twBefore data N (s : list (list nat)) rv (C' D : list nat) V :
  fits N s → NoDup (mjoin s) → s !! rv = Some (C' ++ D) →
  nodeAt s rv (Z.of_nat (length C')) = V →
  twBefore data s V = TWS.ofList data (0%nat :: C').
Proof.
  intros Hfit Hnd Hwin Hanc. unfold twBefore.
  rewrite (anc_route s rv C' D V Hnd Hwin Hanc).
  rewrite (anc_position N s rv C' D V Hfit Hnd Hwin Hanc).
  apply (twBetween_blocks data s rv _ [] (0%nat :: C') (D ++ [0%nat]) _ _ Hwin).
  - unfold routeNodes. simpl. by rewrite <- (assoc_L (++)).
  - done.
  - simpl. lia.
Qed.

Lemma anc_twAfter data N (s : list (list nat)) rv (C' D : list nat) V :
  (1 ≤ N)%nat → fits N s → NoDup (mjoin s) → s !! rv = Some (C' ++ D) →
  nodeAt s rv (Z.of_nat (length C')) = V →
  twAfter data s (n s V) = TWS.ofList data (D ++ [0%nat]).
Proof.
  intros HN Hfit Hnd Hwin Hanc. unfold twAfter.
  destruct (anc_succ N s rv C' D V HN Hfit Hnd Hwin Hanc) as (_ & -> & ->).
  pose proof (fits_lookup N s rv _ Hfit Hwin) as Hb.
  rewrite length_app in Hb.
  rewrite (size_lookup N s rv _ Hfit Hwin).
  apply (twBetween_blocks data s rv _ (0%nat :: C') (D ++ [0%nat]) [] _ _ Hwin).
  - unfold routeNodes. simpl. by rewrite app_nil_r, <- (assoc_L (++)).
  - simpl. lia.
  - rewrite szAdd_small by (rewrite length_app; lia).
    rewrite !length_app. simpl. lia.
Qed.

Lemma evalRelocateMove_cross data pm (N : nat) (s : list (list nat))
    ru A SU B rv C' D V d :
  (1 ≤ N)%nat → fits N s → NoDup (mjoin s) → ru ≠ rv →
  s !! ru = Some (A ++ SU ++ B) → s !! rv = Some (C' ++ D) →
  length SU = N → nodeAt s rv (Z.of_nat (length C')) = V →
  intSafe data pm s (Exchange.apply N 0 s (ClientNode (headD SU)) V) →
  Exchange.evalRelocateMove data pm N s (ClientNode (headD SU)) V = (Complete, d) →
  d = solutionCost data pm (Exchange.apply N 0 s (ClientNode (headD SU)) V)
      - solutionCost data pm s.
Proof.
  intros HN1 Hfit Hnd Hne HU HV HlU Hanc Hsafe Heval.
  assert (1 ≤ N ≤ N)%nat as HN by lia.
  assert (SU ≠ []) as HSU by (intros ->; simpl in HlU; lia).
  destruct (apply_relocate_cross N s ru A SU B rv C' D V)
    as (Hlen & HU' & HV' & Hother); try done.
  rewrite (solutionCost_two data pm s _ ru rv _ _ _ _ Hlen Hne HU HV HU' HV' Hother).
  unfold Exchange.evalRelocateMove in Heval. cbv zeta in Heval.
  rewrite (seg_end N N s ru A SU B) in Heval by done.
  rewrite (seg_route N N s ru A SU B) in Heval by done.
  rewrite (anc_route s rv C' D V Hnd HV Hanc) in Heval.
  rewrite decide_True in Heval by done.
  rewrite (seg_distAround data N N s ru A SU B) in Heval by done.
  rewrite (seg_distInner data N N s ru A SU B) in Heval by done.
  rewrite (seg_loadInner data N N s ru A SU B) in Heval by done.
  rewrite (seg_twInner data N N s ru A SU B) in Heval by done.
  rewrite (seg_twBefore data N N s ru A SU B) in Heval by done.
  rewrite (seg_twAfter data N N s ru A SU B) in Heval by done.
  rewrite (anc_twBefore data N s rv C' D V Hfit Hnd HV Hanc) in Heval.
  rewrite (anc_twAfter data N s rv C' D V HN1 Hfit Hnd HV Hanc) in Heval.
  destruct (seg_pred N N s ru A SU B) as (HpU & _ & _); try done.
  destruct (seg_succ N N s ru A SU B) as (HnU & _ & _); try done.
  destruct (anc_succ N s rv C' D V HN1 Hfit Hnd HV Hanc) as (HnV & _ & _).
  rewrite HpU, HnU, HnV in Heval.
  rewrite (anc_client s rv C' D V HV Hanc) in Heval.
  rewrite (load_lookup data s ru _ HU), (load_lookup data s rv _ HV) in Heval.
  rewrite (timeWarp_lookup data s ru _ HU), (timeWarp_lookup data s rv _ HV) in Heval.
  cbn [clientOf] in Heval.
  rewrite ofList_app3 in Heval by first [done | by destruct D].
  rewrite <- ofList_app in Heval by first [done | by destruct B].
  destruct (_ && _) in Heval; [done|].
  destruct (bool_decide _) in Heval; [done|].
  injection Heval as <-.
  destruct (intSafe_two data pm s _ ru rv _ _ _ _ Hsafe Hne HU HV HU' HV')
    as (HL & Hcb & Hca).
  destruct Hsafe as (Hd & Hcp & Htp & _).
  pose proof (demandSum_nonneg data A Hd). pose proof (demandSum_nonneg data SU Hd).
  pose proof (demandSum_nonneg data B Hd). pose proof (demandSum_nonneg data C' Hd).
  pose proof (demandSum_nonneg data D Hd).
  assert (demandSum data (A ++ SU ++ B)
          = demandSum data A + demandSum data SU + demandSum data B) as HdU
    by (rewrite !demandSum_app; lia).
  assert (demandSum data (C' ++ D) = demandSum data C' + demandSum data D)
    as HdV by (rewrite !demandSum_app; lia).
  unwrap_loads. revert Hcb Hca.
  rewrite !routeCost_blocks by done. rewrite !routeCost_blocks2.
  unfold routeTimeWarp.
  replace (demandSum data (A ++ B))
    with (demandSum data (A ++ SU ++ B) - demandSum data SU)
    by (rewrite !demandSum_app; lia).
  replace (demandSum data (C' ++ SU ++ D))
    with (demandSum data (C' ++ D) + demandSum data SU)
    by (rewrite !demandSum_app; lia).
  rewrite !routeNodes_blocks.
  replace (routeNodes (C' ++ D)) with ((0%nat :: C') ++ D ++ [0%nat])
    by (unfold routeNodes; simpl; by rewrite <- (assoc_L (++))).
  rewrite <- ?(assoc_L (++)). rewrite <- ?app_comm_cons.
  intros Hcb Hca. pose_nonneg Hd Hcp Htp. unwrap_int. lia.
Qed.

Lemma nodeAt_prefix_last (s : list (list nat)) rv (C' D : list nat) :
  s !! rv = Some (C' ++ D) → C' ≠ [] →
  nodeAt s rv (Z.of_nat (length C')) = ClientNode (lastD C').
Proof.
  intros Hwin HC. destruct (exists_last HC) as (C & v & ->).
  rewrite lastD_snoc, length_app. simpl.
  replace (Z.of_nat (length C + 1)) with (Z.of_nat (length C) + 1) by lia.
  apply (nodeAt_client s rv _ _ v Hwin).
  rewrite <- (assoc_L (++)). rewrite lookup_app_r by lia.
  by rewrite Nat.sub_diag.
Qed.

Lemma evalRelocateMove_same_fwd data pm (N : nat) (s : list (list nat))
    ru A SU Mid D d :
  (1 ≤ N)%nat → fits N s → NoDup (mjoin s) →
  s !! ru = Some (A ++ SU ++ Mid ++ D) → length SU = N → Mid ≠ [] →
  intSafe data pm s
    (Exchange.apply N 0 s (ClientNode (headD SU)) (ClientNode (lastD Mid))) →
  Exchange.evalRelocateMove data pm N s
    (ClientNode (headD SU)) (ClientNode (lastD Mid)) = (Complete, d) →
  d = solutionCost data pm
        (Exchange.apply N 0 s (ClientNode (headD SU)) (ClientNode (lastD Mid)))
      - solutionCost data pm s.
Proof.
  intros HN1 Hfit Hnd HU HlU HMid Hsafe Heval.
  assert (1 ≤ N ≤ N)%nat as HN by lia.
  assert (SU ≠ []) as HSU by (intros ->; simpl in HlU; lia).
  destruct (apply_relocate_fwd N s ru A SU Mid D)
    as (Hlen & HU' & Hother); try done.
  rewrite (solutionCost_one data pm s _ ru _ _ Hlen HU HU' Hother).
  assert (s !! ru = Some ((A ++ SU ++ Mid) ++ D)) as HV.
  { rewrite HU. f_equal. by rewrite <- !(assoc_L (++)). }
  assert (nodeAt s ru (Z.of_nat (length (A ++ SU ++ Mid)))
          = ClientNode (lastD Mid)) as Hanc.
  { rewrite (nodeAt_prefix_last s ru _ D HV) by (by destruct A, SU, Mid).
    rewrite (lastD_app A) by (by destruct SU, Mid). by rewrite lastD_app. }
  set (V := ClientNode (lastD Mid)) in *.
  pose proof (seg_bound N N s ru A SU (Mid ++ D) HN Hfit HU HlU) as Hb.
  rewrite !length_app in Hb.
  unfold Exchange.evalRelocateMove in Heval. cbv zeta in Heval.
  rewrite (seg_end N N s ru A SU (Mid ++ D)) in Heval by done.
  rewrite (seg_route N N s ru A SU (Mid ++ D)) in Heval by done.
  rewrite (anc_route s ru _ D V Hnd HV Hanc) in Heval.
  rewrite (decide_False (P := ru ≠ ru)) in Heval by (intros H; by apply H).
  rewrite (seg_distAround data N N s ru A SU (Mid ++ D)) in Heval by done.
  rewrite (seg_distInner data N N s ru A SU (Mid ++ D)) in Heval by done.
  rewrite (seg_twInner data N N s ru A SU (Mid ++ D)) in Heval by done.
  rewrite (seg_twBefore data N N s ru A SU (Mid ++ D)) in Heval by done.
  rewrite (anc_twAfter data N s ru _ D V HN1 Hfit Hnd HV Hanc) in Heval.
  destruct (seg_pred N N s ru A SU (Mid ++ D)) as (HpU & _ & _); try done.
  destruct (seg_succ N N s ru A SU (Mid ++ D)) as (HnU & _ & _); try done.
  destruct (anc_succ N s ru _ D V HN1 Hfit Hnd HV Hanc) as (HnV & _ & _).
  rewrite HpU, HnU, HnV in Heval.
  rewrite (anc_client s ru _ D V HV Hanc) in Heval.
  rewrite (timeWarp_lookup data s ru _ HU) in Heval.
  cbn [clientOf] in Heval.
  rewrite (seg_position N N s ru A SU (Mid ++ D)) in Heval by done.
  rewrite (anc_position N s ru _ D V Hfit Hnd HV Hanc) in Heval.
  rewrite !length_app in Heval.
  rewrite (bool_decide_eq_true_2 (Z.of_nat (length A) + 1 < _)) in Heval
    by (destruct Mid; [done|simpl; lia]).
  rewrite (twBetween_blocks data s ru _ ((0%nat :: A) ++ SU) Mid
             (D ++ [0%nat]) _ _ HU) in Heval.
  2: { rewrite routeNodes_blocks. by rewrite <- !(assoc_L (++)). }
  2: { rewrite szAdd_small by lia. rewrite length_app. simpl. lia. }
  2: { rewrite length_app. simpl. lia. }
  rewrite ofList_app4 in Heval by first [done | by destruct D].
  assert (lastD (0%nat :: A ++ SU ++ Mid) = lastD Mid) as HlM.
  { rewrite lastD_cons by (by destruct A, SU, Mid).
    rewrite (assoc_L (++)). by apply lastD_app. }
  assert (headD ((Mid ++ D) ++ [0%nat]) = headD Mid) as HhM.
  { rewrite <- (assoc_L (++)). by apply headD_app. }
  rewrite HlM, HhM in Heval.
  destruct (_ && _) in Heval; [done|].
  injection Heval as <-.
  destruct (intSafe_one data pm s _ ru _ _ Hsafe HU HU') as (_ & Hcb & Hca).
  destruct Hsafe as (Hd & Hcp & Htp & _). revert Hcb Hca.
  rewrite !routeCost_blocks4 by done.
  unfold routeTimeWarp. rewrite !routeNodes_blocks.
  replace (demandSum data (A ++ Mid ++ SU ++ D))
    with (demandSum data (A ++ SU ++ Mid ++ D))
    by (rewrite !demandSum_app; lia).
  rewrite <- ?(assoc_L (++)). rewrite <- ?app_comm_cons.
  intros Hcb Hca. pose_nonneg Hd Hcp Htp. unwrap_int. lia.
Qed.

Lemma evalRelocateMove_same_bwd data pm (N : nat) (s : list (list nat))
    ru C' Mid SU B V d :
  (1 ≤ N)%nat → fits N s → NoDup (mjoin s) →
  s !! ru = Some (C' ++ Mid ++ SU ++ B) → length SU = N → Mid ≠ [] →
  nodeAt s ru (Z.of_nat (length C')) = V →
  intSafe data pm s (Exchange.apply N 0 s (ClientNode (headD SU)) V) →
  Exchange.evalRelocateMove data pm N s (ClientNode (headD SU)) V = (Complete, d) →
  d = solutionCost data pm (Exchange.apply N 0 s (ClientNode (headD SU)) V)
      - solutionCost data pm s.
Proof.
  intros HN1 Hfit Hnd HV HlU HMid Hanc Hsafe Heval.
  assert (1 ≤ N ≤ N)%nat as HN by lia.
  assert (SU ≠ []) as HSU by (intros ->; simpl in HlU; lia).
  destruct (apply_relocate_bwd N s ru C' Mid SU B V)
    as (Hlen & HU' & Hother); try done.
  rewrite (solutionCost_one data pm s _ ru _ _ Hlen HV HU' Hother).
  assert (s !! ru = Some ((C' ++ Mid) ++ SU ++ B)) as HU.
  { rewrite HV. f_equal. by rewrite <- !(assoc_L (++)). }
  pose proof (seg_bound N N s ru (C' ++ Mid) SU B HN Hfit HU HlU) as Hb.
  rewrite !length_app in Hb.
  unfold Exchange.evalRelocateMove in Heval. cbv zeta in Heval.
  rewrite (seg_end N N s ru (C' ++ Mid) SU B) in Heval by done.
  rewrite (seg_route N N s ru (C' ++ Mid) SU B) in Heval by done.
  rewrite (anc_route s ru C' _ V Hnd HV Hanc) in Heval.
  rewrite (decide_False (P := ru ≠ ru)) in Heval by (intros H; by apply H).
  rewrite (seg_distAround data N N s ru (C' ++ Mid) SU B) in Heval by done.
  rewrite (seg_distInner data N N s ru (C' ++ Mid) SU B) in Heval by done.
  rewrite (seg_twInner data N N s ru (C' ++ Mid) SU B) in Heval by done.
  rewrite (seg_twAfter data N N s ru (C' ++ Mid) SU B) in Heval by done.
  rewrite (anc_twBefore data N s ru C' _ V Hfit Hnd HV Hanc) in Heval.
  destruct (seg_pred N N s ru (C' ++ Mid) SU B) as (HpU & _ & _); try done.
  destruct (seg_succ N N s ru (C' ++ Mid) SU B) as (HnU & _ & _); try done.
  destruct (anc_succ N s ru C' _ V HN1 Hfit Hnd HV Hanc) as (HnV & _ & _).
  rewrite HpU, HnU, HnV in Heval.
  rewrite (anc_client s ru C' _ V HV Hanc) in Heval.
  rewrite (timeWarp_lookup data s ru _ HV) in Heval.
  cbn [clientOf] in Heval.
  rewrite (seg_position N N s ru (C' ++ Mid) SU B) in Heval by done.
  rewrite (anc_position N s ru C' _ V Hfit Hnd HV Hanc) in Heval.
  rewrite !length_app in Heval.
  rewrite (bool_decide_eq_false_2 (_ < Z.of_nat (length C'))) in Heval by lia.
  rewrite (twBetween_blocks data s ru _ (0%nat :: C') Mid
             (SU ++ B ++ [0%nat]) _ _ HV) in Heval.
  2: { rewrite (routeNodes_blocks C' Mid (SU ++ B)).
       by rewrite <- !(assoc_L (++)). }
  2: { rewrite szAdd_small by lia. simpl. lia. }
  2: { rewrite szSub_small by lia. simpl. lia. }
  rewrite ofList_app4 in Heval by first [done | by destruct B].
  assert (lastD (0%nat :: C' ++ Mid) = lastD Mid) as HlM.
  { rewrite lastD_cons by (by destruct C', Mid). by apply lastD_app. }
  assert (headD ((Mid ++ SU ++ B) ++ [0%nat]) = headD Mid) as HhM.
  { rewrite <- (assoc_L (++)). by apply headD_app. }
  rewrite HlM, HhM in Heval.
  destruct (_ && _) in Heval; [done|].
  injection Heval as <-.
  destruct (intSafe_one data pm s _ ru _ _ Hsafe HV HU') as (_ & Hcb & Hca).
  destruct Hsafe as (Hd & Hcp & Htp & _). revert Hcb Hca.
  rewrite !routeCost_blocks4 by done.
  unfold routeTimeWarp. rewrite !routeNodes_blocks.
  replace (demandSum data (C' ++ SU ++ Mid ++ B))
    with (demandSum data (C' ++ Mid ++ SU ++ B))
    by (rewrite !demandSum_app; lia).
  rewrite <- ?(assoc_L (++)). rewrite <- ?app_comm_cons.
  intros Hcb Hca. pose_nonneg Hd Hcp Htp. unwrap_int. lia.
Qed.

(** ** The value of a relocation *)

Lemma nodeIn_client (s : list (list nat)) c :
  nodeIn s (ClientNode c) → ∃ ri r i, s !! ri = Some r ∧ r !! i = Some c.
Proof.
  simpl. intros (r & Hc & Hr)%list_elem_of_join.
  apply list_elem_of_lookup in Hr as [ri Hr].
  apply list_elem_of_lookup in Hc as [i Hi]. by exists ri, r, i.
Qed.

Lemma prefix_split (r : list nat) (j : nat) :
  (j < length r)%nat →
  r = take (S j) r ++ drop (S j) r ∧ length (take (S j) r) = S j.
Proof.
  intros Hj. split; [by rewrite take_drop|]. rewrite length_take. lia.
Qed.

(** What the pre-filters leave of a relocation (M = 0): a segment of
    clients and an anchor in another route, or in the same route with
    clients between the two. *)
Lemma relocate_shape (N : nat) (s : list (list nat)) U V :
  (1 ≤ N)%nat → fits N s → NoDup (mjoin s) →
  nodeIn s U → nodeIn s V → U ≠ V → (∀ r, V ≠ EndDepot r) →
  prefiltered N 0 s U V = false →
  ∃ SU, U = ClientNode (headD SU) ∧ length SU = N
    ∧ ((∃ ru rv A B C' D, ru ≠ rv ∧ s !! ru = Some (A ++ SU ++ B)
                          ∧ s !! rv = Some (C' ++ D)
                          ∧ nodeAt s rv (Z.of_nat (length C')) = V)
       ∨ (∃ ru A Mid D, Mid ≠ [] ∧ s !! ru = Some (A ++ SU ++ Mid ++ D)
                        ∧ V = ClientNode (lastD Mid))
       ∨ (∃ ru C' Mid B, Mid ≠ [] ∧ s !! ru = Some (C' ++ Mid ++ SU ++ B)
                         ∧ nodeAt s ru (Z.of_nat (length C')) = V)).
Proof.
  intros HN Hfit Hnd HinU HinV HUV HVend Hpre.
  apply prefiltered_false in Hpre as (HdU & Hov & _ & HnV & _ & _).
  specialize (HnV eq_refl).
  destruct (segment_block N N s U)
    as (ri & r & i & u & -> & _ & Hr & Hi & HiN & HrU & HpU); [lia|done..|].
  destruct (block_at r i N u Hi HiN) as (HlU & HhU); [lia|].
  exists (take N (drop i r)). rewrite HhU. do 2 (split; [done|]).
  pose proof (fits_lookup N s ri r Hfit Hr) as Hf.
  destruct V as [v|rj|rj]; [| |by destruct (HVend rj)].
  - destruct (nodeIn_client s v HinV) as (rj & r' & j & Hr' & Hj).
    pose proof (lookup_lt_Some _ _ _ Hj) as Hjlt.
    destruct (prefix_split r' j Hjlt) as (Hsplit & Hlp).
    assert (nodeAt s rj (Z.of_nat (length (take (S j) r'))) = ClientNode v)
      as Hanc.
    { rewrite Hlp. replace (Z.of_nat (S j)) with (Z.of_nat j + 1) by lia.
      by apply (nodeAt_client s rj r' j v). }
    destruct (decide (ri = rj)) as [<-|Hne].
    + assert (r' = r) as -> by congruence. right.
      pose proof (route_client s ri r j v Hnd Hr Hj) as HrV.
      pose proof (position_client N s ri r j v Hfit Hnd Hr Hj) as HpV.
      unfold Exchange.overlap in Hov.
      rewrite (bool_decide_eq_true_2
                 (route s (ClientNode u) = route s (ClientNode v)))
        in Hov by congruence.
      rewrite HpU, HpV in Hov.
      rewrite !szAdd_small, !szSub_small in Hov by lia.
      simpl in Hov. apply andb_false_iff in Hov.
      assert (j ≠ i) as Hji by (intros ->; congruence).
      assert (S j ≠ i) as Hji'.
      { intros <-. apply HnV.
        rewrite (n_client N s ri r j v HN Hfit Hnd Hr Hj). by rewrite Hi. }
      assert (i + N ≤ j ∨ S j < i)%nat as [Hord|Hord].
      { destruct Hov as [H|H]; apply bool_decide_eq_false in H; lia. }
      * left. exists ri, (take i r),
          (take (S j - (i + N)) (drop (i + N) r)), (drop (S j) r).
        assert (take (S j - (i + N)) (drop (i + N) r) ≠ []) as HMid.
        { intros Hnil. apply (f_equal length) in Hnil.
          rewrite length_take, length_drop in Hnil. simpl in Hnil. lia. }
        split; [done|]. split.
        -- rewrite Hr. f_equal.
           rewrite (two_blocks_split r i N (S j) 0) at 1 by lia.
           simpl. by rewrite Nat.add_0_r.
        -- f_equal. symmetry.
           assert (take (S j - (i + N)) (drop (i + N) r)
                     !! (length (take (S j - (i + N)) (drop (i + N) r)) - 1)%nat
                   = Some v) as Hl.
           { rewrite length_take, length_drop.
             rewrite lookup_take_lt by lia. rewrite lookup_drop.
             rewrite <- Hj. f_equal. lia. }
           rewrite (lastD_lookup _ HMid) in Hl. by injection Hl.
      * right. exists ri, (take (S j) r),
          (take (i - S j) (drop (S j) r)), (drop (i + N) r).
        split.
        { intros Hnil. apply (f_equal length) in Hnil.
          rewrite length_take, length_drop in Hnil. simpl in Hnil. lia. }
        split; [|done].
        rewrite Hr. f_equal.
        rewrite (two_blocks_split r 0 (S j) i N) at 1 by lia.
        by rewrite take_0, drop_0.
    + left. exists ri, rj, (take i r), (drop (i + N) r),
        (take (S j) r'), (drop (S j) r').
      split; [done|]. split; [|split; [|done]].
      * rewrite Hr. f_equal. apply (block_split r i N u); [done|done|lia].
      * rewrite Hr'. by f_equal.
  - simpl in HinV. apply lookup_lt_is_Some_2 in HinV as [r' Hr'].
    destruct (decide (ri = rj)) as [<-|Hne].
    + exfalso.
      unfold Exchange.overlap in Hov.
      rewrite (bool_decide_eq_true_2
                 (route s (ClientNode u) = route s (StartDepot ri)))
        in Hov by done.
      rewrite HpU in Hov.
      change (position s (StartDepot ri)) with 0 in Hov.
      change (Z.of_nat 0%nat) with 0 in Hov.
      rewrite szSub_0_1 in Hov.
      rewrite !szAdd_small, !szSub_small in Hov by lia.
      simpl in Hov. apply andb_false_iff in Hov.
      destruct Hov as [H|H]; apply bool_decide_eq_false in H; lia.
    + left. exists ri, rj, (take i r), (drop (i + N) r), [], r'.
      split; [done|]. split; [|split; [done|done]].
      rewrite Hr. f_equal. apply (block_split r i N u); [done|done|lia].
Qed.

(** When [evalRelocateMove] runs to its last [return] and no [int]
    operation overflows, the value is the change of the penalised cost that
    [apply] brings about. *)
Lemma evalRelocateMove_complete data pm (N : nat) (s : list (list nat)) U V d :
  (1 ≤ N)%nat → fits N s → NoDup (mjoin s) →
  nodeIn s U → nodeIn s V → U ≠ V → (∀ r, V ≠ EndDepot r) →
  prefiltered N 0 s U V = false →
  intSafe data pm s (Exchange.apply N 0 s U V) →
  Exchange.evalRelocateMove data pm N s U V = (Complete, d) →
  d = solutionCost data pm (Exchange.apply N 0 s U V) - solutionCost data pm s.
Proof.
  intros HN Hfit Hnd HinU HinV HUV HVend Hpre Hsafe Heval.
  destruct (relocate_shape N s U V HN Hfit Hnd HinU HinV HUV HVend Hpre)
    as (SU & -> & HlU & Hshape).
  destruct Hshape as [(ru & rv & A & B & C' & D & Hne & HU & HV & Hanc)
                     |[(ru & A & Mid & D & HMid & HU & ->)
                      |(ru & C' & Mid & B & HMid & HU & Hanc)]].
  - by apply (evalRelocateMove_cross data pm N s ru A SU B rv C' D V).
  - by apply (evalRelocateMove_same_fwd data pm N s ru A SU Mid D).
  - by apply (evalRelocateMove_same_bwd data pm N s ru C' Mid SU B V).
Qed.

(** An early [return] of a move evaluation never returns a negative
    value. *)
Ltac early_return :=
  lazymatch goal with
  | |- (if ?c && bool_decide (0 ≤ ?x) then _ else _) = _ → _ =>
      let E := fresh "E" in
      destruct (c && bool_decide (0 ≤ x)) eqn:E;
      [ intros [= <-]; apply andb_true_iff in E as [_ E];
        by apply bool_decide_eq_true in E
      | ]
  | |- (if bool_decide (0 ≤ ?x) then _ else _) = _ → _ =>
      let E := fresh "E" in
      destruct (bool_decide (0 ≤ x)) eqn:E;
      [ intros [= <-]; by apply bool_decide_eq_true in E | ]
  end.

Lemma evalSwapMove_early data pm (N M : nat) (s : list (list nat)) U V d :
  Exchange.evalSwapMove data pm N M s U V = (ShortCircuit, d) → 0 ≤ d.
Proof.
  unfold Exchange.evalSwapMove. lazy zeta.
  destruct (decide (route s U ≠ route s V)); early_return; by intros [=].
Qed.

Lemma evalRelocateMove_early data pm (N : nat) (s : list (list nat)) U V d :
  Exchange.evalRelocateMove data pm N s U V = (ShortCircuit, d) → 0 ≤ d.
Proof.
  unfold Exchange.evalRelocateMove. lazy zeta.
  destruct (decide (route s U ≠ route s V)).
  - early_return. early_return. by intros [=].
  - early_return. by intros [=].
Qed.

(** ** The clients of the routes after [apply] *)

Lemma join_extract (s : list (list nat)) k (r : list nat) :
  s !! k = Some r → mjoin s ≡ₚ r ++ mjoin (<[k:=[]]> s).
Proof.
  revert k. induction s as [|r0 s IH]; intros k Hk; [done|].
  destruct k as [|k]; simpl in Hk.
  - injection Hk as ->. done.
  - change (<[S k:=[]]> (r0 :: s)) with (r0 :: <[k:=[]]> s).
    simpl. rewrite (IH k Hk). solve_Permutation.
Qed.

Lemma emptied_eq (s s' : list (list nat)) k :
  length s' = length s → (∀ j, j ≠ k → s' !! j = s !! j) →
  <[k:=[]]> s' = <[k:=[]]> s.
Proof.
  intros Hlen Hother. apply list_eq. intros j.
  destruct (decide (j = k)) as [->|Hj].
  - destruct (decide (k < length s)%nat) as [Hk|Hk].
    + by rewrite !list_lookup_insert_eq by lia.
    + by rewrite !lookup_ge_None_2 by (rewrite length_insert; lia).
  - rewrite !list_lookup_insert_ne by done. by apply Hother.
Qed.

Lemma join_perm_one (s s' : list (list nat)) k (r r' : list nat) :
  length s' = length s → s !! k = Some r → s' !! k = Some r' →
  (∀ j, j ≠ k → s' !! j = s !! j) → r' ≡ₚ r →
  mjoin s' ≡ₚ mjoin s.
Proof.
  intros Hlen Hk Hk' Hother Hr.
  rewrite (join_extract s k r Hk), (join_extract s' k r' Hk').
  by rewrite (emptied_eq s s' k Hlen Hother), Hr.
Qed.

Lemma join_perm_two (s s' : list (list nat)) k1 k2 (r1 r2 r1' r2' : list nat) :
  length s' = length s → k1 ≠ k2 →
  s !! k1 = Some r1 → s !! k2 = Some r2 →
  s' !! k1 = Some r1' → s' !! k2 = Some r2' →
  (∀ j, j ≠ k1 → j ≠ k2 → s' !! j = s !! j) →
  r1' ++ r2' ≡ₚ r1 ++ r2 →
  mjoin s' ≡ₚ mjoin s.
Proof.
  intros Hlen Hne H1 H2 H1' H2' Hother Hr.
  rewrite (join_extract s k1 r1 H1), (join_extract s' k1 r1' H1').
  rewrite (join_extract (<[k1:=[]]> s) k2 r2)
    by (by rewrite list_lookup_insert_ne).
  rewrite (join_extract (<[k1:=[]]> s') k2 r2')
    by (by rewrite list_lookup_insert_ne).
  assert (<[k2:=[]]> (<[k1:=[]]> s') = <[k2:=[]]> (<[k1:=[]]> s)) as ->.
  { apply emptied_eq; [by rewrite !length_insert|].
    intros j Hj. destruct (decide (j = k1)) as [->|Hj1].
    - destruct (decide (k1 < length s)%nat) as [Hk|Hk].
      + by rewrite !list_lookup_insert_eq by lia.
      + by rewrite !lookup_ge_None_2 by (rewrite length_insert; lia).
    - rewrite !list_lookup_insert_ne by done. by apply Hother. }
  rewrite !(assoc_L (++)). by rewrite Hr.
Qed.

(** A valid move keeps the number of routes and the clients: the routes
    after [apply] hold the same clients, each once. *)
Lemma apply_perm (N M : nat) (s : list (list nat)) U V :
  (0 < N)%nat → (M ≤ N)%nat → fits N s → NoDup (mjoin s) →
  nodeIn s U → nodeIn s V → U ≠ V → (∀ r, V ≠ EndDepot r) →
  prefiltered N M s U V = false →
  length (Exchange.apply N M s U V) = length s
  ∧ mjoin (Exchange.apply N M s U V) ≡ₚ mjoin s.
Proof.
  intros HN HM Hfit Hnd HinU HinV HUV HVend Hpre.
  destruct (decide (M = 0%nat)) as [->|HM0].
  - destruct (relocate_shape N s U V ltac:(lia) Hfit Hnd HinU HinV HUV HVend Hpre)
      as (SU & -> & HlU & Hshape).
    destruct Hshape as [(ru & rv & A & B & C' & D & Hne & HU & HV & Hanc)
                       |[(ru & A & Mid & D & HMid & HU & ->)
                        |(ru & C' & Mid & B & HMid & HU & Hanc)]].
    + destruct (apply_relocate_cross N s ru A SU B rv C' D V)
        as (Hlen & HU' & HV' & Hother); try done.
      split; [done|].
      apply (join_perm_two s _ ru rv _ _ _ _ Hlen Hne HU HV HU' HV' Hother).
      solve_Permutation.
    + destruct (apply_relocate_fwd N s ru A SU Mid D)
        as (Hlen & HU' & Hother); try done.
      split; [done|].
      apply (join_perm_one s _ ru _ _ Hlen HU HU' Hother). solve_Permutation.
    + destruct (apply_relocate_bwd N s ru C' Mid SU B V)
        as (Hlen & HU' & Hother); try done.
      split; [done|].
      apply (join_perm_one s _ ru _ _ Hlen HU HU' Hother). solve_Permutation.
  - assert (1 ≤ M ≤ N)%nat as HM1 by lia.
    destruct (swap_shape N M s U V HM1 Hfit Hnd HinU HinV Hpre)
      as (SU & SV & -> & -> & HlU & HlV & Hshape).
    destruct Hshape as [(ru & rv & A & B & C & D & Hne & HU & HV)
                       |[(ru & A & Mid & D & HMid & HU)
                        |(ru & C & Mid & B & HMid & HU)]].
    + destruct (apply_cross_swap N M s ru A SU B rv C SV D)
        as (Hlen & HU' & HV' & Hother); try done.
      split; [done|].
      apply (join_perm_two s _ ru rv _ _ _ _ Hlen Hne HU HV HU' HV' Hother).
      solve_Permutation.
    + destruct (apply_same_swap_fwd N M s ru A SU Mid SV D)
        as (Hlen & HU' & Hother); try done.
      split; [done|].
      apply (join_perm_one s _ ru _ _ Hlen HU HU' Hother). solve_Permutation.
    + destruct (apply_same_swap_bwd N M s ru C SV Mid SU B)
        as (Hlen & HU' & Hother); try done.
      split; [done|].
      apply (join_perm_one s _ ru _ _ Hlen HU HU' Hother). solve_Permutation.
Qed.

(** ** Properties of [evaluate] *)

(** When [evaluate] runs a move evaluation to its last [return] and no
    [int] operation overflows, the value is the change of the penalised
    cost that [apply] brings about. *)
Lemma evaluateTrace_complete data pm (N M : nat) (s : list (list nat)) U V d :
  (0 < N)%nat → (M ≤ N)%nat → fits N s → NoDup (mjoin s) →
  nodeIn s U → nodeIn s V → U ≠ V → (∀ r, V ≠ EndDepot r) →
  intSafe data pm s (Exchange.apply N M s U V) →
  Exchange.evaluateTrace data pm N M s U V = (Complete, d) →
  d = solutionCost data pm (Exchange.apply N M s U V) - solutionCost data pm s.
Proof.
  intros HN HM Hfit Hnd HinU HinV HUV HVend Hsafe Heval.
  destruct (prefiltered N M s U V) eqn:Hpre.
  { by rewrite (evaluateTrace_prefiltered data pm N M s U V Hpre) in Heval. }
  rewrite (evaluateTrace_not_prefiltered data pm N M s U V Hpre) in Heval.
  destruct (decide (M = 0%nat)) as [->|HM0].
  - by apply evalRelocateMove_complete.
  - apply evalSwapMove_complete; try done. lia.
Qed.

(** An exit of [evaluate] other than the last [return] of a move evaluation
    never gives a negative value. *)
Lemma evaluateTrace_early data pm (N M : nat) (s : list (list nat)) U V e d :
  Exchange.evaluateTrace data pm N M s U V = (e, d) → e ≠ Complete → 0 ≤ d.
Proof.
  intros Heval He.
  destruct (prefiltered N M s U V) eqn:Hpre.
  { rewrite (evaluateTrace_prefiltered data pm N M s U V Hpre) in Heval.
    by injection Heval as <- <-. }
  rewrite (evaluateTrace_not_prefiltered data pm N M s U V Hpre) in Heval.
  destruct e; [|by case_decide;
                  [eapply evalRelocateMove_early|eapply evalSwapMove_early]
               |done].
  case_decide.
  - by destruct (evalRelocateMove_not_filtered data pm N s U V); rewrite Heval.
  - by destruct (evalSwapMove_not_filtered data pm N M s U V); rewrite Heval.
Qed.

Lemma lookup_unique (s : list (list nat)) ri r i rj r' j c :
  NoDup (mjoin s) → s !! ri = Some r → r !! i = Some c →
  s !! rj = Some r' → r' !! j = Some c → ri = rj ∧ i = j.
Proof.
  intros Hnd Hr Hi Hr' Hj.
  pose proof (locate_lookup s ri r i c Hnd Hr Hi) as L1.
  pose proof (locate_lookup s rj r' j c Hnd Hr' Hj) as L2.
  rewrite L1 in L2. by injection L2.
Qed.

Lemma block_lookup (A Sg B : list nat) k :
  (k < length Sg)%nat → (A ++ Sg ++ B) !! (length A + k)%nat = Sg !! k.
Proof.
  intros Hk. rewrite lookup_app_r by lia.
  replace (length A + k - length A)%nat with k by lia.
  by rewrite lookup_app_l.
Qed.

(** X1: for a segment start U and a node V of a well-formed solution, V
    another node than U and not an end sentinel, and under the bound that
    keeps the [int] operations from overflowing (distances, demands and
    penalty multipliers not negative; total load, cost before and cost
    after below 2^31): when [evaluate] is not stopped by a pre-filter and
    the move evaluation runs to its last [return], the value returned is
    the penalised cost of the routes after [apply(U, V)] minus the
    penalised cost before. *)
Theorem evaluate_complete_exact data pm (N M : nat) (s : list (list nat)) U V :
  (0 < N)%nat → (M ≤ N)%nat → wfSol s → fits N s →
  nodeIn s U → nodeIn s V → U ≠ V → (∀ r, V ≠ EndDepot r) →
  intSafe data pm s (Exchange.apply N M s U V) →
  (Exchange.evaluateTrace data pm N M s U V).1 = Complete →
  Exchange.evaluate data pm N M s U V
  = solutionCost data pm (Exchange.apply N M s U V) - solutionCost data pm s.
Proof.
  intros HN HM [Hnd _] Hfit HinU HinV HUV HVend Hsafe Hexit.
  unfold Exchange.evaluate.
  destruct (Exchange.evaluateTrace data pm N M s U V) as [e d] eqn:Heval.
  simpl in Hexit |- *. subst e.
  by apply (evaluateTrace_complete data pm N M s U V d).
Qed.

Lemma evaluate_complete_exact_witness :
  Exchange.evaluate OkSmall examplePenalties 1 1
    [[1; 3]; [2; 4]; []]%nat (ClientNode 1) (ClientNode 2)
  = solutionCost OkSmall examplePenalties
      (Exchange.apply 1 1 [[1; 3]; [2; 4]; []]%nat (ClientNode 1) (ClientNode 2))
    - solutionCost OkSmall examplePenalties [[1; 3]; [2; 4]; []]%nat.
Proof.
  apply evaluate_complete_exact.
  - lia.
  - lia.
  - split; apply (bool_decide_unpack _); vm_compute; exact I.
  - unfold fits. simpl. lia.
  - simpl. repeat constructor.
  - simpl. repeat constructor.
  - discriminate.
  - discriminate.
  - int_safe_by_computation.
  - reflexivity.
Defined.

(** X2: a negative value of [evaluate] is exact.  For U, V as in X1 and
    under the same bound: whenever [evaluate(U, V)] is negative, so that
    the local search would apply the move, it is the penalised cost after
    [apply(U, V)] minus the penalised cost before. *)
Theorem improving_move_exact data pm (N M : nat) (s : list (list nat)) U V :
  (0 < N)%nat → (M ≤ N)%nat → wfSol s → fits N s →
  nodeIn s U → nodeIn s V → U ≠ V → (∀ r, V ≠ EndDepot r) →
  intSafe data pm s (Exchange.apply N M s U V) →
  Exchange.evaluate data pm N M s U V < 0 →
  Exchange.evaluate data pm N M s U V
  = solutionCost data pm (Exchange.apply N M s U V) - solutionCost data pm s.
Proof.
  intros HN HM [Hnd _] Hfit HinU HinV HUV HVend Hsafe Hneg.
  unfold Exchange.evaluate in *.
  destruct (Exchange.evaluateTrace data pm N M s U V) as [e d] eqn:Heval.
  simpl in Hneg |- *.
  destruct (decide (e = Complete)) as [->|He].
  - by apply (evaluateTrace_complete data pm N M s U V d).
  - pose proof (evaluateTrace_early data pm N M s U V e d Heval He). lia.
Qed.

Lemma improving_move_exact_witness :
  Exchange.evaluate OkSmall examplePenalties 1 0
    [[1; 3]; [2; 4]; []]%nat (ClientNode 3) (StartDepot 2)
  = solutionCost OkSmall examplePenalties
      (Exchange.apply 1 0 [[1; 3]; [2; 4]; []]%nat (ClientNode 3) (StartDepot 2))
    - solutionCost OkSmall examplePenalties [[1; 3]; [2; 4]; []]%nat.
Proof.
  apply improving_move_exact.
  - lia.
  - lia.
  - split; apply (bool_decide_unpack _); vm_compute; exact I.
  - unfold fits. simpl. lia.
  - simpl. repeat constructor.
  - simpl. lia.
  - discriminate.
  - discriminate.
  - int_safe_by_computation.
  - reflexivity.
Defined.

(** X3: [evaluate] never reports an improvement without evaluating the
    move completely: when it leaves through a pre-filter or through an
    early [return] of the move evaluation, the value is not negative. *)
Theorem early_exit_not_negative data pm (N M : nat) (s : list (list nat)) U V :
  (Exchange.evaluateTrace data pm N M s U V).1 ≠ Complete →
  0 ≤ Exchange.evaluate data pm N M s U V.
Proof.
  intros Hexit. unfold Exchange.evaluate.
  destruct (Exchange.evaluateTrace data pm N M s U V) as [e d] eqn:Heval.
  simpl in *. by apply (evaluateTrace_early data pm N M s U V e d).
Qed.

Lemma early_exit_not_negative_witness :
  0 ≤ Exchange.evaluate OkSmall examplePenalties 1 0
         [[1; 2]; [3]; [4]]%nat (ClientNode 1) (ClientNode 4).
Proof. apply early_exit_not_negative. discriminate. Defined.

(** X4: the code's reason for the symmetry pruning.  For N = M and two
    nodes in different routes, or at different positions of one route,
    the swap move evaluates to the same result, through the same exit, in
    both orders of the pair. *)
Theorem evalSwapMove_symmetric data pm (N : nat) (s : list (list nat)) U V :
  route s U ≠ route s V ∨ position s U ≠ position s V →
  Exchange.evalSwapMove data pm N N s U V
  = Exchange.evalSwapMove data pm N N s V U.
Proof.
  intros Hdiff. unfold Exchange.evalSwapMove. lazy zeta.
  destruct (decide (route s U ≠ route s V)) as [Hne|Heq].
  - rewrite (decide_True (P := route s V ≠ route s U)) by congruence.
    rewrite (andb_comm (isFeasible data s (route s V))).
    push_wrap.
    match goal with
    | |- (if _ && bool_decide (0 ≤ wrapInt ?x) then _ else _)
         = (if _ && bool_decide (0 ≤ wrapInt ?y) then _ else _) =>
        replace y with x by lia
    end.
    destruct (_ && _); [done|].
    apply (f_equal (pair Complete)).
    repeat match goal with
           | |- context [loadPenalty data pm (wrapInt (?a - (?b - ?c)))] =>
               replace (a - (b - c)) with (a + (c - b)) by lia
           end.
    repeat match goal with
           | |- context [loadPenalty data pm ?x] =>
               generalize (loadPenalty data pm x); intro
           end.
    push_wrap. apply (f_equal wrapInt). lia.
  - assert (route s U = route s V) as Hr.
    { destruct (decide (route s U = route s V)); [done|by destruct Heq]. }
    destruct Hdiff as [?|Hpos]; [done|].
    rewrite (decide_False (P := route s V ≠ route s U))
      by (intros H; apply H; congruence).
    rewrite <- !Hr.
    push_wrap.
    match goal with
    | |- (if _ && bool_decide (0 ≤ wrapInt ?x) then _ else _)
         = (if _ && bool_decide (0 ≤ wrapInt ?y) then _ else _) =>
        replace y with x by lia
    end.
    destruct (_ && _); [done|]. apply (f_equal (pair Complete)).
    destruct (decide (position s U < position s V)) as [Hlt|Hge].
    + rewrite (bool_decide_eq_true_2 _ Hlt).
      rewrite (bool_decide_eq_false_2 (position s V < position s U)) by lia.
      push_wrap. apply (f_equal wrapInt). lia.
    + rewrite (bool_decide_eq_false_2 _ Hge).
      rewrite (bool_decide_eq_true_2 (position s V < position s U)) by lia.
      push_wrap. apply (f_equal wrapInt). lia.
Qed.

Lemma evalSwapMove_symmetric_witness :
  Exchange.evalSwapMove OkSmall examplePenalties 1 1
    [[1; 2; 3; 4]; []; []]%nat (ClientNode 1) (ClientNode 3)
  = Exchange.evalSwapMove OkSmall examplePenalties 1 1
      [[1; 2; 3; 4]; []; []]%nat (ClientNode 3) (ClientNode 1).
Proof.
  apply evalSwapMove_symmetric. right. vm_compute. discriminate.
Defined.

(** X5: symmetry pruning.  For N = M, of the two orders of a pair of
    nodes at most one is evaluated: [evaluate(U, V)] or [evaluate(V, U)]
    leaves through a pre-filter, with 0. *)
Theorem symmetric_pair_evaluated_once data pm (N : nat) (s : list (list nat)) U V :
  (0 < N)%nat →
  Exchange.evaluateTrace data pm N N s U V = (Filtered, 0)
  ∨ Exchange.evaluateTrace data pm N N s V U = (Filtered, 0).
Proof.
  intros HN.
  assert (∀ X Y, (clientOf Y ≤ clientOf X)%nat →
            Exchange.evaluateTrace data pm N N s X Y = (Filtered, 0)) as H.
  { intros X Y Hle. apply evaluateTrace_prefiltered. unfold prefiltered.
    rewrite (bool_decide_eq_true_2 (0 < N)%nat) by done.
    rewrite (bool_decide_eq_true_2 (N = N)) by done.
    rewrite (bool_decide_eq_true_2 _ Hle). simpl.
    by rewrite !orb_true_r. }
  destruct (decide (clientOf V ≤ clientOf U)%nat) as [Hle|Hgt].
  - left. by apply H.
  - right. apply H. lia.
Qed.

Lemma symmetric_pair_evaluated_once_witness :
  Exchange.evaluateTrace OkSmall examplePenalties 1 1
    [[1; 2]; [3]; [4]]%nat (ClientNode 1) (ClientNode 3) = (Filtered, 0)
  ∨ Exchange.evaluateTrace OkSmall examplePenalties 1 1
      [[1; 2]; [3]; [4]]%nat (ClientNode 3) (ClientNode 1) = (Filtered, 0).
Proof. apply symmetric_pair_evaluated_once. lia. Defined.

(** X6: what [containsDepot] tests.  For a node of a well-formed
    solution and a length K ≥ 1, [containsDepot(node, K)] is false exactly
    when the node is a client node and the K nodes from it onwards are
    client nodes of its route: the route is [A ++ Sg ++ B] with Sg of
    length K starting at the node. *)
Theorem containsDepot_spec (K : nat) (s : list (list nat)) node :
  (1 ≤ K)%nat → wfSol s → fits K s → nodeIn s node →
  Exchange.containsDepot s node K = false
  ↔ ∃ ri A Sg B, s !! ri = Some (A ++ Sg ++ B) ∧ length Sg = K
                 ∧ node = ClientNode (headD Sg).
Proof.
  intros HK [Hnd H0] Hfit Hin. split.
  - intros Hd.
    destruct (segment_block K K s node)
      as (ri & r & i & c & -> & _ & Hr & Hi & HiK & _ & _); [lia|done..|].
    destruct (block_split r i K c Hi HiK HK) as (Hsplit & Hlen & Hhead).
    exists ri, (take i r), (take K (drop i r)), (drop (i + K) r).
    split; [by rewrite Hr, <- Hsplit|]. split; [done|].
    by rewrite (headD_head _ c Hhead).
  - intros (ri & A & Sg & B & Hwin & Hlen & ->).
    assert (1 ≤ K ≤ K)%nat as HKK by lia.
    assert (Sg ≠ []) as Hne by (intros ->; simpl in Hlen; lia).
    unfold Exchange.containsDepot.
    assert (isDepot (ClientNode (headD Sg)) = false) as ->.
    { apply bool_decide_eq_false. simpl. intros Hz. apply H0.
      apply (window_elem_of s ri A Sg B 0%nat Hwin).
      destruct Sg as [|x Sg']; [done|]. change (x = 0%nat) in Hz.
      subst x. by left. }
    rewrite (seg_route K K s ri A Sg B) by done.
    rewrite (seg_position K K s ri A Sg B) by done.
    rewrite (seg_size K K s ri A Sg B) by done.
    pose proof (seg_bound K K s ri A Sg B HKK Hfit Hwin Hlen) as Hb.
    rewrite szAdd_small, szSub_small by lia.
    apply bool_decide_eq_false. lia.
Qed.

Lemma containsDepot_spec_witness :
  Exchange.containsDepot [[1; 2; 3; 4]; []; []]%nat (ClientNode 2) 2 = false
  ↔ ∃ ri A Sg B, [[1; 2; 3; 4]; []; []]%nat !! ri = Some (A ++ Sg ++ B)
                 ∧ length Sg = 2%nat
                 ∧ ClientNode 2 = ClientNode (headD Sg).
Proof.
  apply containsDepot_spec.
  - lia.
  - split; apply (bool_decide_unpack _); vm_compute; exact I.
  - unfold fits. simpl. lia.
  - simpl. repeat constructor.
Defined.

(** X7: what [overlap] tests.  For two segments of clients, of lengths N
    and M ≥ 1, [overlap(U, V)] holds exactly when the two segments have a
    client in common. *)
Theorem overlap_spec (N M : nat) (s : list (list nat)) ru A SU B rv C SV D :
  (1 ≤ M ≤ N)%nat → wfSol s → fits N s →
  s !! ru = Some (A ++ SU ++ B) → s !! rv = Some (C ++ SV ++ D) →
  length SU = N → length SV = M →
  Exchange.overlap N M s (ClientNode (headD SU)) (ClientNode (headD SV)) = true
  ↔ ∃ x, x ∈ SU ∧ x ∈ SV.
Proof.
  intros HM [Hnd _] Hfit HU HV HlU HlV.
  assert (1 ≤ N ≤ N)%nat as HN by lia.
  pose proof (seg_bound N N s ru A SU B HN Hfit HU HlU) as HbU.
  pose proof (seg_bound N M s rv C SV D HM Hfit HV HlV) as HbV.
  unfold Exchange.overlap.
  rewrite (seg_route N N s ru A SU B), (seg_route N M s rv C SV D) by done.
  rewrite (seg_position N N s ru A SU B), (seg_position N M s rv C SV D) by done.
  rewrite !szAdd_small, !szSub_small by lia.
  rewrite !andb_true_iff, !bool_decide_eq_true.
  split.
  - intros [[-> H1] H2].
    assert (A ++ SU ++ B = C ++ SV ++ D) as Hr by congruence.
    set (k := (length A `max` length C)%nat).
    assert (is_Some (SU !! (k - length A)%nat)) as [x Hx]
      by (apply lookup_lt_is_Some_2; lia).
    assert (is_Some (SV !! (k - length C)%nat)) as [y Hy]
      by (apply lookup_lt_is_Some_2; lia).
    rewrite <- (block_lookup A SU B) in Hx by lia.
    rewrite <- (block_lookup C SV D) in Hy by lia.
    rewrite Hr in Hx.
    replace (length A + (k - length A))%nat with k in Hx by lia.
    replace (length C + (k - length C))%nat with k in Hy by lia.
    assert (x = y) as -> by congruence.
    exists y. rewrite <- Hr in Hx.
    replace k with (length A + (k - length A))%nat in Hx by lia.
    replace k with (length C + (k - length C))%nat in Hy by lia.
    rewrite block_lookup in Hx by lia. rewrite block_lookup in Hy by lia.
    split; by eapply list_elem_of_lookup_2.
  - intros (x & [a Ha]%list_elem_of_lookup & [b Hb]%list_elem_of_lookup).
    pose proof (lookup_lt_Some _ _ _ Ha) as Hlta.
    pose proof (lookup_lt_Some _ _ _ Hb) as Hltb.
    rewrite <- (block_lookup A SU B) in Ha by done.
    rewrite <- (block_lookup C SV D) in Hb by done.
    destruct (lookup_unique s ru _ _ rv _ _ x Hnd HU Ha HV Hb) as [-> Hidx].
    split; [split; [done|]|]; lia.
Qed.

Lemma overlap_spec_witness :
  Exchange.overlap 3 2 [[1; 2; 3; 4]; []; []]%nat (ClientNode 1) (ClientNode 3)
  = true
  ↔ ∃ x, x ∈ [1; 2; 3]%nat ∧ x ∈ [3; 4]%nat.
Proof.
  apply (overlap_spec 3 2 [[1; 2; 3; 4]; []; []]%nat
           0 [] [1; 2; 3]%nat [4]%nat 0 [1; 2]%nat [3; 4]%nat []).
  - lia.
  - split; apply (bool_decide_unpack _); vm_compute; exact I.
  - unfold fits. simpl. lia.
  - reflexivity.
  - reflexivity.
  - reflexivity.
  - reflexivity.
Defined.

(** X8: what [adjacent] tests.  For two segments of clients SU and SV, of
    lengths N and M ≥ 1, [adjacent(U, V)] holds exactly when one of them
    stands directly behind the other in a route: some route reads
    [… SU SV …] or [… SV SU …]. *)
Theorem adjacent_spec (N M : nat) (s : list (list nat)) ru A SU B rv C SV D :
  (1 ≤ M ≤ N)%nat → wfSol s → fits N s →
  s !! ru = Some (A ++ SU ++ B) → s !! rv = Some (C ++ SV ++ D) →
  length SU = N → length SV = M →
  Exchange.adjacent N M s (ClientNode (headD SU)) (ClientNode (headD SV)) = true
  ↔ ∃ ri X Y, s !! ri = Some (X ++ SU ++ SV ++ Y)
              ∨ s !! ri = Some (X ++ SV ++ SU ++ Y).
Proof.
  intros HM [Hnd _] Hfit HU HV HlU HlV.
  assert (1 ≤ N ≤ N)%nat as HN by lia.
  assert (SU ≠ []) as HSU by (intros ->; simpl in HlU; lia).
  assert (SV ≠ []) as HSV by (intros ->; simpl in HlV; lia).
  pose proof (seg_bound N N s ru A SU B HN Hfit HU HlU) as HbU.
  pose proof (seg_bound N M s rv C SV D HM Hfit HV HlV) as HbV.
  unfold Exchange.adjacent.
  rewrite (seg_route N N s ru A SU B), (seg_route N M s rv C SV D) by done.
  rewrite (seg_position N N s ru A SU B), (seg_position N M s rv C SV D) by done.
  rewrite !szAdd_small by lia.
  split.
  - case_decide as Hr; [done|].
    assert (ru = rv) as <-.
    { destruct (decide (ru = rv)); [done|by destruct Hr]. }
    assert (A ++ SU ++ B = C ++ SV ++ D) as Heq by congruence.
    rewrite orb_true_iff, !bool_decide_eq_true.
    intros [H|H].
    + exists ru, A, D. left. rewrite HU. f_equal. f_equal. f_equal.
      rewrite (assoc_L (++) A SU B) in Heq.
      apply app_inj_1 in Heq as [HC HB]; [done|].
      rewrite length_app. lia.
    + exists ru, C, B. right. rewrite HV. f_equal. f_equal. f_equal.
      rewrite (assoc_L (++) C SV D) in Heq.
      apply app_inj_1 in Heq as [HC HB]; [done|].
      rewrite length_app. lia.
  - intros (ri & X & Y & [Hr|Hr]).
    + assert (s !! ri = Some ((X ++ SU) ++ SV ++ Y)) as Hr2.
      { rewrite Hr. f_equal. by rewrite <- !(assoc_L (++)). }
      assert ((X ++ SU ++ SV ++ Y) !! length X = Some (headD SU)) as H1.
      { rewrite lookup_app_r by lia. rewrite Nat.sub_diag. by destruct SU. }
      assert (((X ++ SU) ++ SV ++ Y) !! length (X ++ SU) = Some (headD SV)) as H2.
      { rewrite lookup_app_r by lia. rewrite Nat.sub_diag. by destruct SV. }
      assert ((A ++ SU ++ B) !! length A = Some (headD SU)) as H3.
      { rewrite lookup_app_r by lia. rewrite Nat.sub_diag. by destruct SU. }
      assert ((C ++ SV ++ D) !! length C = Some (headD SV)) as H4.
      { rewrite lookup_app_r by lia. rewrite Nat.sub_diag. by destruct SV. }
      destruct (lookup_unique s ru _ _ ri _ _ _ Hnd HU H3 Hr H1) as [-> HA].
      destruct (lookup_unique s rv _ _ ri _ _ _ Hnd HV H4 Hr2 H2) as [-> HC].
      rewrite length_app in HC.
      rewrite decide_False by (intros H; by apply H).
      rewrite orb_true_iff, !bool_decide_eq_true. left. lia.
    + assert (s !! ri = Some ((X ++ SV) ++ SU ++ Y)) as Hr2.
      { rewrite Hr. f_equal. by rewrite <- !(assoc_L (++)). }
      assert ((X ++ SV ++ SU ++ Y) !! length X = Some (headD SV)) as H1.
      { rewrite lookup_app_r by lia. rewrite Nat.sub_diag. by destruct SV. }
      assert (((X ++ SV) ++ SU ++ Y) !! length (X ++ SV) = Some (headD SU)) as H2.
      { rewrite lookup_app_r by lia. rewrite Nat.sub_diag. by destruct SU. }
      assert ((A ++ SU ++ B) !! length A = Some (headD SU)) as H3.
      { rewrite lookup_app_r by lia. rewrite Nat.sub_diag. by destruct SU. }
      assert ((C ++ SV ++ D) !! length C = Some (headD SV)) as H4.
      { rewrite lookup_app_r by lia. rewrite Nat.sub_diag. by destruct SV. }
      destruct (lookup_unique s ru _ _ ri _ _ _ Hnd HU H3 Hr2 H2) as [-> HA].
      destruct (lookup_unique s rv _ _ ri _ _ _ Hnd HV H4 Hr H1) as [-> HC].
      rewrite length_app in HA.
      rewrite decide_False by (intros H; by apply H).
      rewrite orb_true_iff, !bool_decide_eq_true. right. lia.
Qed.

Lemma adjacent_spec_witness :
  Exchange.adjacent 2 1 [[1; 2; 3; 4]; []; []]%nat (ClientNode 1) (ClientNode 3)
  = true
  ↔ ∃ ri X Y, [[1; 2; 3; 4]; []; []]%nat !! ri = Some (X ++ [1; 2] ++ [3] ++ Y)%nat
              ∨ [[1; 2; 3; 4]; []; []]%nat !! ri = Some (X ++ [3] ++ [1; 2] ++ Y)%nat.
Proof.
  apply (adjacent_spec 2 1 [[1; 2; 3; 4]; []; []]%nat
           0 [] [1; 2]%nat [3; 4]%nat 0 [1; 2]%nat [3]%nat [4]%nat).
  - lia.
  - split; apply (bool_decide_unpack _); vm_compute; exact I.
  - unfold fits. simpl. lia.
  - reflexivity.
  - reflexivity.
  - reflexivity.
  - reflexivity.
Defined.

(** ** The early returns of the move evaluations *)


Lemma loadPenalty_zero data pm x :
  x ≤ vehicleCapacity data → loadPenalty data pm x = 0.
Proof. intros H. unfold loadPenalty. rewrite Z.max_r by lia. lia. Qed.

Lemma hasTimeWarp_false data pm (s : list (list nat)) ri r :
  s !! ri = Some r → hasTimeWarp data s ri = false →
  twPenalty pm (TWS.totalTimeWarp (TWS.ofList data (routeNodes r))) = 0.
Proof.
  intros Hr H. apply bool_decide_eq_false in H.
  rewrite (timeWarp_lookup data s ri r Hr) in H.
  pose proof (routeTimeWarp_nonneg data r) as Hnn.
  unfold routeTimeWarp in *. unfold twPenalty.
  replace (TWS.totalTimeWarp (TWS.ofList data (routeNodes r))) with 0 by lia.
  lia.
Qed.

Lemma isFeasible_true data pm (s : list (list nat)) ri r :
  s !! ri = Some r → isFeasible data s ri = true →
  loadPenalty data pm (demandSum data r) = 0
  ∧ twPenalty pm (TWS.totalTimeWarp (TWS.ofList data (routeNodes r))) = 0.
Proof.
  intros Hr H. unfold isFeasible in H.
  apply andb_true_iff in H as [H1 H2].
  apply negb_true_iff in H1, H2. split.
  - apply loadPenalty_zero. apply bool_decide_eq_false in H1.
    rewrite (load_lookup data s ri r Hr) in H1. unfold routeLoad in H1. lia.
  - by apply (hasTimeWarp_false data pm s ri r).
Qed.

Lemma evalSwapMove_cross_early data pm (N M : nat) (s : list (list nat))
    ru A SU B rv C SV D d :
  (1 ≤ M ≤ N)%nat → fits N s → NoDup (mjoin s) → ru ≠ rv →
  s !! ru = Some (A ++ SU ++ B) → s !! rv = Some (C ++ SV ++ D) →
  length SU = N → length SV = M →
  intSafe data pm s
    (Exchange.apply N M s (ClientNode (headD SU)) (ClientNode (headD SV))) →
  Exchange.evalSwapMove data pm N M s
    (ClientNode (headD SU)) (ClientNode (headD SV)) = (ShortCircuit, d) →
  d ≤ solutionCost data pm
        (Exchange.apply N M s (ClientNode (headD SU)) (ClientNode (headD SV)))
      - solutionCost data pm s.
Proof.
  intros HM Hfit Hnd Hne HU HV HlU HlV Hsafe Heval.
  assert (1 ≤ N ≤ N)%nat as HN by lia.
  assert (SU ≠ []) as HSU by (intros ->; simpl in HlU; lia).
  assert (SV ≠ []) as HSV by (intros ->; simpl in HlV; lia).
  destruct (apply_cross_swap N M s ru A SU B rv C SV D)
    as (Hlen & HU' & HV' & Hother); try done.
  rewrite (solutionCost_two data pm s _ ru rv _ _ _ _ Hlen Hne HU HV HU' HV' Hother).
  unfold Exchange.evalSwapMove in Heval. cbv zeta in Heval.
  rewrite (seg_end N N s ru A SU B) in Heval by done.
  rewrite (seg_end N M s rv C SV D) in Heval by done.
  rewrite (seg_route N N s ru A SU B) in Heval by done.
  rewrite (seg_route N M s rv C SV D) in Heval by done.
  rewrite decide_True in Heval by done.
  rewrite (seg_distAround data N N s ru A SU B) in Heval by done.
  rewrite (seg_distAround data N M s rv C SV D) in Heval by done.
  rewrite (seg_distInner data N N s ru A SU B) in Heval by done.
  rewrite (seg_distInner data N M s rv C SV D) in Heval by done.
  destruct (seg_pred N N s ru A SU B) as (HpU & _ & _); try done.
  destruct (seg_pred N M s rv C SV D) as (HpV & _ & _); try done.
  destruct (seg_succ N N s ru A SU B) as (HnU & _ & _); try done.
  destruct (seg_succ N M s rv C SV D) as (HnV & _ & _); try done.
  rewrite HpU, HpV, HnU, HnV in Heval.
  cbn [clientOf] in Heval.
  revert Heval.
  destruct (_ && _) eqn:Hc; [|done]. intros [= <-].
  destruct (intSafe_two data pm s _ ru rv _ _ _ _ Hsafe Hne HU HV HU' HV')
    as (_ & Hcb & Hca).
  destruct Hsafe as (Hd & Hcp & Htp & _). revert Hcb Hca.
  apply andb_true_iff in Hc as [Hc _]. apply andb_true_iff in Hc as [HfU HfV].
  destruct (isFeasible_true data pm s ru _ HU HfU) as [HlpU HtwU].
  destruct (isFeasible_true data pm s rv _ HV HfV) as [HlpV HtwV].
  rewrite routeNodes_blocks in HtwU, HtwV.
  rewrite !routeCost_blocks by done.
  rewrite HlpU, HlpV, HtwU, HtwV.
  rewrite <- ?app_comm_cons.
  pose_nonneg Hd Hcp Htp. intros Hcb Hca. unwrap_int. lia.
Qed.

Lemma evalSwapMove_same_fwd_early data pm (N M : nat) (s : list (list nat))
    ru A SU Mid SV D d :
  (1 ≤ M ≤ N)%nat → fits N s → NoDup (mjoin s) →
  s !! ru = Some (A ++ SU ++ Mid ++ SV ++ D) →
  length SU = N → length SV = M → Mid ≠ [] →
  intSafe data pm s
    (Exchange.apply N M s (ClientNode (headD SU)) (ClientNode (headD SV))) →
  Exchange.evalSwapMove data pm N M s
    (ClientNode (headD SU)) (ClientNode (headD SV)) = (ShortCircuit, d) →
  d ≤ solutionCost data pm
        (Exchange.apply N M s (ClientNode (headD SU)) (ClientNode (headD SV)))
      - solutionCost data pm s.
Proof.
  intros HM Hfit Hnd HU HlU HlV HMid Hsafe Heval.
  assert (1 ≤ N ≤ N)%nat as HN by lia.
  assert (SU ≠ []) as HSU by (intros ->; simpl in HlU; lia).
  assert (SV ≠ []) as HSV by (intros ->; simpl in HlV; lia).
  destruct (apply_same_swap_fwd N M s ru A SU Mid SV D)
    as (Hlen & HU' & Hother); try done.
  rewrite (solutionCost_one data pm s _ ru _ _ Hlen HU HU' Hother).
  assert (s !! ru = Some ((A ++ SU ++ Mid) ++ SV ++ D)) as HV.
  { rewrite HU. f_equal. by rewrite <- !(assoc_L (++)). }
  unfold Exchange.evalSwapMove in Heval. cbv zeta in Heval.
  rewrite (seg_end N N s ru A SU (Mid ++ SV ++ D)) in Heval by done.
  rewrite (seg_end N M s ru (A ++ SU ++ Mid) SV D) in Heval by done.
  rewrite (seg_route N N s ru A SU (Mid ++ SV ++ D)) in Heval by done.
  rewrite (seg_route N M s ru (A ++ SU ++ Mid) SV D) in Heval by done.
  rewrite (decide_False (P := ru ≠ ru)) in Heval by (intros H; by apply H).
  rewrite (seg_distAround data N N s ru A SU (Mid ++ SV ++ D)) in Heval by done.
  rewrite (seg_distAround data N M s ru (A ++ SU ++ Mid) SV D) in Heval by done.
  rewrite (seg_distInner data N N s ru A SU (Mid ++ SV ++ D)) in Heval by done.
  rewrite (seg_distInner data N M s ru (A ++ SU ++ Mid) SV D) in Heval by done.
  destruct (seg_pred N N s ru A SU (Mid ++ SV ++ D)) as (HpU & _ & _); try done.
  destruct (seg_pred N M s ru (A ++ SU ++ Mid) SV D) as (HpV & _ & _); try done.
  destruct (seg_succ N N s ru A SU (Mid ++ SV ++ D)) as (HnU & _ & _); try done.
  destruct (seg_succ N M s ru (A ++ SU ++ Mid) SV D) as (HnV & _ & _); try done.
  rewrite HpU, HpV, HnU, HnV in Heval.
  cbn [clientOf] in Heval.
  assert (lastD (0%nat :: A ++ SU ++ Mid) = lastD Mid) as HlM.
  { rewrite lastD_cons by (by destruct A, SU, Mid).
    rewrite (assoc_L (++)). by apply lastD_app. }
  assert (headD ((Mid ++ SV ++ D) ++ [0%nat]) = headD Mid) as HhM.
  { rewrite <- (assoc_L (++)). by apply headD_app. }
  rewrite HlM, HhM in Heval.
  revert Heval.
  destruct (_ && _) eqn:Hc; [|done]. intros [= <-].
  destruct (intSafe_one data pm s _ ru _ _ Hsafe HU HU') as (_ & Hcb & Hca).
  destruct Hsafe as (Hd & Hcp & Htp & _). revert Hcb Hca.
  apply andb_true_iff in Hc as [Hc _]. apply negb_true_iff in Hc.
  pose proof (hasTimeWarp_false data pm s ru _ HU Hc) as Htw.
  rewrite routeNodes_blocks in Htw.
  rewrite !routeCost_blocks5 by done.
  rewrite <- ?(assoc_L (++)) in Htw. rewrite <- ?(assoc_L (++)). rewrite Htw.
  replace (demandSum data (A ++ SV ++ Mid ++ SU ++ D))
    with (demandSum data (A ++ SU ++ Mid ++ SV ++ D))
    by (rewrite !demandSum_app; lia).
  rewrite <- ?app_comm_cons.
  pose_nonneg Hd Hcp Htp. intros Hcb Hca. unwrap_int. lia.
Qed.

Lemma evalSwapMove_same_bwd_early data pm (N M : nat) (s : list (list nat))
    ru C SV Mid SU B d :
  (1 ≤ M ≤ N)%nat → fits N s → NoDup (mjoin s) →
  s !! ru = Some (C ++ SV ++ Mid ++ SU ++ B) →
  length SU = N → length SV = M → Mid ≠ [] →
  intSafe data pm s
    (Exchange.apply N M s (ClientNode (headD SU)) (ClientNode (headD SV))) →
  Exchange.evalSwapMove data pm N M s
    (ClientNode (headD SU)) (ClientNode (headD SV)) = (ShortCircuit, d) →
  d ≤ solutionCost data pm
        (Exchange.apply N M s (ClientNode (headD SU)) (ClientNode (headD SV)))
      - solutionCost data pm s.
Proof.
  intros HM Hfit Hnd HV HlU HlV HMid Hsafe Heval.
  assert (1 ≤ N ≤ N)%nat as HN by lia.
  assert (SU ≠ []) as HSU by (intros ->; simpl in HlU; lia).
  assert (SV ≠ []) as HSV by (intros ->; simpl in HlV; lia).
  destruct (apply_same_swap_bwd N M s ru C SV Mid SU B)
    as (Hlen & HU' & Hother); try done.
  rewrite (solutionCost_one data pm s _ ru _ _ Hlen HV HU' Hother).
  assert (s !! ru = Some ((C ++ SV ++ Mid) ++ SU ++ B)) as HU.
  { rewrite HV. f_equal. by rewrite <- !(assoc_L (++)). }
  unfold Exchange.evalSwapMove in Heval. cbv zeta in Heval.
  rewrite (seg_end N N s ru (C ++ SV ++ Mid) SU B) in Heval by done.
  rewrite (seg_end N M s ru C SV (Mid ++ SU ++ B)) in Heval by done.
  rewrite (seg_route N N s ru (C ++ SV ++ Mid) SU B) in Heval by done.
  rewrite (seg_route N M s ru C SV (Mid ++ SU ++ B)) in Heval by done.
  rewrite (decide_False (P := ru ≠ ru)) in Heval by (intros H; by apply H).
  rewrite (seg_distAround data N N s ru (C ++ SV ++ Mid) SU B) in Heval by done.
  rewrite (seg_distAround data N M s ru C SV (Mid ++ SU ++ B)) in Heval by done.
  rewrite (seg_distInner data N N s ru (C ++ SV ++ Mid) SU B) in Heval by done.
  rewrite (seg_distInner data N M s ru C SV (Mid ++ SU ++ B)) in Heval by done.
  destruct (seg_pred N N s ru (C ++ SV ++ Mid) SU B) as (HpU & _ & _); try done.
  destruct (seg_pred N M s ru C SV (Mid ++ SU ++ B)) as (HpV & _ & _); try done.
  destruct (seg_succ N N s ru (C ++ SV ++ Mid) SU B) as (HnU & _ & _); try done.
  destruct (seg_succ N M s ru C SV (Mid ++ SU ++ B)) as (HnV & _ & _); try done.
  rewrite HpU, HpV, HnU, HnV in Heval.
  cbn [clientOf] in Heval.
  assert (lastD (0%nat :: C ++ SV ++ Mid) = lastD Mid) as HlM.
  { rewrite lastD_cons by (by destruct C, SV, Mid).
    rewrite (assoc_L (++)). by apply lastD_app. }
  assert (headD ((Mid ++ SU ++ B) ++ [0%nat]) = headD Mid) as HhM.
  { rewrite <- (assoc_L (++)). by apply headD_app. }
  rewrite HlM, HhM in Heval.
  revert Heval.
  destruct (_ && _) eqn:Hc; [|done]. intros [= <-].
  destruct (intSafe_one data pm s _ ru _ _ Hsafe HV HU') as (_ & Hcb & Hca).
  destruct Hsafe as (Hd & Hcp & Htp & _). revert Hcb Hca.
  apply andb_true_iff in Hc as [Hc _]. apply negb_true_iff in Hc.
  pose proof (hasTimeWarp_false data pm s ru _ HV Hc) as Htw.
  rewrite routeNodes_blocks in Htw.
  rewrite !routeCost_blocks5 by done.
  rewrite <- ?(assoc_L (++)) in Htw. rewrite <- ?(assoc_L (++)). rewrite Htw.
  replace (demandSum data (C ++ SU ++ Mid ++ SV ++ B))
    with (demandSum data (C ++ SV ++ Mid ++ SU ++ B))
    by (rewrite !demandSum_app; lia).
  rewrite <- ?app_comm_cons.
  pose_nonneg Hd Hcp Htp. intros Hcb Hca. unwrap_int. lia.
Qed.

Lemma evalRelocateMove_same_fwd_early data pm (N : nat) (s : list (list nat))
    ru A SU Mid D d :
  (1 ≤ N)%nat → fits N s → NoDup (mjoin s) →
  s !! ru = Some (A ++ SU ++ Mid ++ D) → length SU = N → Mid ≠ [] →
  intSafe data pm s
    (Exchange.apply N 0 s (ClientNode (headD SU)) (ClientNode (lastD Mid))) →
  Exchange.evalRelocateMove data pm N s
    (ClientNode (headD SU)) (ClientNode (lastD Mid)) = (ShortCircuit, d) →
  d ≤ solutionCost data pm
        (Exchange.apply N 0 s (ClientNode (headD SU)) (ClientNode (lastD Mid)))
      - solutionCost data pm s.
Proof.
  intros HN1 Hfit Hnd HU HlU HMid Hsafe Heval.
  assert (1 ≤ N ≤ N)%nat as HN by lia.
  assert (SU ≠ []) as HSU by (intros ->; simpl in HlU; lia).
  destruct (apply_relocate_fwd N s ru A SU Mid D)
    as (Hlen & HU' & Hother); try done.
  rewrite (solutionCost_one data pm s _ ru _ _ Hlen HU HU' Hother).
  assert (s !! ru = Some ((A ++ SU ++ Mid) ++ D)) as HV.
  { rewrite HU. f_equal. by rewrite <- !(assoc_L (++)). }
  assert (nodeAt s ru (Z.of_nat (length (A ++ SU ++ Mid)))
          = ClientNode (lastD Mid)) as Hanc.
  { rewrite (nodeAt_prefix_last s ru _ D HV) by (by destruct A, SU, Mid).
    rewrite (lastD_app A) by (by destruct SU, Mid). by rewrite lastD_app. }
  set (V := ClientNode (lastD Mid)) in *.
  unfold Exchange.evalRelocateMove in Heval. cbv zeta in Heval.
  rewrite (seg_end N N s ru A SU (Mid ++ D)) in Heval by done.
  rewrite (seg_route N N s ru A SU (Mid ++ D)) in Heval by done.
  rewrite (anc_route s ru _ D V Hnd HV Hanc) in Heval.
  rewrite (decide_False (P := ru ≠ ru)) in Heval by (intros H; by apply H).
  rewrite (seg_distAround data N N s ru A SU (Mid ++ D)) in Heval by done.
  rewrite (seg_distInner data N N s ru A SU (Mid ++ D)) in Heval by done.
  destruct (seg_pred N N s ru A SU (Mid ++ D)) as (HpU & _ & _); try done.
  destruct (seg_succ N N s ru A SU (Mid ++ D)) as (HnU & _ & _); try done.
  destruct (anc_succ N s ru _ D V HN1 Hfit Hnd HV Hanc) as (HnV & _ & _).
  rewrite HpU, HnU, HnV in Heval.
  rewrite (anc_client s ru _ D V HV Hanc) in Heval.
  cbn [clientOf] in Heval.
  assert (lastD (0%nat :: A ++ SU ++ Mid) = lastD Mid) as HlM.
  { rewrite lastD_cons by (by destruct A, SU, Mid).
    rewrite (assoc_L (++)). by apply lastD_app. }
  assert (headD ((Mid ++ D) ++ [0%nat]) = headD Mid) as HhM.
  { rewrite <- (assoc_L (++)). by apply headD_app. }
  rewrite HlM, HhM in Heval.
  revert Heval.
  destruct (_ && _) eqn:Hc; [|done]. intros [= <-].
  destruct (intSafe_one data pm s _ ru _ _ Hsafe HU HU') as (_ & Hcb & Hca).
  destruct Hsafe as (Hd & Hcp & Htp & _). revert Hcb Hca.
  apply andb_true_iff in Hc as [Hc _]. apply negb_true_iff in Hc.
  pose proof (hasTimeWarp_false data pm s ru _ HU Hc) as Htw.
  rewrite routeNodes_blocks in Htw.
  rewrite !routeCost_blocks4 by done.
  rewrite <- ?(assoc_L (++)) in Htw. rewrite <- ?(assoc_L (++)). rewrite Htw.
  replace (demandSum data (A ++ Mid ++ SU ++ D))
    with (demandSum data (A ++ SU ++ Mid ++ D))
    by (rewrite !demandSum_app; lia).
  rewrite <- ?app_comm_cons.
  pose_nonneg Hd Hcp Htp. intros Hcb Hca. unwrap_int. lia.
Qed.

Lemma evalRelocateMove_same_bwd_early data pm (N : nat) (s : list (list nat))
    ru C' Mid SU B V d :
  (1 ≤ N)%nat → fits N s → NoDup (mjoin s) →
  s !! ru = Some (C' ++ Mid ++ SU ++ B) → length SU = N → Mid ≠ [] →
  nodeAt s ru (Z.of_nat (length C')) = V →
  intSafe data pm s
    (Exchange.apply N 0 s (ClientNode (headD SU)) V) →
  Exchange.evalRelocateMove data pm N s (ClientNode (headD SU)) V = (ShortCircuit, d) →
  d ≤ solutionCost data pm (Exchange.apply N 0 s (ClientNode (headD SU)) V)
      - solutionCost data pm s.
Proof.
  intros HN1 Hfit Hnd HV HlU HMid Hanc Hsafe Heval.
  assert (1 ≤ N ≤ N)%nat as HN by lia.
  assert (SU ≠ []) as HSU by (intros ->; simpl in HlU; lia).
  destruct (apply_relocate_bwd N s ru C' Mid SU B V)
    as (Hlen & HU' & Hother); try done.
  rewrite (solutionCost_one data pm s _ ru _ _ Hlen HV HU' Hother).
  assert (s !! ru = Some ((C' ++ Mid) ++ SU ++ B)) as HU.
  { rewrite HV. f_equal. by rewrite <- !(assoc_L (++)). }
  unfold Exchange.evalRelocateMove in Heval. cbv zeta in Heval.
  rewrite (seg_end N N s ru (C' ++ Mid) SU B) in Heval by done.
  rewrite (seg_route N N s ru (C' ++ Mid) SU B) in Heval by done.
  rewrite (anc_route s ru C' _ V Hnd HV Hanc) in Heval.
  rewrite (decide_False (P := ru ≠ ru)) in Heval by (intros H; by apply H).
  rewrite (seg_distAround data N N s ru (C' ++ Mid) SU B) in Heval by done.
  rewrite (seg_distInner data N N s ru (C' ++ Mid) SU B) in Heval by done.
  destruct (seg_pred N N s ru (C' ++ Mid) SU B) as (HpU & _ & _); try done.
  destruct (seg_succ N N s ru (C' ++ Mid) SU B) as (HnU & _ & _); try done.
  destruct (anc_succ N s ru C' _ V HN1 Hfit Hnd HV Hanc) as (HnV & _ & _).
  rewrite HpU, HnU, HnV in Heval.
  rewrite (anc_client s ru C' _ V HV Hanc) in Heval.
  cbn [clientOf] in Heval.
  assert (lastD (0%nat :: C' ++ Mid) = lastD Mid) as HlM.
  { rewrite lastD_cons by (by destruct C', Mid). by apply lastD_app. }
  assert (headD ((Mid ++ SU ++ B) ++ [0%nat]) = headD Mid) as HhM.
  { rewrite <- (assoc_L (++)). by apply headD_app. }
  rewrite HlM, HhM in Heval.
  revert Heval.
  destruct (_ && _) eqn:Hc; [|done]. intros [= <-].
  destruct (intSafe_one data pm s _ ru _ _ Hsafe HV HU') as (_ & Hcb & Hca).
  destruct Hsafe as (Hd & Hcp & Htp & _). revert Hcb Hca.
  apply andb_true_iff in Hc as [Hc _]. apply negb_true_iff in Hc.
  pose proof (hasTimeWarp_false data pm s ru _ HV Hc) as Htw.
  rewrite routeNodes_blocks in Htw.
  rewrite !routeCost_blocks4 by done.
  rewrite <- ?(assoc_L (++)) in Htw. rewrite <- ?(assoc_L (++)). rewrite Htw.
  replace (demandSum data (C' ++ SU ++ Mid ++ B))
    with (demandSum data (C' ++ Mid ++ SU ++ B))
    by (rewrite !demandSum_app; lia).
  rewrite <- ?app_comm_cons.
  pose_nonneg Hd Hcp Htp. intros Hcb Hca. unwrap_int. lia.
Qed.

(** X20: the early returns of the swap evaluation and of the relocation
    within one route are sound.  For U, V as in X1, under the bound that
    keeps the [int] operations from overflowing, and for a move that
    exchanges two segments (M ≥ 1) or relocates within one route: when the
    move evaluation returns early, the value returned is at most the true
    change of the penalised cost, which is therefore not negative: the move
    that [evaluate] gives up on is indeed no improvement. *)
Theorem early_return_sound data pm (N M : nat) (s : list (list nat)) U V :
  (0 < N)%nat → (M ≤ N)%nat → wfSol s → fits N s →
  nodeIn s U → nodeIn s V → U ≠ V → (∀ r, V ≠ EndDepot r) →
  intSafe data pm s (Exchange.apply N M s U V) →
  (0 < M)%nat ∨ route s U = route s V →
  (Exchange.evaluateTrace data pm N M s U V).1 = ShortCircuit →
  0 ≤ Exchange.evaluate data pm N M s U V
  ∧ Exchange.evaluate data pm N M s U V
    ≤ solutionCost data pm (Exchange.apply N M s U V) - solutionCost data pm s.
Proof.
  intros HN HM [Hnd _] Hfit HinU HinV HUV HVend Hsafe Hkind Hexit.
  unfold Exchange.evaluate.
  destruct (Exchange.evaluateTrace data pm N M s U V) as [e d] eqn:Heval.
  simpl in Hexit |- *. subst e.
  split; [by apply (evaluateTrace_early data pm N M s U V ShortCircuit d)|].
  destruct (prefiltered N M s U V) eqn:Hpre.
  { by rewrite (evaluateTrace_prefiltered data pm N M s U V Hpre) in Heval. }
  rewrite (evaluateTrace_not_prefiltered data pm N M s U V Hpre) in Heval.
  destruct (decide (M = 0%nat)) as [->|HM0].
  - destruct Hkind as [?|Hroute]; [lia|].
    destruct (relocate_shape N s U V HN Hfit Hnd HinU HinV HUV HVend Hpre)
      as (SU & -> & HlU & Hshape).
    destruct Hshape as [(ru & rv & A & B & C' & D & Hne & HU & HV & Hanc)
                       |[(ru & A & Mid & D & HMid & HU & ->)
                        |(ru & C' & Mid & B & HMid & HU & Hanc)]].
    + exfalso. apply Hne.
      rewrite (seg_route N N s ru A SU B) in Hroute by (done || lia).
      by rewrite (anc_route s rv C' D V Hnd HV Hanc) in Hroute.
    + by apply (evalRelocateMove_same_fwd_early data pm N s ru A SU Mid D).
    + by apply (evalRelocateMove_same_bwd_early data pm N s ru C' Mid SU B V).
  - assert (1 ≤ M ≤ N)%nat as HM1 by lia.
    destruct (swap_shape N M s U V HM1 Hfit Hnd HinU HinV Hpre)
      as (SU & SV & -> & -> & HlU & HlV & Hshape).
    destruct Hshape as [(ru & rv & A & B & C & D & Hne & HU & HV)
                       |[(ru & A & Mid & D & HMid & HU)
                        |(ru & C & Mid & B & HMid & HU)]].
    + by apply (evalSwapMove_cross_early data pm N M s ru A SU B rv C SV D).
    + by apply (evalSwapMove_same_fwd_early data pm N M s ru A SU Mid SV D).
    + by apply (evalSwapMove_same_bwd_early data pm N M s ru C SV Mid SU B).
Qed.

Lemma early_return_sound_witness :
  Exchange.evaluate OkSmall examplePenalties 1 1
    [[2; 3]; [1; 4]; []]%nat (ClientNode 1) (ClientNode 2) = 303
  ∧ solutionCost OkSmall examplePenalties
      (Exchange.apply 1 1 [[2; 3]; [1; 4]; []]%nat (ClientNode 1) (ClientNode 2))
    - solutionCost OkSmall examplePenalties [[2; 3]; [1; 4]; []]%nat = 12825
  ∧ 0 ≤ Exchange.evaluate OkSmall examplePenalties 1 1
           [[2; 3]; [1; 4]; []]%nat (ClientNode 1) (ClientNode 2)
  ∧ Exchange.evaluate OkSmall examplePenalties 1 1
      [[2; 3]; [1; 4]; []]%nat (ClientNode 1) (ClientNode 2)
    ≤ solutionCost OkSmall examplePenalties
        (Exchange.apply 1 1 [[2; 3]; [1; 4]; []]%nat (ClientNode 1) (ClientNode 2))
      - solutionCost OkSmall examplePenalties [[2; 3]; [1; 4]; []]%nat.
Proof.
  split; [reflexivity|]. split; [reflexivity|].
  apply early_return_sound.
  - lia.
  - lia.
  - split; apply (bool_decide_unpack _); vm_compute; exact I.
  - unfold fits. simpl. lia.
  - simpl. repeat constructor.
  - simpl. repeat constructor.
  - discriminate.
  - discriminate.
  - int_safe_by_computation.
  - left. lia.
  - reflexivity.
Defined.

Lemma evalRelocateMove_cross_early data pm (N : nat) (s : list (list nat))
    ru A SU B rv C' D V d :
  (1 ≤ N)%nat → fits N s → NoDup (mjoin s) → ru ≠ rv →
  s !! ru = Some (A ++ SU ++ B) → s !! rv = Some (C' ++ D) →
  length SU = N → nodeAt s rv (Z.of_nat (length C')) = V →
  intSafe data pm s (Exchange.apply N 0 s (ClientNode (headD SU)) V) →
  loadPenalty data pm (routeLoad data (C' ++ D))
  + twPenalty pm (routeTimeWarp data (C' ++ D))
  ≤ loadPenalty data pm (routeLoad data (C' ++ SU ++ D))
    + twPenalty pm (routeTimeWarp data (C' ++ SU ++ D)) →
  Exchange.evalRelocateMove data pm N s (ClientNode (headD SU)) V
  = (ShortCircuit, d) →
  d ≤ solutionCost data pm (Exchange.apply N 0 s (ClientNode (headD SU)) V)
      - solutionCost data pm s.
Proof.
  intros HN1 Hfit Hnd Hne HU HV HlU Hanc Hsafe Hpen Heval.
  assert (1 ≤ N ≤ N)%nat as HN by lia.
  assert (SU ≠ []) as HSU by (intros ->; simpl in HlU; lia).
  destruct (apply_relocate_cross N s ru A SU B rv C' D V)
    as (Hlen & HU' & HV' & Hother); try done.
  rewrite (solutionCost_two data pm s _ ru rv _ _ _ _ Hlen Hne HU HV HU' HV' Hother).
  destruct (intSafe_two data pm s _ ru rv _ _ _ _ Hsafe Hne HU HV HU' HV')
    as (HL & Hcb & Hca).
  destruct Hsafe as (Hd & Hcp & Htp & _).
  rewrite (routeCost_blocks data pm A SU B), (routeCost_blocks2 data pm C' D)
    in Hcb by done.
  rewrite (routeCost_blocks2 data pm A B), (routeCost_blocks data pm C' SU D)
    in Hca by done.
  pose proof (demandSum_nonneg data A Hd). pose proof (demandSum_nonneg data SU Hd).
  pose proof (demandSum_nonneg data B Hd).
  pose proof (demandSum_nonneg data (C' ++ D) Hd).
  assert (demandSum data (A ++ SU ++ B)
          = demandSum data A + demandSum data SU + demandSum data B) as HdU
    by (rewrite !demandSum_app; lia).
  unfold Exchange.evalRelocateMove in Heval. cbv zeta in Heval.
  rewrite (seg_end N N s ru A SU B) in Heval by done.
  rewrite (seg_route N N s ru A SU B) in Heval by done.
  rewrite (anc_route s rv C' D V Hnd HV Hanc) in Heval.
  rewrite decide_True in Heval by done.
  rewrite (seg_distAround data N N s ru A SU B) in Heval by done.
  rewrite (seg_distInner data N N s ru A SU B) in Heval by done.
  rewrite (seg_loadInner data N N s ru A SU B) in Heval by done.
  rewrite (seg_twBefore data N N s ru A SU B) in Heval by done.
  rewrite (seg_twAfter data N N s ru A SU B) in Heval by done.
  destruct (seg_pred N N s ru A SU B) as (HpU & _ & _); try done.
  destruct (seg_succ N N s ru A SU B) as (HnU & _ & _); try done.
  destruct (anc_succ N s rv C' D V HN1 Hfit Hnd HV Hanc) as (HnV & _ & _).
  rewrite HpU, HnU, HnV in Heval.
  rewrite (anc_client s rv C' D V HV Hanc) in Heval.
  rewrite (load_lookup data s ru _ HU) in Heval.
  rewrite (timeWarp_lookup data s ru _ HU) in Heval.
  cbn [clientOf] in Heval.
  rewrite <- ofList_app in Heval by first [done | by destruct B].
  unfold routeCost at 2 4. unfold routeDistance.
  replace (routeNodes (C' ++ D)) with ((0%nat :: C') ++ D ++ [0%nat])
    by (unfold routeNodes; simpl; by rewrite <- (assoc_L (++))).
  rewrite (routeNodes_blocks C' SU D).
  rewrite (distPath_app data (0%nat :: C') (D ++ [0%nat]))
    by (done || by destruct D).
  rewrite (distPath_app data (0%nat :: C') (SU ++ D ++ [0%nat]))
    by (done || by destruct SU).
  rewrite (distPath_app data SU (D ++ [0%nat])) by (done || by destruct D).
  rewrite (headD_app SU) by done.
  rewrite (routeCost_blocks data pm A SU B) by done.
  rewrite routeCost_blocks2.
  unfold routeTimeWarp in Heval.
  rewrite routeNodes_blocks in Heval.
  unfold routeLoad in Heval.
  revert Hcb Hca Heval. unwrap_loads.
  replace (demandSum data (A ++ B))
    with (demandSum data (A ++ SU ++ B) - demandSum data SU)
    by (rewrite !demandSum_app; lia).
  rewrite <- ?(assoc_L (++)). rewrite <- ?app_comm_cons.
  pose_nonneg Hd Hcp Htp.
  intros Hcb Hca. destruct (_ && _) eqn:Hc.
  - intros [= <-].
    apply andb_true_iff in Hc as [HfU _].
    destruct (isFeasible_true data pm s ru _ HU HfU) as [HlpU HtwU].
    rewrite routeNodes_blocks in HtwU.
    rewrite <- ?(assoc_L (++)) in HtwU. rewrite <- ?app_comm_cons in HtwU.
    rewrite HlpU, HtwU in Hcb |- *.
    unwrap_int. lia.
  - match goal with
    | |- (if bool_decide ?P then _ else _) = _ → _ =>
        destruct (bool_decide P) eqn:Hc2; [|by intros [=]]
    end.
    intros [= <-].
    unwrap_int. lia.
Qed.

(** X22: the early returns of a relocation into another route are sound
    when the segment does not lower the penalties of the route it is put
    into.  Under the bound that keeps the [int] operations from
    overflowing, for U the start of a segment and V a node of another
    route, not an end sentinel: if the load and time-warp penalties of V's
    route after [apply(U, V)] are at least those before, then a value that
    [evalRelocateMove] returns early is at most the true change of the
    penalised cost, which is therefore not negative. *)
Theorem relocate_early_return_sound data pm (N : nat) (s : list (list nat)) U V :
  (0 < N)%nat → wfSol s → fits N s →
  nodeIn s U → nodeIn s V → (∀ r, V ≠ EndDepot r) →
  intSafe data pm s (Exchange.apply N 0 s U V) →
  route s U ≠ route s V →
  loadPenalty data pm (routeLoad data (routeAt s (route s V)))
  + twPenalty pm (routeTimeWarp data (routeAt s (route s V)))
  ≤ loadPenalty data pm
      (routeLoad data (routeAt (Exchange.apply N 0 s U V) (route s V)))
    + twPenalty pm
        (routeTimeWarp data (routeAt (Exchange.apply N 0 s U V) (route s V))) →
  (Exchange.evaluateTrace data pm N 0 s U V).1 = ShortCircuit →
  0 ≤ Exchange.evaluate data pm N 0 s U V
  ∧ Exchange.evaluate data pm N 0 s U V
    ≤ solutionCost data pm (Exchange.apply N 0 s U V) - solutionCost data pm s.
Proof.
  intros HN [Hnd _] Hfit HinU HinV HVend Hsafe Hroute Hpen Hexit.
  assert (U ≠ V) as HUV by (by intros ->).
  unfold Exchange.evaluate.
  destruct (Exchange.evaluateTrace data pm N 0 s U V) as [e d] eqn:Heval.
  simpl in Hexit |- *. subst e.
  split; [by apply (evaluateTrace_early data pm N 0 s U V ShortCircuit d)|].
  destruct (prefiltered N 0 s U V) eqn:Hpre.
  { by rewrite (evaluateTrace_prefiltered data pm N 0 s U V Hpre) in Heval. }
  rewrite (evaluateTrace_not_prefiltered data pm N 0 s U V Hpre) in Heval.
  rewrite (decide_True (P := 0%nat = 0%nat)) in Heval by done.
  destruct (relocate_shape N s U V HN Hfit Hnd HinU HinV HUV HVend Hpre)
    as (SU & -> & HlU & Hshape).
  destruct Hshape as [(ru & rv & A & B & C' & D & Hne & HU & HV & Hanc)
                     |[(ru & A & Mid & D & HMid & HU & ->)
                      |(ru & C' & Mid & B & HMid & HU & Hanc)]].
  - destruct (apply_relocate_cross N s ru A SU B rv C' D V)
      as (_ & _ & HV' & _); try done.
    rewrite (anc_route s rv C' D V Hnd HV Hanc) in Hpen.
    rewrite (routeAt_lookup s rv _ HV), (routeAt_lookup _ rv _ HV') in Hpen.
    by apply (evalRelocateMove_cross_early data pm N s ru A SU B rv C' D V).
  - exfalso. apply Hroute.
    rewrite (seg_route N N s ru A SU (Mid ++ D)) by (done || lia).
    symmetry.
    destruct (exists_last HMid) as (W & v & ->). rewrite lastD_snoc.
    apply (route_client s ru _ (length (A ++ SU ++ W)) v Hnd HU).
    replace (A ++ SU ++ (W ++ [v]) ++ D) with ((A ++ SU ++ W) ++ [v] ++ D)
      by (by rewrite <- !(assoc_L (++))).
    rewrite lookup_app_r by lia. by rewrite Nat.sub_diag.
  - exfalso. apply Hroute.
    assert (s !! ru = Some ((C' ++ Mid) ++ SU ++ B)) as HU2.
    { rewrite HU. f_equal. by rewrite <- !(assoc_L (++)). }
    rewrite (seg_route N N s ru (C' ++ Mid) SU B) by (done || lia).
    by rewrite (anc_route s ru C' _ V Hnd HU Hanc).
Qed.

Lemma relocate_early_return_sound_witness :
  Exchange.evaluate OkSmall examplePenalties 1 0
    [[3; 4]; [1; 2]; []]%nat (ClientNode 1) (ClientNode 3) = 616
  ∧ solutionCost OkSmall examplePenalties
      (Exchange.apply 1 0 [[3; 4]; [1; 2]; []]%nat (ClientNode 1) (ClientNode 3))
    - solutionCost OkSmall examplePenalties [[3; 4]; [1; 2]; []]%nat = 676
  ∧ 0 ≤ Exchange.evaluate OkSmall examplePenalties 1 0
           [[3; 4]; [1; 2]; []]%nat (ClientNode 1) (ClientNode 3)
  ∧ Exchange.evaluate OkSmall examplePenalties 1 0
      [[3; 4]; [1; 2]; []]%nat (ClientNode 1) (ClientNode 3)
    ≤ solutionCost OkSmall examplePenalties
        (Exchange.apply 1 0 [[3; 4]; [1; 2]; []]%nat (ClientNode 1) (ClientNode 3))
      - solutionCost OkSmall examplePenalties [[3; 4]; [1; 2]; []]%nat.
Proof.
  split; [reflexivity|]. split; [reflexivity|].
  apply relocate_early_return_sound.
  - lia.
  - split; apply (bool_decide_unpack _); vm_compute; exact I.
  - unfold fits. simpl. lia.
  - simpl. repeat constructor.
  - simpl. repeat constructor.
  - discriminate.
  - int_safe_by_computation.
  - vm_compute. discriminate.
  - vm_compute. discriminate.
  - reflexivity.
Defined.
(** ** Delta-cost correctness *)

(** C1, as stated, fails: the relocation of client 1 behind client 3 in
    [[3,4],[1,2],[]] on OkSmall passes every pre-filter, and [evaluate]
    returns 616 for it, through the early [return] that follows the
    penalties of U's route, while the penalised cost after [apply] minus
    the penalised cost before is 676. *)
Lemma evaluate_early_return_inexact :
  prefiltered 1 0 [[3; 4]; [1; 2]; []]%nat (ClientNode 1) (ClientNode 3) = false
  ∧ Exchange.evaluateTrace OkSmall examplePenalties 1 0
      [[3; 4]; [1; 2]; []]%nat (ClientNode 1) (ClientNode 3)
    = (ShortCircuit, 616)
  ∧ Exchange.apply 1 0 [[3; 4]; [1; 2]; []]%nat (ClientNode 1) (ClientNode 3)
    = [[3; 1; 4]; [2]; []]%nat
  ∧ solutionCost OkSmall examplePenalties [[3; 1; 4]; [2]; []]%nat
    - solutionCost OkSmall examplePenalties [[3; 4]; [1; 2]; []]%nat = 676
  ∧ Exchange.evaluate OkSmall examplePenalties 1 0
      [[3; 4]; [1; 2]; []]%nat (ClientNode 1) (ClientNode 3)
    ≠ solutionCost OkSmall examplePenalties
        (Exchange.apply 1 0 [[3; 4]; [1; 2]; []]%nat
           (ClientNode 1) (ClientNode 3))
      - solutionCost OkSmall examplePenalties [[3; 4]; [1; 2]; []]%nat.
Proof. repeat split; try reflexivity. by vm_compute. Qed.

(** C1, amended: for a segment start U and a node V of a well-formed
    solution, V another node than U and not an end sentinel, and under the
    bound that keeps the [int] operations from overflowing (distances,
    demands and penalty multipliers not negative; total load, cost before
    and cost after below 2^31): whenever [evaluate(U, V)] runs the move
    evaluation to its last [return], and in particular whenever it returns
    a negative value, the value is the penalised cost after [apply(U, V)]
    minus the penalised cost before; a pre-filter or an early [return]
    gives a value that is not negative. *)
Theorem evaluate_delta_correct data pm (N M : nat) (s : list (list nat)) U V :
  (0 < N)%nat → (M ≤ N)%nat → wfSol s → fits N s →
  nodeIn s U → nodeIn s V → U ≠ V → (∀ r, V ≠ EndDepot r) →
  intSafe data pm s (Exchange.apply N M s U V) →
  ((Exchange.evaluateTrace data pm N M s U V).1 = Complete
   ∨ Exchange.evaluate data pm N M s U V < 0 →
   Exchange.evaluate data pm N M s U V
   = solutionCost data pm (Exchange.apply N M s U V) - solutionCost data pm s)
  ∧ ((Exchange.evaluateTrace data pm N M s U V).1 ≠ Complete →
     0 ≤ Exchange.evaluate data pm N M s U V).
Proof.
  intros HN HM [Hnd _] Hfit HinU HinV HUV HVend Hsafe.
  unfold Exchange.evaluate.
  destruct (Exchange.evaluateTrace data pm N M s U V) as [e d] eqn:Heval.
  simpl. split.
  - intros Hcase.
    destruct (decide (e = Complete)) as [->|He].
    + by apply (evaluateTrace_complete data pm N M s U V d).
    + pose proof (evaluateTrace_early data pm N M s U V e d Heval He).
      destruct Hcase; [done|lia].
  - intros He. by apply (evaluateTrace_early data pm N M s U V e d).
Qed.

Lemma evaluate_delta_correct_witness :
  Exchange.evaluate OkSmall examplePenalties 1 1
    [[1; 3]; [2; 4]; []]%nat (ClientNode 1) (ClientNode 2) = -12825
  ∧ Exchange.evaluate OkSmall examplePenalties 1 1
      [[1; 3]; [2; 4]; []]%nat (ClientNode 1) (ClientNode 2)
    = solutionCost OkSmall examplePenalties
        (Exchange.apply 1 1 [[1; 3]; [2; 4]; []]%nat
           (ClientNode 1) (ClientNode 2))
      - solutionCost OkSmall examplePenalties [[1; 3]; [2; 4]; []]%nat.
Proof.
  split; [reflexivity|].
  apply (evaluate_delta_correct OkSmall examplePenalties 1 1
           [[1; 3]; [2; 4]; []]%nat (ClientNode 1) (ClientNode 2)).
  - lia.
  - lia.
  - split; apply (bool_decide_unpack _); vm_compute; exact I.
  - unfold fits. simpl. lia.
  - simpl. repeat constructor.
  - simpl. repeat constructor.
  - discriminate.
  - discriminate.
  - int_safe_by_computation.
  - right. reflexivity.
Defined.

(** The bound is needed.  On [longArcs] every distance fits an [int], but
    the sum [proposed] of [evalRelocateMove] for putting client 1 between
    clients 2 and 3 does not: the move raises the penalised cost by
    2515098118, and with 32-bit wrap-around [evaluate] runs to its last
    [return] with −1779869178, an improvement. *)
Lemma evaluate_overflow_example :
  Exchange.evaluateTrace longArcs examplePenalties 1 0
    [[1]; [2; 3]]%nat (ClientNode 1) (ClientNode 2)
  = (Complete, -1779869178)
  ∧ Exchange.apply 1 0 [[1]; [2; 3]]%nat (ClientNode 1) (ClientNode 2)
    = [[]; [2; 1; 3]]%nat
  ∧ solutionCost longArcs examplePenalties [[]; [2; 1; 3]]%nat
    - solutionCost longArcs examplePenalties [[1]; [2; 3]]%nat = 2515098118
  ∧ ¬ intSafe longArcs examplePenalties [[1]; [2; 3]]%nat [[]; [2; 1; 3]]%nat.
Proof.
  repeat split; try reflexivity.
  intros (_ & _ & _ & _ & _ & Ha). by vm_compute in Ha.
Qed.

(** ** Properties of [apply] *)

Lemma routes_eq (s s' : list (list nat)) k (r : list nat) :
  length s' = length s → s !! k = Some r → s' !! k = Some r →
  (∀ j, j ≠ k → s' !! j = s !! j) → s' = s.
Proof.
  intros Hlen Hk Hk' Hother. apply list_eq. intros j.
  destruct (decide (j = k)) as [->|Hj]; [congruence|by apply Hother].
Qed.

Lemma perm_wf (N : nat) (s s' : list (list nat)) :
  mjoin s' ≡ₚ mjoin s → fits N s → NoDup (mjoin s) →
  fits N s' ∧ NoDup (mjoin s').
Proof.
  intros Hperm Hfit Hnd. split.
  - unfold fits in *. by rewrite Hperm.
  - by rewrite Hperm.
Qed.

(** The predecessor of the first node of a block is the node at the end of
    the prefix before the block. *)
Lemma p_anchor N (s : list (list nat)) ri (A Sg B : list nat) :
  fits N s → NoDup (mjoin s) → s !! ri = Some (A ++ Sg ++ B) → Sg ≠ [] →
  p s (ClientNode (headD Sg)) = nodeAt s ri (Z.of_nat (length A)).
Proof.
  intros Hfit Hnd Hwin HSg.
  assert ((A ++ Sg ++ B) !! length A = Some (headD Sg)) as Hh.
  { rewrite lookup_app_r by lia. rewrite Nat.sub_diag.
    destruct Sg; [done|]. done. }
  rewrite (p_client N s ri _ (length A) (headD Sg) Hfit Hnd Hwin Hh).
  destruct (decide (A = [])) as [->|HA]; [done|].
  destruct (exists_last HA) as (A' & a & ->).
  rewrite length_app. simpl.
  replace (length A' + 1)%nat with (S (length A')) by lia.
  assert (((A' ++ [a]) ++ Sg ++ B) !! length A' = Some a) as Ha.
  { rewrite <- (assoc_L (++)). rewrite lookup_app_r by lia.
    by rewrite Nat.sub_diag. }
  rewrite Ha. symmetry.
  replace (Z.of_nat (S (length A'))) with (Z.of_nat (length A') + 1) by lia.
  by apply (nodeAt_client s ri _ _ a Hwin).
Qed.

(** The node at the end of a prefix is the same in two solutions whose
    routes share the prefix. *)
Lemma nodeAt_prefix (s s' : list (list nat)) ri (A X Y : list nat) :
  s !! ri = Some (A ++ X) → s' !! ri = Some (A ++ Y) →
  nodeAt s' ri (Z.of_nat (length A)) = nodeAt s ri (Z.of_nat (length A)).
Proof.
  intros Hs Hs'. unfold nodeAt.
  rewrite (routeAt_lookup s ri _ Hs), (routeAt_lookup s' ri _ Hs').
  case_decide; [done|].
  by rewrite !lookup_app_l by lia.
Qed.

Lemma fits_le (N K : nat) (s : list (list nat)) :
  (K ≤ N)%nat → fits N s → fits K s.
Proof. unfold fits. lia. Qed.

(** X9: [apply] for an exchange (M ≥ 1) between two routes.  With U's
    segment SU (N clients) in route ru and V's segment SV (M clients) in
    another route rv, after [apply(U, V)] SV stands in ru where SU stood
    and SU stands in rv where SV stood; the clients around the segments
    and all other routes are as before. *)
Theorem exchange_between_routes (N M : nat) (s : list (list nat))
    ru A SU B rv C SV D :
  (1 ≤ M ≤ N)%nat → wfSol s → fits N s → ru ≠ rv →
  s !! ru = Some (A ++ SU ++ B) → s !! rv = Some (C ++ SV ++ D) →
  length SU = N → length SV = M →
  let s' := Exchange.apply N M s (ClientNode (headD SU)) (ClientNode (headD SV)) in
  length s' = length s
  ∧ s' !! ru = Some (A ++ SV ++ B)
  ∧ s' !! rv = Some (C ++ SU ++ D)
  ∧ ∀ k, k ≠ ru → k ≠ rv → s' !! k = s !! k.
Proof.
  intros HM [Hnd _] Hfit Hne HU HV HlU HlV.
  by apply (apply_cross_swap N M s ru A SU B rv C SV D).
Qed.

Lemma exchange_between_routes_witness :
  Exchange.apply 3 2 [[1; 2; 3; 4]; [5; 6; 7]; []]%nat (ClientNode 1) (ClientNode 6)
    !! 0%nat = Some [6; 7; 4]%nat.
Proof.
  eapply proj1, proj2,
    (exchange_between_routes 3 2 [[1; 2; 3; 4]; [5; 6; 7]; []]%nat
       0 [] [1; 2; 3]%nat [4]%nat 1 [5]%nat [6; 7]%nat []).
  - lia.
  - split; apply (bool_decide_unpack _); vm_compute; exact I.
  - unfold fits. simpl. lia.
  - lia.
  - reflexivity.
  - reflexivity.
  - reflexivity.
  - reflexivity.
Defined.

(** X10: [apply] for an exchange (M ≥ 1) within one route, U's segment
    standing before V's.  The two segments change places; the clients
    before, between and after them, and all other routes, are as
    before. *)
Theorem exchange_within_route_forward (N M : nat) (s : list (list nat))
    ru A SU Mid SV D :
  (1 ≤ M ≤ N)%nat → wfSol s → fits N s →
  s !! ru = Some (A ++ SU ++ Mid ++ SV ++ D) →
  length SU = N → length SV = M →
  let s' := Exchange.apply N M s (ClientNode (headD SU)) (ClientNode (headD SV)) in
  length s' = length s
  ∧ s' !! ru = Some (A ++ SV ++ Mid ++ SU ++ D)
  ∧ ∀ k, k ≠ ru → s' !! k = s !! k.
Proof.
  intros HM [Hnd _] Hfit HU HlU HlV.
  by apply (apply_same_swap_fwd N M s ru A SU Mid SV D).
Qed.

Lemma exchange_within_route_forward_witness :
  Exchange.apply 2 1 [[1; 2; 3; 4; 5]; []; []]%nat (ClientNode 1) (ClientNode 4)
    !! 0%nat = Some [4; 3; 1; 2; 5]%nat.
Proof.
  eapply proj1, proj2,
    (exchange_within_route_forward 2 1 [[1; 2; 3; 4; 5]; []; []]%nat
       0 [] [1; 2]%nat [3]%nat [4]%nat [5]%nat).
  - lia.
  - split; apply (bool_decide_unpack _); vm_compute; exact I.
  - unfold fits. simpl. lia.
  - reflexivity.
  - reflexivity.
  - reflexivity.
Defined.

(** X11: [apply] for an exchange (M ≥ 1) within one route, V's segment
    standing before U's.  Again the two segments change places and
    everything else stays. *)
Theorem exchange_within_route_backward (N M : nat) (s : list (list nat))
    ru C SV Mid SU B :
  (1 ≤ M ≤ N)%nat → wfSol s → fits N s →
  s !! ru = Some (C ++ SV ++ Mid ++ SU ++ B) →
  length SU = N → length SV = M →
  let s' := Exchange.apply N M s (ClientNode (headD SU)) (ClientNode (headD SV)) in
  length s' = length s
  ∧ s' !! ru = Some (C ++ SU ++ Mid ++ SV ++ B)
  ∧ ∀ k, k ≠ ru → s' !! k = s !! k.
Proof.
  intros HM [Hnd _] Hfit HU HlU HlV.
  by apply (apply_same_swap_bwd N M s ru C SV Mid SU B).
Qed.

Lemma exchange_within_route_backward_witness :
  Exchange.apply 2 1 [[1; 2; 3; 4; 5]; []; []]%nat (ClientNode 4) (ClientNode 1)
    !! 0%nat = Some [4; 5; 2; 3; 1]%nat.
Proof.
  eapply proj1, proj2,
    (exchange_within_route_backward 2 1 [[1; 2; 3; 4; 5]; []; []]%nat
       0 [] [1]%nat [2; 3]%nat [4; 5]%nat []).
  - lia.
  - split; apply (bool_decide_unpack _); vm_compute; exact I.
  - unfold fits. simpl. lia.
  - reflexivity.
  - reflexivity.
  - reflexivity.
Defined.

(** X12: [apply] for a relocation (M = 0) into another route.  V is the
    node at the end of the prefix C' of route rv: the start sentinel when
    C' is empty, else the node of the last client of C'.  After
    [apply(U, V)] U's segment SU is gone from its route ru and stands in
    rv directly behind V, in its old order; all other routes are as
    before. *)
Theorem relocate_between_routes (N : nat) (s : list (list nat))
    ru A SU B rv C' D V :
  (1 ≤ N)%nat → wfSol s → fits N s → ru ≠ rv →
  s !! ru = Some (A ++ SU ++ B) → s !! rv = Some (C' ++ D) →
  length SU = N → nodeAt s rv (Z.of_nat (length C')) = V →
  let s' := Exchange.apply N 0 s (ClientNode (headD SU)) V in
  length s' = length s
  ∧ s' !! ru = Some (A ++ B)
  ∧ s' !! rv = Some (C' ++ SU ++ D)
  ∧ ∀ k, k ≠ ru → k ≠ rv → s' !! k = s !! k.
Proof.
  intros HN [Hnd _] Hfit Hne HU HV HlU Hanc.
  by apply (apply_relocate_cross N s ru A SU B rv C' D V).
Qed.

Lemma relocate_between_routes_witness :
  Exchange.apply 2 0 [[1; 2; 3]; [4; 5]; []]%nat (ClientNode 2) (StartDepot 1)
    !! 1%nat = Some [2; 3; 4; 5]%nat.
Proof.
  eapply proj1, proj2, proj2,
    (relocate_between_routes 2 [[1; 2; 3]; [4; 5]; []]%nat
       0 [1]%nat [2; 3]%nat [] 1 [] [4; 5]%nat (StartDepot 1)).
  - lia.
  - split; apply (bool_decide_unpack _); vm_compute; exact I.
  - unfold fits. simpl. lia.
  - lia.
  - reflexivity.
  - reflexivity.
  - reflexivity.
  - reflexivity.
Defined.

(** X13: [apply] for a relocation (M = 0) within one route, towards the
    end of the route: V is the node of the last client of the block Mid
    that follows U's segment SU.  After [apply(U, V)] SU stands behind
    Mid; everything else is as before. *)
Theorem relocate_within_route_forward (N : nat) (s : list (list nat))
    ru A SU Mid D :
  (1 ≤ N)%nat → wfSol s → fits N s →
  s !! ru = Some (A ++ SU ++ Mid ++ D) → length SU = N → Mid ≠ [] →
  let s' := Exchange.apply N 0 s (ClientNode (headD SU)) (ClientNode (lastD Mid)) in
  length s' = length s
  ∧ s' !! ru = Some (A ++ Mid ++ SU ++ D)
  ∧ ∀ k, k ≠ ru → s' !! k = s !! k.
Proof.
  intros HN [Hnd _] Hfit HU HlU HMid.
  by apply (apply_relocate_fwd N s ru A SU Mid D).
Qed.

Lemma relocate_within_route_forward_witness :
  Exchange.apply 2 0 [[1; 2; 3; 4; 5]; []; []]%nat (ClientNode 1) (ClientNode 4)
    !! 0%nat = Some [3; 4; 1; 2; 5]%nat.
Proof.
  eapply proj1, proj2,
    (relocate_within_route_forward 2 [[1; 2; 3; 4; 5]; []; []]%nat
       0 [] [1; 2]%nat [3; 4]%nat [5]%nat).
  - lia.
  - split; apply (bool_decide_unpack _); vm_compute; exact I.
  - unfold fits. simpl. lia.
  - reflexivity.
  - reflexivity.
  - discriminate.
Defined.

(** X14: [apply] for a relocation (M = 0) within one route, towards the
    start of the route: V is the node at the end of the prefix C' of the
    route, with the block Mid between it and U's segment SU.  After
    [apply(U, V)] SU stands directly behind V, before Mid; everything else
    is as before. *)
Theorem relocate_within_route_backward (N : nat) (s : list (list nat))
    ru C' Mid SU B V :
  (1 ≤ N)%nat → wfSol s → fits N s →
  s !! ru = Some (C' ++ Mid ++ SU ++ B) → length SU = N →
  nodeAt s ru (Z.of_nat (length C')) = V →
  let s' := Exchange.apply N 0 s (ClientNode (headD SU)) V in
  length s' = length s
  ∧ s' !! ru = Some (C' ++ SU ++ Mid ++ B)
  ∧ ∀ k, k ≠ ru → s' !! k = s !! k.
Proof.
  intros HN [Hnd _] Hfit HU HlU Hanc.
  by apply (apply_relocate_bwd N s ru C' Mid SU B V).
Qed.

Lemma relocate_within_route_backward_witness :
  Exchange.apply 2 0 [[1; 2; 3; 4; 5]; []; []]%nat (ClientNode 4) (ClientNode 1)
    !! 0%nat = Some [1; 4; 5; 2; 3]%nat.
Proof.
  eapply proj1, proj2,
    (relocate_within_route_backward 2 [[1; 2; 3; 4; 5]; []; []]%nat
       0 [1]%nat [2; 3]%nat [4; 5]%nat [] (ClientNode 1)).
  - lia.
  - split; apply (bool_decide_unpack _); vm_compute; exact I.
  - unfold fits. simpl. lia.
  - reflexivity.
  - reflexivity.
  - reflexivity.
Defined.

(** X15: a move that the pre-filters let through (U, V as in X1) keeps the
    solution well formed: after [apply(U, V)] there are as many routes as
    before, they hold the same clients, each once, and the sizes still
    fit. *)
Theorem apply_keeps_clients (N M : nat) (s : list (list nat)) U V :
  (0 < N)%nat → (M ≤ N)%nat → wfSol s → fits N s →
  nodeIn s U → nodeIn s V → U ≠ V → (∀ r, V ≠ EndDepot r) →
  prefiltered N M s U V = false →
  length (Exchange.apply N M s U V) = length s
  ∧ mjoin (Exchange.apply N M s U V) ≡ₚ mjoin s
  ∧ wfSol (Exchange.apply N M s U V)
  ∧ fits N (Exchange.apply N M s U V).
Proof.
  intros HN HM [Hnd H0] Hfit HinU HinV HUV HVend Hpre.
  destruct (apply_perm N M s U V HN HM Hfit Hnd HinU HinV HUV HVend Hpre)
    as [Hlen Hperm].
  split; [done|]. split; [done|]. split.
  - split; by rewrite Hperm.
  - unfold fits in *. by rewrite Hperm.
Qed.

Lemma apply_keeps_clients_witness :
  mjoin (Exchange.apply 2 1 [[1; 2; 3; 4]; []; []]%nat (ClientNode 1) (ClientNode 4))
  ≡ₚ [1; 2; 3; 4]%nat.
Proof.
  eapply proj1, proj2,
    (apply_keeps_clients 2 1 [[1; 2; 3; 4]; []; []]%nat (ClientNode 1) (ClientNode 4)).
  - lia.
  - lia.
  - split; apply (bool_decide_unpack _); vm_compute; exact I.
  - unfold fits. simpl. lia.
  - simpl. repeat constructor.
  - simpl. repeat constructor.
  - discriminate.
  - discriminate.
  - reflexivity.
Defined.

(** X16: an exchange with M ≥ 1 undoes itself.  For a pair that the
    pre-filters let through, applying the move twice with the same nodes
    gives back the routes as they were, whether the two segments stand in
    one route or in two, and whether or not N = M. *)
Theorem exchange_applied_twice (N M : nat) (s : list (list nat)) U V :
  (1 ≤ M ≤ N)%nat → wfSol s → fits N s → nodeIn s U → nodeIn s V →
  prefiltered N M s U V = false →
  Exchange.apply N M (Exchange.apply N M s U V) U V = s.
Proof.
  intros HM [Hnd H0] Hfit HinU HinV Hpre.
  destruct (swap_shape N M s U V HM Hfit Hnd HinU HinV Hpre)
    as (SU & SV & -> & -> & HlU & HlV & Hshape).
  destruct Hshape as [(ru & rv & A & B & C & D & Hne & HU & HV)
                     |[(ru & A & Mid & D & HMid & HU)
                      |(ru & C & Mid & B & HMid & HU)]].
  - destruct (apply_cross_swap N M s ru A SU B rv C SV D)
      as (Hlen & HU' & HV' & Hother); try done.
    set (s' := Exchange.apply N M s (ClientNode (headD SU))
                 (ClientNode (headD SV))) in *.
    destruct (perm_wf N s s') as [Hfit' Hnd']; try done.
    { apply (join_perm_two s _ ru rv _ _ _ _ Hlen Hne HU HV HU' HV' Hother).
      solve_Permutation. }
    destruct (apply_cross_swap N M s' rv C SU D ru A SV B)
      as (Hlen2 & HU2 & HV2 & Hother2); try done.
    apply list_eq. intros k.
    destruct (decide (k = ru)) as [->|Hku]; [congruence|].
    destruct (decide (k = rv)) as [->|Hkv]; [congruence|].
    rewrite Hother2 by done. by apply Hother.
  - destruct (apply_same_swap_fwd N M s ru A SU Mid SV D)
      as (Hlen & HU' & Hother); try done.
    set (s' := Exchange.apply N M s (ClientNode (headD SU))
                 (ClientNode (headD SV))) in *.
    destruct (perm_wf N s s') as [Hfit' Hnd']; try done.
    { apply (join_perm_one s _ ru _ _ Hlen HU HU' Hother). solve_Permutation. }
    destruct (apply_same_swap_bwd N M s' ru A SV Mid SU D)
      as (Hlen2 & HU2 & Hother2); try done.
    apply list_eq. intros k.
    destruct (decide (k = ru)) as [->|Hku]; [congruence|].
    rewrite Hother2 by done. by apply Hother.
  - destruct (apply_same_swap_bwd N M s ru C SV Mid SU B)
      as (Hlen & HU' & Hother); try done.
    set (s' := Exchange.apply N M s (ClientNode (headD SU))
                 (ClientNode (headD SV))) in *.
    destruct (perm_wf N s s') as [Hfit' Hnd']; try done.
    { apply (join_perm_one s _ ru _ _ Hlen HU HU' Hother). solve_Permutation. }
    destruct (apply_same_swap_fwd N M s' ru C SU Mid SV B)
      as (Hlen2 & HU2 & Hother2); try done.
    apply list_eq. intros k.
    destruct (decide (k = ru)) as [->|Hku]; [congruence|].
    rewrite Hother2 by done. by apply Hother.
Qed.

Lemma exchange_applied_twice_witness :
  Exchange.apply 2 1
    (Exchange.apply 2 1 [[1; 2; 3]; [4; 5]; []]%nat (ClientNode 1) (ClientNode 5))
    (ClientNode 1) (ClientNode 5)
  = [[1; 2; 3]; [4; 5]; []]%nat.
Proof.
  apply exchange_applied_twice.
  - lia.
  - split; apply (bool_decide_unpack _); vm_compute; exact I.
  - unfold fits. simpl. lia.
  - simpl. repeat constructor.
  - simpl. repeat constructor.
  - reflexivity.
Defined.

(** X17: a relocation is undone by relocating the segment back behind its
    old predecessor.  For U, V as in X1 and a relocation (M = 0) that the
    pre-filters let through: [apply(U, V)] followed by [apply(U, P)], P the
    predecessor of U before the move, gives back the routes as they
    were. *)
Theorem relocate_undone (N : nat) (s : list (list nat)) U V :
  (0 < N)%nat → wfSol s → fits N s → nodeIn s U → nodeIn s V →
  U ≠ V → (∀ r, V ≠ EndDepot r) →
  prefiltered N 0 s U V = false →
  Exchange.apply N 0 (Exchange.apply N 0 s U V) U (p s U) = s.
Proof.
  intros HN [Hnd H0] Hfit HinU HinV HUV HVend Hpre.
  destruct (relocate_shape N s U V HN Hfit Hnd HinU HinV HUV HVend Hpre)
    as (SU & -> & HlU & Hshape).
  assert (SU ≠ []) as HSU by (intros ->; simpl in HlU; lia).
  destruct Hshape as [(ru & rv & A & B & C' & D & Hne & HU & HV & Hanc)
                     |[(ru & A & Mid & D & HMid & HU & ->)
                      |(ru & C' & Mid & B & HMid & HU & Hanc)]].
  - destruct (apply_relocate_cross N s ru A SU B rv C' D V)
      as (Hlen & HU' & HV' & Hother); try done.
    set (s' := Exchange.apply N 0 s (ClientNode (headD SU)) V) in *.
    destruct (perm_wf N s s') as [Hfit' Hnd']; try done.
    { apply (join_perm_two s _ ru rv _ _ _ _ Hlen Hne HU HV HU' HV' Hother).
      solve_Permutation. }
    rewrite (p_anchor N s ru A SU B Hfit Hnd HU HSU).
    destruct (apply_relocate_cross N s' rv C' SU D ru A B
                (nodeAt s ru (Z.of_nat (length A))))
      as (Hlen2 & HU2 & HV2 & Hother2); try done.
    { by apply (nodeAt_prefix s s' ru A (SU ++ B) B). }
    apply list_eq. intros k.
    destruct (decide (k = ru)) as [->|Hku]; [congruence|].
    destruct (decide (k = rv)) as [->|Hkv]; [congruence|].
    rewrite Hother2 by done. by apply Hother.
  - destruct (apply_relocate_fwd N s ru A SU Mid D)
      as (Hlen & HU' & Hother); try done.
    set (s' := Exchange.apply N 0 s (ClientNode (headD SU))
                 (ClientNode (lastD Mid))) in *.
    destruct (perm_wf N s s') as [Hfit' Hnd']; try done.
    { apply (join_perm_one s _ ru _ _ Hlen HU HU' Hother). solve_Permutation. }
    rewrite (p_anchor N s ru A SU (Mid ++ D) Hfit Hnd HU HSU).
    destruct (apply_relocate_bwd N s' ru A Mid SU D
                (nodeAt s ru (Z.of_nat (length A))))
      as (Hlen2 & HU2 & Hother2); try done.
    { by apply (nodeAt_prefix s s' ru A (SU ++ Mid ++ D) (Mid ++ SU ++ D)). }
    apply list_eq. intros k.
    destruct (decide (k = ru)) as [->|Hku]; [congruence|].
    rewrite Hother2 by done. by apply Hother.
  - destruct (apply_relocate_bwd N s ru C' Mid SU B V)
      as (Hlen & HU' & Hother); try done.
    set (s' := Exchange.apply N 0 s (ClientNode (headD SU)) V) in *.
    destruct (perm_wf N s s') as [Hfit' Hnd']; try done.
    { apply (join_perm_one s _ ru _ _ Hlen HU HU' Hother). solve_Permutation. }
    assert (s !! ru = Some ((C' ++ Mid) ++ SU ++ B)) as HU2.
    { rewrite HU. f_equal. by rewrite <- !(assoc_L (++)). }
    rewrite (p_anchor N s ru (C' ++ Mid) SU B Hfit Hnd HU2 HSU).
    assert (s !! ru = Some ((C' ++ Mid) ++ (SU ++ B))) as HU3 by done.
    rewrite (nodeAt_prefix_last s ru (C' ++ Mid) (SU ++ B) HU3)
      by (by destruct C', Mid).
    rewrite (lastD_app C' Mid) by done.
    destruct (apply_relocate_fwd N s' ru C' SU Mid B)
      as (Hlen2 & HU4 & Hother2); try done.
    apply list_eq. intros k.
    destruct (decide (k = ru)) as [->|Hku]; [congruence|].
    rewrite Hother2 by done. by apply Hother.
Qed.

Lemma relocate_undone_witness :
  Exchange.apply 2 0
    (Exchange.apply 2 0 [[1; 2; 3]; [4; 5]; []]%nat (ClientNode 2) (ClientNode 4))
    (ClientNode 2) (p [[1; 2; 3]; [4; 5]; []]%nat (ClientNode 2))
  = [[1; 2; 3]; [4; 5]; []]%nat.
Proof.
  apply relocate_undone.
  - lia.
  - split; apply (bool_decide_unpack _); vm_compute; exact I.
  - unfold fits. simpl. lia.
  - simpl. repeat constructor.
  - simpl. repeat constructor.
  - discriminate.
  - discriminate.
  - reflexivity.
Defined.

(** X18: the reason for the filter [U == n(V)] of a relocation.  When U,
    the start of a segment of N clients, is the successor of V, the segment
    already stands behind V, and [apply(U, V)] with M = 0 leaves every
    route as it is. *)
Theorem relocate_behind_predecessor (N : nat) (s : list (list nat)) U V :
  (0 < N)%nat → wfSol s → fits N s → nodeIn s U → nodeIn s V →
  Exchange.containsDepot s U N = false → U = n s V →
  Exchange.apply N 0 s U V = s.
Proof.
  intros HN [Hnd _] Hfit HinU HinV HdU HUV.
  destruct (segment_block N N s U)
    as (ri & r & i & u & -> & _ & Hr & Hi & HiN & _ & _); [lia|done..|].
  destruct (block_at r i N u Hi HiN) as (HlU & HhU); [lia|].
  assert (∃ C', r = C' ++ [] ++ take N (drop i r) ++ drop (i + N) r
                ∧ nodeAt s ri (Z.of_nat (length C')) = V) as (C' & Hsplit & Hanc).
  { destruct V as [v|rj|rj]; [| |done].
    - destruct (nodeIn_client s v HinV) as (rj & r' & j & Hr' & Hj).
      rewrite (n_client N s rj r' j v HN Hfit Hnd Hr' Hj) in HUV.
      destruct (r' !! S j) as [y|] eqn:Hy; [|done].
      injection HUV as ->.
      destruct (lookup_unique s ri r i rj r' (S j) y Hnd Hr Hi Hr' Hy)
        as [-> ->].
      assert (r' = r) as -> by congruence.
      exists (take (S j) r). split.
      + simpl. apply (block_split r (S j) N y); [done|done|lia].
      + rewrite length_take.
        replace (S j `min` length r)%nat with (S j)
          by (apply lookup_lt_Some in Hi; lia).
        replace (Z.of_nat (S j)) with (Z.of_nat j + 1) by lia.
        by apply (nodeAt_client s rj r j v).
    - simpl in HinV. apply lookup_lt_is_Some_2 in HinV as [r' Hr'].
      rewrite n_start, (routeAt_lookup s rj r' Hr') in HUV.
      destruct (r' !! 0%nat) as [y|] eqn:Hy; [|done].
      injection HUV as ->.
      destruct (lookup_unique s ri r i rj r' 0%nat y Hnd Hr Hi Hr' Hy)
        as [-> ->].
      assert (r' = r) as -> by congruence.
      exists []. split; [|done].
      simpl. rewrite <- (take_drop N r) at 1. by rewrite drop_0. }
  rewrite <- HhU.
  rewrite Hsplit in Hr.
  destruct (apply_relocate_bwd N s ri C' [] (take N (drop i r))
              (drop (i + N) r) V) as (Hlen & Hr' & Hother); try done.
  apply (routes_eq s _ ri _ Hlen Hr); [|done].
  by rewrite Hr'.
Qed.

Lemma relocate_behind_predecessor_witness :
  Exchange.apply 2 0 [[1; 2; 3; 4]; []; []]%nat (ClientNode 2) (ClientNode 1)
  = [[1; 2; 3; 4]; []; []]%nat.
Proof.
  apply relocate_behind_predecessor.
  - lia.
  - split; apply (bool_decide_unpack _); vm_compute; exact I.
  - unfold fits. simpl. lia.
  - simpl. repeat constructor.
  - simpl. repeat constructor.
  - reflexivity.
  - reflexivity.
Defined.

(** X19: how [apply] composes.  An exchange with N > M ≥ 1 is the
    relocation of the N − M extra clients of U's segment behind the last
    node of V's segment, followed by the pure swap of the first M clients
    of U's segment with V's segment: [Exchange<N, M>::apply(U, V)] gives
    the routes that [Exchange<N − M, 0>::apply(U + M, endV)] followed by
    [Exchange<M, M>::apply(U, V)] gives. *)
Theorem exchange_is_relocate_then_swap (N M : nat) (s : list (list nat))
    ru A SU1 E B rv C SV D :
  (1 ≤ M)%nat → (M < N)%nat → wfSol s → fits N s →
  s !! ru = Some (A ++ (SU1 ++ E) ++ B) →
  s !! rv = Some (C ++ SV ++ D) →
  length SU1 = M → length E = (N - M)%nat → length SV = M →
  NoDup (SU1 ++ E ++ SV) →
  Exchange.apply N M s (ClientNode (headD (SU1 ++ E))) (ClientNode (headD SV))
  = Exchange.apply M M
      (Exchange.apply (N - M) 0 s (ClientNode (headD E)) (ClientNode (lastD SV)))
      (ClientNode (headD SU1)) (ClientNode (headD SV)).
Proof.
  intros HM HMN [Hnd H0] Hfit HU HV HlU HlE HlV Hdis.
  rewrite (apply_swap_moved N M s ru A SU1 E B rv C SV D) by (done || lia).
  assert (SV ≠ []) as HSV by (intros ->; simpl in HlV; lia).
  assert (SU1 ≠ []) as HSU1 by (intros ->; simpl in HlU; lia).
  destruct (exists_last HSV) as (SV' & v & HSVeq).
  assert (lastD SV = v) as Hv by (by rewrite HSVeq, lastD_snoc).
  rewrite Hv.
  assert (NoDup E) as HndE by blk Hdis.
  assert (v ∉ E) as HvE.
  { rewrite HSVeq in Hdis. blk Hdis. }
  assert (anchorOk s (ClientNode v) E) as Hanc.
  { simpl. split; [|done].
    apply (window_elem_of s rv C SV D v HV). rewrite HSVeq.
    rewrite elem_of_app, list_elem_of_singleton. tauto. }
  assert (s !! ru = Some ((A ++ SU1) ++ E ++ B)) as HU2.
  { rewrite HU. f_equal. by rewrite <- !(assoc_L (++)). }
  rewrite (apply_relocate_moved (N - M) s ru (A ++ SU1) E B (ClientNode v));
    [|lia|by apply (fits_le N); [lia|]|done..].
  set (s1 := moved (ClientNode v) E s).
  assert (∀ x, x ∈ E → x ∈ mjoin s) as HEin.
  { intros x Hx. apply (window_elem_of s ru (A ++ SU1) E B x HU2 Hx). }
  destruct (moved_window (ClientNode v) E s ru A SU1 (E ++ B)) as (A' & B' & HU').
  { rewrite HU. f_equal. by rewrite <- !(assoc_L (++)). }
  { blk Hdis. }
  { rewrite HSVeq in Hdis. blk Hdis. }
  destruct (moved_window_anchor v E s rv C SV' D) as (C' & D' & HV').
  { by rewrite <- HSVeq. }
  { rewrite <- HSVeq. intros x Hx HxE. revert x Hx HxE.
    apply (submseteq_disjoint SV E (SU1 ++ E ++ SV)); [solve_submseteq|done]. }
  { rewrite HSVeq in Hdis. blk Hdis. }
  rewrite <- HSVeq in HV'. fold s1 in HU', HV'.
  assert (s1 !! ru = Some (A' ++ (SU1 ++ []) ++ B')) as HU''
    by (by rewrite app_nil_r).
  rewrite <- (app_nil_r SU1) at 2.
  rewrite (apply_swap_moved M M s1 ru A' SU1 [] B' rv C' SV D').
  - by rewrite moved_nil.
  - lia.
  - apply (fits_le N); [lia|]. by apply moved_fits.
  - by apply moved_NoDup.
  - done.
  - done.
  - done.
  - simpl. lia.
  - done.
  - simpl. blk Hdis.
Qed.

Lemma exchange_is_relocate_then_swap_witness :
  Exchange.apply 3 1 [[1; 2; 3; 4]; [5; 6]; []]%nat (ClientNode 1) (ClientNode 6)
  = Exchange.apply 1 1
      (Exchange.apply 2 0 [[1; 2; 3; 4]; [5; 6]; []]%nat
         (ClientNode 2) (ClientNode 6))
      (ClientNode 1) (ClientNode 6).
Proof.
  apply (exchange_is_relocate_then_swap 3 1 [[1; 2; 3; 4]; [5; 6]; []]%nat
           0 [] [1]%nat [2; 3]%nat [4]%nat 1 [5]%nat [6]%nat []).
  - lia.
  - lia.
  - split; apply (bool_decide_unpack _); vm_compute; exact I.
  - unfold fits. simpl. lia.
  - reflexivity.
  - reflexivity.
  - reflexivity.
  - reflexivity.
  - reflexivity.
  - apply (bool_decide_unpack _). vm_compute. exact I.
Defined.

(** X21: the insert loop of [apply] moves the segment node by node, last
    node first.  A relocation (M = 0) of the K + 1 clients [E ++ [e]]
    behind V, V a node of the solution outside the segment and not an end
    sentinel, gives the routes that relocating the last client e behind V
    ([Exchange<1, 0>::apply]) and then relocating the remaining K clients
    behind V ([Exchange<K, 0>::apply]) gives. *)
Theorem relocate_last_node_first (K : nat) (s : list (list nat))
    ru A E e B V :
  (1 ≤ K)%nat → wfSol s → fits (S K) s →
  s !! ru = Some (A ++ (E ++ [e]) ++ B) → length E = K →
  anchorOk s V (E ++ [e]) →
  Exchange.apply (S K) 0 s (ClientNode (headD (E ++ [e]))) V
  = Exchange.apply K 0 (Exchange.apply 1 0 s (ClientNode e) V)
      (ClientNode (headD E)) V.
Proof.
  intros HK [Hnd H0] Hfit HU HlE Hanc.
  pose proof (NoDup_join_lookup s ru _ Hnd HU) as HndU.
  assert (E ≠ []) as HE by (intros ->; simpl in HlE; lia).
  rewrite (apply_relocate_moved (S K) s ru A (E ++ [e]) B V);
    [|lia|done|done|done|rewrite length_app; simpl; lia|done].
  assert (s !! ru = Some ((A ++ E) ++ [e] ++ B)) as HU1.
  { rewrite HU. f_equal. by rewrite <- !(assoc_L (++)). }
  assert (anchorOk s V [e]) as Hanc1.
  { destruct V as [v|r0|r0]; simpl in Hanc |- *; [|done|done].
    destruct Hanc as [Hin Hout]. split; [done|].
    intros Hv. apply Hout. rewrite elem_of_app. by right. }
  assert (e ∈ mjoin s) as Hein.
  { apply (lookup_elem_of_join s ru _ e HU).
    rewrite !elem_of_app, list_elem_of_singleton. tauto. }
  change (ClientNode e) with (ClientNode (headD [e])).
  rewrite (apply_relocate_moved 1 s ru (A ++ E) [e] B V);
    [|lia|by apply (fits_le (S K)); [lia|]|done..].
  set (s1 := moved V [e] s).
  assert (mjoin s1 ≡ₚ mjoin s) as Hperm.
  { apply moved_perm; [done|apply NoDup_singleton| |done].
    intros x ->%list_elem_of_singleton. done. }
  destruct (moved_window V [e] s ru A E ([e] ++ B)) as (A' & B' & HU').
  { rewrite HU. f_equal. by rewrite <- !(assoc_L (++)). }
  { intros x Hx ->%list_elem_of_singleton. revert Hx. blk HndU. }
  { destruct V as [v|r0|r0]; [|done|done]. simpl in Hanc.
    destruct Hanc as [_ Hout]. intros Hv. apply Hout.
    rewrite elem_of_app. by left. }
  fold s1 in HU'.
  rewrite (apply_relocate_moved K s1 ru A' E B' V).
  - symmetry. apply moved_snoc; [blk HndU|].
    destruct V as [v|r0|r0]; [|done|done]. simpl in Hanc.
    destruct Hanc as [_ Hout]. rewrite elem_of_app in Hout.
    rewrite list_elem_of_singleton in Hout. split; [tauto|]. intros ->. tauto.
  - done.
  - apply (fits_le (S K)); [lia|]. unfold fits in *. by rewrite Hperm.
  - by rewrite Hperm.
  - done.
  - done.
  - destruct V as [v|r0|r0]; simpl in Hanc |- *; [| |done].
    + destruct Hanc as [Hin Hout]. rewrite Hperm. split; [done|].
      intros Hv. apply Hout. rewrite elem_of_app. by left.
    + unfold s1. by rewrite moved_length.
Qed.

Lemma relocate_last_node_first_witness :
  Exchange.apply 3 0 [[1; 2; 3; 4]; [5; 6]; []]%nat (ClientNode 2) (ClientNode 5)
  = Exchange.apply 2 0
      (Exchange.apply 1 0 [[1; 2; 3; 4]; [5; 6]; []]%nat
         (ClientNode 4) (ClientNode 5))
      (ClientNode 2) (ClientNode 5).
Proof.
  apply (relocate_last_node_first 2 [[1; 2; 3; 4]; [5; 6]; []]%nat
           0 [1]%nat [2; 3]%nat 4%nat [] (ClientNode 5)).
  - lia.
  - split; apply (bool_decide_unpack _); vm_compute; exact I.
  - unfold fits. simpl. lia.
  - reflexivity.
  - reflexivity.
  - split; apply (bool_decide_unpack _); vm_compute; exact I.
Defined.
